(** * A shallow embedding of the db1 Lisp-to-LLVM front end

    The Python sources embedded here are [parser.py] (lexer, parser,
    desugarer), [type.py] (the [Type] cell and its dictionary behaviour),
    [type_inference.py] (constraint generation, unifier, simplification),
    [function_stub.py] (specialisation of an entry function) and
    [compiler.py] (lowering and call resolution).

    Conventions of the embedding:
    - a Python [str] is a [string]; its characters are the code points
      below 256;
    - an exception is a value of [PyError], and a function that may raise
      returns a [result];
    - module-level counters ([name_counter], [type_var_counter]) are
      passed in and out explicitly;
    - [Type] objects are mutable and shared, so they live in an explicit
      store addressed by naturals; dictionaries keyed by [Type] keep their
      insertion order and compare keys the way Python does (constant hash,
      then identity or [__eq__]);
    - Python's recursion limit is rendered by a fuel argument on the
      functions whose recursion depth depends on the store; running out of
      fuel is [RecursionError]. *)

From stdpp Require Import base list strings gmap.
From Stdlib Require Import String Ascii Bool Arith Lia DecimalString.
From Stdlib Require DecimalNat.

Set Warnings "-register-all".

Open Scope string_scope.
Open Scope list_scope.

(* ================================================================== *)
(** * Part I: the embedding *)
(* ================================================================== *)

(** ** Exceptions *)

(** The key of a failed dictionary lookup: a [str], a [Type] object
    (by address) or [None]. *)
Inductive PyKey : Type :=
| KName (s : string)
| KObject (a : nat)
| KNone.

(** [NoObject] is not a Python exception: it is the answer of the model
    when an address is outside the store, which no Python state has. *)
Inductive PyError : Type :=
| AssertionError (msg : string)
| IndexError
| TypeError
| AttributeError
| KeyError (key : PyKey)
| RuntimeError (msg : string)
| ValueError
| RecursionError
| NoObject.

Inductive result (A : Type) : Type :=
| Ok (a : A)
| Raise (e : PyError).
Arguments Ok {A} a.
Arguments Raise {A} e.

(** Sequencing: [let* x := r in k] propagates the exception of [r]. *)
Definition bind {A B} (r : result A) (k : A → result B) : result B :=
  match r with
  | Ok a => k a
  | Raise e => Raise e
  end.

Notation "'let*' x ':=' r 'in' k" := (bind r (fun x => k))
  (at level 10, x name, r at level 100, k at level 200).
Notation "'let*' ' p ':=' r 'in' k" :=
  (bind r (fun x => match x with p => k end))
  (at level 10, p pattern, r at level 100, k at level 200).

(** ** instruction.py *)

Inductive Instruction : Type :=
| Add | Negate | LambdaParams | Defun | Unknown | Module | Mult
| String1 | Setf | Lambda | NumberConstant.

Definition Instruction_eqb (a b : Instruction) : bool :=
  match a, b with
  | Add, Add | Negate, Negate | LambdaParams, LambdaParams
  | Defun, Defun | Unknown, Unknown | Module, Module | Mult, Mult
  | String1, String1 | Setf, Setf | Lambda, Lambda
  | NumberConstant, NumberConstant => true
  | _, _ => false
  end.

(** ** astnode.py: the raw syntax tree

    [AstNode.operands] is declared as a list of nodes and strings, but the
    parser's [-] case stores a bare node there ([AstNode(Negate, k)]);
    [AstBare] is that shape. The fields [bound_variables] and
    [text_indices] keep their defaults throughout lexing, parsing,
    desugaring and inference and are left out. *)

Inductive AstNode : Type :=
| Ast (instr : Instruction) (operands : list Operand)
| AstBare (instr : Instruction) (operand : AstNode)
with Operand : Type :=
| OStr (s : string)
| ONode (n : AstNode).

(** Induction over nodes, with the node operands of a list as induction
    hypotheses. *)
Definition on_nodes (P : AstNode → Prop) (o : Operand) : Prop :=
  match o with
  | OStr _ => True
  | ONode n => P n
  end.

Section AstNode_induction.
Variable P : AstNode → Prop.
Hypothesis HAst : ∀ i operands, Forall (on_nodes P) operands → P (Ast i operands).
Hypothesis HAstBare : ∀ i k, P k → P (AstBare i k).

Fixpoint AstNode_nested_ind (n : AstNode) : P n :=
  match n with
  | Ast i operands =>
      HAst i operands
        ((fix all (l : list Operand) : Forall (on_nodes P) l :=
            match l with
            | [] => List.Forall_nil (on_nodes P)
            | o :: l =>
                @List.Forall_cons _ (on_nodes P) o l
                  match o return on_nodes P o with
                  | OStr _ => I
                  | ONode k => AstNode_nested_ind k
                  end
                  (all l)
            end) operands)
  | AstBare i k => HAstBare i k (AstNode_nested_ind k)
  end.
End AstNode_induction.

Definition instr_of (n : AstNode) : Instruction :=
  match n with
  | Ast i _ => i
  | AstBare i _ => i
  end.

(** ** parser.py: lexer *)

Definition lexer_step (st : list string * string) (c : ascii)
  : list string * string :=
  let '(words, current_word) := st in
  if Ascii.eqb c " " then (words ++ [current_word], "")
  else if Ascii.eqb c "(" || Ascii.eqb c ")" then
    (words ++ [current_word; String c ""], "")
  else (words, String.append current_word (String c "")).

(** The loop of [lexer]; what is left in [current_word] when the input
    ends is not appended to [words]. *)
Definition lexer (str : string) : list string :=
  let '(words, _) :=
    fold_left lexer_step (list_ascii_of_string str) ([], "") in
  List.filter (fun k => negb (String.eqb k "")) words.

(** [" ".join(tokens)] *)
Definition join_spaces (tokens : list string) : string :=
  String.concat " " tokens.

(** ** parser.py: parser *)

(** [str.isdigit] on one character, for code points below 256: the ASCII
    digits and the superscripts U+00B2, U+00B3, U+00B9. *)
Definition isdigit (c : ascii) : bool :=
  let n := nat_of_ascii c in
  (Nat.leb 48 n && Nat.leb n 57)
  || Nat.eqb n 178 || Nat.eqb n 179 || Nat.eqb n 185.

Definition string_forall (p : ascii → bool) (s : string) : bool :=
  forallb p (list_ascii_of_string s).

Definition is_number (a : string) : bool :=
  string_forall (fun c => isdigit c || Ascii.eqb c ".") a.

(** [functools.reduce] without initial value. *)
Definition reduce {A} (f : A → A → A) (l : list A) : result A :=
  match l with
  | [] => Raise TypeError
  | x :: xs => Ok (fold_left f xs x)
  end.

(** [assert next[0] == ')'] *)
Definition assert_head_close (next : list string) : result unit :=
  match next with
  | [] => Raise IndexError
  | t :: _ =>
      if String.eqb t ")" then Ok tt else Raise (AssertionError "")
  end.

Definition binary (i : Instruction) (k1 k2 : AstNode) : AstNode :=
  Ast i [ONode k1; ONode k2].

(** [a, b = answer]: the answer [None] of a function that fell off its
    end cannot be unpacked. *)
Definition unpack {A} (answer : option A) : result A :=
  match answer with
  | Some p => Ok p
  | None => Raise TypeError
  end.

(** [parser] and [take_until] call each other; every call, and every
    iteration of the loop of [take_until], uses one unit of fuel. On the
    empty list no case of [parser] matches: the function falls off its
    end and returns [None], without raising. The callers unpack the
    answer into two names. *)
Fixpoint parser (fuel : nat) (tokens : list string)
  : result (option (AstNode * list string)) :=
  match fuel with
  | O => Raise RecursionError
  | S fuel =>
      match tokens with
      | [] => Ok None
      | x :: rest =>
          if String.eqb x "(" then
            let* '(total_result, next) := take_until fuel rest ")" in
            let* _ := assert_head_close next in
            Ok (Some (Ast Unknown (map ONode total_result), tail next))
          else if String.eqb x "+" then
            let* '(token_result, next) := take_until fuel rest ")" in
            let* _ := assert_head_close next in
            let* r := reduce (binary Add) token_result in
            Ok (Some (r, next))
          else if String.eqb x "-" then
            let* '(token_result, next) := take_until fuel rest ")" in
            let* _ := assert_head_close next in
            let token_result :=
              firstn 1 token_result
              ++ map (fun k => AstBare Negate k) (skipn 1 token_result) in
            let* r := reduce (binary Add) token_result in
            Ok (Some (r, next))
          else if String.eqb x "*" then
            let* '(token_result, next) := take_until fuel rest ")" in
            let* _ := assert_head_close next in
            let* r := reduce (binary Mult) token_result in
            Ok (Some (r, next))
          else if is_number x then
            Ok (Some (Ast NumberConstant [OStr x], rest))
          else
            Ok (Some (Ast String1 [OStr x], rest))
      end
  end
with take_until (fuel : nat) (next : list string) (until : string)
  : result (list AstNode * list string) :=
  match fuel with
  | O => Raise RecursionError
  | S fuel =>
      match next with
      | [] => Ok ([], next)
      | t :: _ =>
          if String.eqb t until then Ok ([], next)
          else
            let* answer := parser fuel next in
            let* '(res, next') := unpack answer in
            let* '(total_result, rest) := take_until fuel next' until in
            Ok (res :: total_result, rest)
      end
  end.

(** [parse_all]: the top-level driver. *)
Fixpoint parse_all (fuel : nat) (a : list string) : result (list AstNode) :=
  match fuel with
  | O => Raise RecursionError
  | S fuel =>
      match a with
      | [] => Ok []
      | _ =>
          let* answer := parser fuel a in
          let* '(node, next) := unpack answer in
          let* rest := parse_all fuel next in
          Ok (node :: rest)
      end
  end.

(** ** parser.py: desugarer *)

Definition decimal (n : nat) : string :=
  NilEmpty.string_of_uint (Nat.to_uint n).

(** [gen_random_name], with the module-level [name_counter] threaded. *)
Definition gen_random_name (name_counter : nat) : AstNode * nat :=
  let name_counter := S name_counter in
  (Ast String1 [OStr (String.append "Lambda-" (decimal name_counter))],
   name_counter).

(** [list(map(f, l))] for an [f] that threads a state and may raise. *)
Section map_state.
Context {A B S : Type} (f : A → S → result (B * S)).

Fixpoint map_state (l : list A) (s : S) : result (list B * S) :=
  match l with
  | [] => Ok ([], s)
  | x :: l =>
      let* '(y, s) := f x s in
      let* '(ys, s) := map_state l s in
      Ok (y :: ys, s)
  end.
End map_state.

(** [assert all((param.instr == Instruction.String1 for param in
    lambda_params))]; a [str] among the parameters has no [instr]. *)
Fixpoint assert_all_String1 (lambda_params : list Operand) : result unit :=
  match lambda_params with
  | [] => Ok tt
  | OStr _ :: _ => Raise AttributeError
  | ONode param :: rest =>
      if Instruction_eqb (instr_of param) String1
      then assert_all_String1 rest
      else Raise (AssertionError "")
  end.

(** [flatten_tree]. The function mutates [node] and returns it; on the
    trees the parser builds no node is shared, so the returned value
    describes the mutated tree. In the two declaration cases the closing
    statement [node.operands = list(map(flatten_tree, node.operands))] runs
    over the operands just built: the name node is returned as it is
    (first case), the [LambdaParams] node matches no case and has its own
    operands mapped, and the body is flattened.

    A [str] operand reaches [node.operands] in the closing statement and
    raises [AttributeError]; a bare operand is not iterable ([TypeError]). *)
Fixpoint flatten_tree (node : AstNode) (name_counter : nat) {struct node}
  : result (AstNode * nat) :=
  let flatten_operand := fun (k : Operand) (c : nat) =>
    match k with
    | OStr _ => Raise AttributeError
    | ONode n => let* '(n', c') := flatten_tree n c in Ok (ONode n', c')
    end in
  let map_operands := fun (i : Instruction) (operands : list Operand) c =>
    let* '(operands', c') := map_state flatten_operand operands c in
    Ok (Ast i operands', c') in
  let declaration := fun (fn_name : AstNode) lambda_params fn_body c =>
    let* '(params', c) := map_state flatten_operand lambda_params c in
    let* '(body', c) := flatten_operand fn_body c in
    Ok (Ast Defun [ONode fn_name; ONode (Ast LambdaParams params'); body'],
        c) in
  match node with
  | Ast NumberConstant _ | AstBare NumberConstant _
  | Ast String1 _ | AstBare String1 _ => Ok (node, name_counter)
  | Ast Unknown [ONode curry_type_node] =>
      flatten_tree curry_type_node name_counter
  | Ast Unknown operands =>
      match operands with
      | [ONode (Ast String1 [OStr kw]); ONode (Ast Unknown lambda_params);
         fn_body] =>
          if String.eqb kw "lambda" then
            let* _ := assert_all_String1 lambda_params in
            let '(fn_name, c) := gen_random_name name_counter in
            declaration fn_name lambda_params fn_body c
          else map_operands Unknown operands name_counter
      | [ONode (Ast String1 [OStr kw]); ONode (Ast String1 [name]);
         ONode (Ast Unknown lambda_params); fn_body] =>
          if String.eqb kw "defun" then
            declaration (Ast String1 [name]) lambda_params fn_body
              name_counter
          else map_operands Unknown operands name_counter
      | _ => map_operands Unknown operands name_counter
      end
  | Ast i operands => map_operands i operands name_counter
  | AstBare _ _ => Raise TypeError
  end.

(** Iteration helpers for loops and comprehensions that may raise. *)
Section loops.
Context {A S : Type}.

(** [for x in l: s = f(x, s)] *)
Fixpoint iter_state (f : A → S → result S) (l : list A) (s : S)
  : result S :=
  match l with
  | [] => Ok s
  | x :: l => let* s := f x s in iter_state f l s
  end.

(** [[f(x) for x in l]] *)
Fixpoint map_result (f : A → result S) (l : list A) : result (list S) :=
  match l with
  | [] => Ok []
  | x :: l =>
      let* y := f x in
      let* ys := map_result f l in
      Ok (y :: ys)
  end.

(** [all(f(x) for x in l)]: stops at the first [False]. *)
Fixpoint all_result (f : A → result bool) (l : list A) : result bool :=
  match l with
  | [] => Ok true
  | x :: l => let* b := f x in if b then all_result f l else Ok false
  end.
End loops.

(** ** type.py: the [Type] object

    A [Type] object is a cell of the store; its address is its identity.
    The field [type] holds a [str] or a list whose elements are [Type]
    objects, or [None] where [type_annotator] returned nothing. List
    objects are never mutated, only replaced or shared by assignment of the
    field, so a list is kept as the sequence of its elements. *)

Abbreviation addr := nat (only parsing).

Inductive pyref : Type :=
| PyNone
| PyType (a : addr).

Inductive TypeCell : Type :=
| TStr (s : string)
| TList (types : list pyref).

Abbreviation store := (list TypeCell) (only parsing).

Definition deref (h : store) (a : addr) : result TypeCell :=
  match h !! a with
  | Some c => Ok c
  | None => Raise NoObject
  end.

Definition alloc (h : store) (c : TypeCell) : addr * store :=
  (List.length h, h ++ [c]).

(** [Type(s)] for a [str], and [Type([p1, ..., pn])] for elements that are
    already objects. *)
Definition Type_str (h : store) (s : string) : addr * store :=
  alloc h (TStr s).

Definition Type_list (h : store) (params : list pyref) : addr * store :=
  alloc h (TList params).

(** [Type(p1, ..., pn)] and [Type([p1, ..., pn])] in general:
    [Type(p) if isinstance(p, str) else p] for every element. *)
Fixpoint Type_elements (h : store) (params : list (string + pyref))
  : list pyref * store :=
  match params with
  | [] => ([], h)
  | inl s :: params =>
      let '(a, h) := Type_str h s in
      let '(rest, h) := Type_elements h params in
      (PyType a :: rest, h)
  | inr r :: params =>
      let '(rest, h) := Type_elements h params in
      (r :: rest, h)
  end.

Definition Type_params (h : store) (params : list (string + pyref))
  : addr * store :=
  let '(elements, h) := Type_elements h params in
  Type_list h elements.

Definition is_base_name (s : string) : bool :=
  String.eqb s "float" || String.eqb s "int" || String.eqb s "void".

(** [Type.is_base_type] *)
Fixpoint is_base_type (fuel : nat) (h : store) (a : addr) : result bool :=
  match fuel with
  | O => Raise RecursionError
  | S fuel =>
      let* c := deref h a in
      match c with
      | TStr s => Ok (is_base_name s)
      | TList t =>
          all_result
            (fun u => match u with
                      | PyNone => Ok true   (* filtered by isinstance *)
                      | PyType u => is_base_type fuel h u
                      end) t
      end
  end.

(** The dataclass [__eq__] of [Type]. List comparison checks the lengths,
    then compares element by element, by identity first and by [==]
    otherwise, and stops at the first difference. *)
Fixpoint Type_eq (fuel : nat) (h : store) (a b : addr) : result bool :=
  match fuel with
  | O => Raise RecursionError
  | S fuel =>
      let* ca := deref h a in
      let* cb := deref h b in
      match ca, cb with
      | TStr s, TStr s' => Ok (String.eqb s s')
      | TList l, TList l' =>
          if negb (Nat.eqb (List.length l) (List.length l')) then Ok false
          else
            all_result
              (fun p => match p with
                        | (PyNone, PyNone) => Ok true
                        | (PyType x, PyType y) =>
                            if Nat.eqb x y then Ok true
                            else Type_eq fuel h x y
                        | _ => Ok false
                        end) (zip l l')
      | _, _ => Ok false
      end
  end.

(** [x is y or x == y], as the dictionary probes its keys. *)
Definition same_key (fuel : nat) (h : store) (stored k : addr)
  : result bool :=
  if Nat.eqb stored k then Ok true else Type_eq fuel h stored k.

(** [copy.deepcopy] with its memo: the copy of an object is registered
    before its content is copied, so sharing and cycles are preserved. *)
Abbreviation memo := (list (nat * nat)) (only parsing).

Fixpoint memo_find (m : memo) (a : addr) : option addr :=
  match m with
  | [] => None
  | (x, y) :: m => if Nat.eqb x a then Some y else memo_find m a
  end.

(** One element of a list under copy; [None] is copied as itself. *)
Definition copy_element
    (copy : nat → list TypeCell * list (nat * nat)
            → result (nat * (list TypeCell * list (nat * nat))))
    (u : pyref) (st : store * memo) : result (pyref * (store * memo)) :=
  match u with
  | PyNone => Ok (PyNone, st)
  | PyType u => let* '(u', st) := copy u st in Ok (PyType u', st)
  end.

Fixpoint deepcopy (fuel : nat) (a : addr) (st : store * memo)
  : result (addr * (store * memo)) :=
  match fuel with
  | O => Raise RecursionError
  | S fuel =>
      let '(h, m) := st in
      match memo_find m a with
      | Some a' => Ok (a', st)
      | None =>
          let* c := deref h a in
          let '(a', h) := alloc h c in
          let m := (a, a') :: m in
          match c with
          | TStr _ => Ok (a', (h, m))
          | TList types =>
              let* '(types', (h, m)) :=
                map_state (copy_element (deepcopy fuel)) types (h, m) in
              Ok (a', (<[a' := TList types']> h, m))
          end
      end
  end.

(** [Type.clone] *)
Definition clone (fuel : nat) (h : store) (a : addr) : result (addr * store) :=
  let* '(a', (h, _)) := deepcopy fuel a (h, []) in
  Ok (a', h).

(** [Type.set]: the field is assigned, so a list is shared afterwards. *)
Definition Type_set (h : store) (self other : addr) : result store :=
  let* c := deref h other in
  let* _ := deref h self in
  Ok (<[self := c]> h).

(** ** Dictionaries keyed by [Type]

    [Type.__hash__] is the constant [1]: every key lands in the same probe
    sequence, which visits the entries in insertion order, and a lookup
    stops at the first stored key that is the probe itself or equal to
    it. A [dict] is the list of its entries in insertion order. [None]
    hashes elsewhere and equals no [Type]. *)

Abbreviation dict := (list (nat * nat)) (only parsing).

Fixpoint dict_find (fuel : nat) (h : store) (d : dict) (k : addr)
  : result (option (nat * addr)) :=
  match d with
  | [] => Ok None
  | (stored, v) :: d =>
      let* b := same_key fuel h stored k in
      if b then Ok (Some (O, v))
      else
        let* r := dict_find fuel h d k in
        Ok (match r with
            | Some (i, v) => Some (S i, v)
            | None => None
            end)
  end.

(** [k in d] *)
Definition dict_contains (fuel : nat) (h : store) (d : dict) (k : pyref)
  : result bool :=
  match k with
  | PyNone => Ok false
  | PyType k => let* r := dict_find fuel h d k in Ok (bool_decide (is_Some r))
  end.

(** [d[k]] *)
Definition dict_get (fuel : nat) (h : store) (d : dict) (k : pyref)
  : result addr :=
  match k with
  | PyNone => Raise (KeyError KNone)
  | PyType k =>
      let* r := dict_find fuel h d k in
      match r with
      | Some (_, v) => Ok v
      | None => Raise (KeyError (KObject k))
      end
  end.

(** [d[k] = v]: an equal key already stored keeps its place and its key
    object, and only the value is replaced. *)
Definition dict_set (fuel : nat) (h : store) (d : dict) (k v : addr)
  : result dict :=
  let* r := dict_find fuel h d k in
  match r with
  | Some (i, _) =>
      Ok (match d !! i with
          | Some (stored, _) => <[i := (stored, v)]> d
          | None => d
          end)
  | None => Ok (d ++ [(k, v)])
  end.

(** [TypeConstraint] *)
Record TypeConstraint : Type := mkTypeConstraint {
  lhs : pyref;
  rhs : pyref
}.

(** ** type_inference.py: constraint generation *)

(** [str.isnumeric] on one character, for code points below 256: the
    digits of [isdigit] and the vulgar fractions U+00BC to U+00BE. *)
Definition isnumeric_char (c : ascii) : bool :=
  let n := nat_of_ascii c in
  isdigit c || Nat.eqb n 188 || Nat.eqb n 189 || Nat.eqb n 190.

(** [str.isnumeric]: false on the empty string. *)
Definition isnumeric (x : string) : bool :=
  negb (String.eqb x "") && string_forall isnumeric_char x.

(** [get_unknown_type_var]; [None] and the empty string are both falsy
    and take the next number of the module-level [type_var_counter]. *)
Definition get_unknown_type_var (var_name : option string)
    (type_var_counter : nat) : string * nat :=
  match var_name with
  | Some (String c s) =>
      (String.append "Unknown-" (String c s), type_var_counter)
  | _ =>
      (String.append "Unknown-" (decimal (type_var_counter + 1)),
       type_var_counter + 1)
  end.

(** What [type_annotator] reads and writes besides its arguments: the
    store of [Type] objects, the counter, and the [constraints] list it
    appends to. *)
Record InferState : Type := mkInferState {
  types : store;
  type_var_counter : nat;
  constraints : list TypeConstraint
}.

Definition new_Type_str (s : string) (st : InferState) : addr * InferState :=
  let '(a, h) := Type_str (types st) s in
  (a, mkInferState h (type_var_counter st) (constraints st)).

Definition new_Type_list (params : list pyref) (st : InferState)
  : addr * InferState :=
  let '(a, h) := Type_list (types st) params in
  (a, mkInferState h (type_var_counter st) (constraints st)).

(** [Type(get_unknown_type_var(var_name))] *)
Definition new_unknown (var_name : option string) (st : InferState)
  : addr * InferState :=
  let '(s, n) := get_unknown_type_var var_name (type_var_counter st) in
  new_Type_str s (mkInferState (types st) n (constraints st)).

Definition append_constraint (c : TypeConstraint) (st : InferState)
  : InferState :=
  mkInferState (types st) (type_var_counter st) (constraints st ++ [c]).

(** [type_annotator]. The argument is a node or, for a parameter name, a
    [str]. When no case matches the function returns [None]. *)
Fixpoint type_annotator (fn : Operand) (st : InferState) {struct fn}
  : result (pyref * InferState) :=
  match fn with
  | ONode (Ast NumberConstant [ONode _]) => Raise AttributeError
  | ONode (Ast NumberConstant [OStr x]) =>
      if isnumeric x then
        let '(a, st) := new_Type_str "int" st in Ok (PyType a, st)
      else if is_number x then
        let '(a, st) := new_Type_str "float" st in Ok (PyType a, st)
      else Ok (PyNone, st)
  | ONode (Ast String1 [OStr var_name]) | OStr var_name =>
      let '(a, st) := new_unknown (Some var_name) st in Ok (PyType a, st)
  | ONode (Ast Add [lhs; rhs]) | ONode (Ast Mult [lhs; rhs]) =>
      let* '(lhs_type, st) := type_annotator lhs st in
      let* '(rhs_type, st) := type_annotator rhs st in
      let '(result_type, st) := new_unknown None st in
      let '(param_types, st) :=
        new_Type_list [lhs_type; rhs_type; PyType result_type] st in
      let '(operator, st) := new_Type_str "Operator+" st in
      Ok (PyType result_type,
          append_constraint
            (mkTypeConstraint (PyType operator) (PyType param_types)) st)
  | ONode (Ast Negate [val]) =>
      let* '(val_type, st) := type_annotator val st in
      let '(int_type, st) := new_Type_str "int" st in
      Ok (val_type,
          append_constraint (mkTypeConstraint val_type (PyType int_type)) st)
  | ONode (Ast Unknown
             (ONode (Ast String1 [OStr fn_name]) :: params_list)) =>
      let '(return_type, st) := new_unknown None st in
      let '(fn_name_type, st) := new_Type_str fn_name st in
      let* '(params_type, st) := map_state type_annotator params_list st in
      let '(params_type, st) :=
        new_Type_list (params_type ++ [PyType return_type]) st in
      Ok (PyType return_type,
          append_constraint
            (mkTypeConstraint (PyType fn_name_type) (PyType params_type)) st)
  | ONode (Ast Unknown operands) =>
      let* '(operands_type, st) := map_state type_annotator operands st in
      match last operands_type with
      | Some t => Ok (t, st)
      | None => Raise IndexError
      end
  | _ => Ok (PyNone, st)
  end.

(** ** type_inference.py: the unifier *)

(** The second case of [unify_vars], in which at least one side is
    atomic; [unify] stands for the recursive calls. The dictionary is
    mutated in place and returned; the store grows by the clones that are
    inserted. In [solutions[k.clone()] = v.clone()] the value is evaluated
    first. *)
Definition unify_atomic
    (unify : pyref → pyref → list TypeCell * list (nat * nat)
             → result (list TypeCell * list (nat * nat)))
    (fuel : nat) (a b : addr) (st : store * dict) : result (store * dict) :=
  let '(h, solutions) := st in
  let insert := fun (k v : addr) =>
    let* '(v', h) := clone fuel h v in
    let* '(k', h) := clone fuel h k in
    let* solutions := dict_set fuel h solutions k' v' in
    Ok (h, solutions) in
  let* eq := Type_eq fuel h a b in
  if eq then Ok st
  else
    let* in1 := dict_contains fuel h solutions (PyType a) in
    if in1 then
      let* v := dict_get fuel h solutions (PyType a) in
      unify (PyType v) (PyType b) st
    else
      let* in2 := dict_contains fuel h solutions (PyType b) in
      if in2 then
        let* v := dict_get fuel h solutions (PyType b) in
        unify (PyType a) (PyType v) st
      else
        let* base1 := is_base_type fuel h a in
        let* base2 := is_base_type fuel h b in
        match base1, base2 with
        | true, true =>
            let* eq := Type_eq fuel h a b in
            if eq then Ok st
            else Raise (AssertionError "Primitive types don't match")
        | true, false => insert b a
        | false, true => insert a b
        | false, false => insert a b
        end.

(** [unify_vars]: two lists are unified element by element along the
    shorter one; any other pair of [Type]s goes to the second case; a
    [None] on either side is "Invalid types". *)
Fixpoint unify_vars (fuel : nat) (one two : pyref) (st : store * dict)
  : result (store * dict) :=
  match fuel with
  | O => Raise RecursionError
  | S fuel =>
      match one, two with
      | PyType a, PyType b =>
          let* ca := deref (fst st) a in
          let* cb := deref (fst st) b in
          match ca, cb with
          | TList t1, TList t2 =>
              iter_state (fun p st => unify_vars fuel (fst p) (snd p) st)
                (zip t1 t2) st
          | _, _ => unify_atomic (unify_vars fuel) fuel a b st
          end
      | _, _ => Raise (RuntimeError "Invalid types")
      end
  end.

(** [convert_type]: the comprehension visits every element before [any]
    looks at the answers. *)
Fixpoint convert_type (fuel : nat) (base_t : addr) (t : pyref)
    (converter : addr → store → result (bool * store)) (h : store)
  : result (bool * store) :=
  match fuel with
  | O => Raise RecursionError
  | S fuel =>
      match t with
      | PyNone => Raise AttributeError
      | PyType t =>
          let* eq := Type_eq fuel h t base_t in
          if eq then Ok (false, h)
          else
            let* c := deref h t in
            match c with
            | TStr _ => converter t h
            | TList types =>
                let* '(answers, h) :=
                  map_state
                    (fun T1 h => convert_type fuel base_t T1 converter h)
                    types h in
                Ok (existsb id answers, h)
            end
      end
  end.

(** The closure [demote_constraint] of [simplify_unification]. *)
Definition demote_constraint (fuel : nat) (unified : dict) (t : addr)
    (h : store) : result (bool * store) :=
  let* present := dict_contains fuel h unified (PyType t) in
  if present then
    let* v := dict_get fuel h unified (PyType t) in
    let* eq := Type_eq fuel h t v in
    if eq then Ok (false, h)
    else
      let* v := dict_get fuel h unified (PyType t) in
      let* h := Type_set h t v in
      Ok (true, h)
  else Ok (false, h).

(** One pass of [for u in unified]. *)
Definition simplify_pass (fuel : nat) (unified : dict) (h : store)
  : result store :=
  iter_state
    (fun entry h =>
       let u := fst entry in
       let* v := dict_get fuel h unified (PyType u) in
       let* base := is_base_type fuel h v in
       if base then Ok h
       else
         let* v := dict_get fuel h unified (PyType u) in
         let* '(_, h) :=
           convert_type fuel u (PyType v) (demote_constraint fuel unified) h in
         Ok h)
    unified h.

(** [for _ in range(0, 10)] *)
Fixpoint repeat_pass (rounds : nat) (pass : store → result store)
    (h : store) : result store :=
  match rounds with
  | O => Ok h
  | S rounds => let* h := pass h in repeat_pass rounds pass h
  end.

Definition simplify_unification (fuel : nat) (unified : dict) (h : store)
  : result store :=
  repeat_pass 10 (simplify_pass fuel unified) h.

(** [unify_constraints] *)
Definition unify_constraints (fuel : nat) (constraints : list TypeConstraint)
    (h : store) : result (store * dict) :=
  let* '(h, solutions) :=
    iter_state (fun c st => unify_vars fuel (lhs c) (rhs c) st)
      constraints (h, []) in
  let* h := simplify_unification fuel solutions h in
  Ok (h, solutions).

(** ** function_stub.py *)

Record FunctionStub : Type := mkFunctionStub {
  node : AstNode;
  name : string;
  params_list : list string;
  body : AstNode;
  intermediate_types : dict;
  my_type : pyref
}.

(** [fn_type_annotator] *)
Definition fn_type_annotator (fn : FunctionStub) (st : InferState)
  : result (addr * InferState) :=
  let '(my_type, st) := new_Type_str (name fn) st in
  let* '(params_type, st) :=
    map_state type_annotator (map OStr (params_list fn)) st in
  let* '(function_body_type, st) := type_annotator (ONode (body fn)) st in
  let '(params_type, st) :=
    new_Type_list (params_type ++ [function_body_type]) st in
  Ok (my_type,
      append_constraint
        (mkTypeConstraint (PyType my_type) (PyType params_type)) st).

(** [FunctionStub.annotate_type]: the stub is updated in place; the store
    and the module-level counter are given and returned. *)
Definition annotate_type (fuel : nat) (self : FunctionStub) (h : store)
    (counter : nat) : result (FunctionStub * store * nat) :=
  let* '(my_type, st) :=
    fn_type_annotator self (mkInferState h counter []) in
  let* '(h, solutions) := unify_constraints fuel (constraints st) (types st) in
  Ok (mkFunctionStub (node self) (name self) (params_list self) (body self)
        solutions (PyType my_type),
      h, type_var_counter st).

(** [copy.deepcopy] of a dictionary: one memo for all entries; in
    [y[deepcopy(key)] = deepcopy(value)] the value is copied first. *)
Definition deepcopy_dict (fuel : nat) (d : dict) (h : store)
  : result (dict * store) :=
  let* '(y, (h, _)) :=
    iter_state
      (fun (entry : addr * addr) (acc : dict * (store * memo)) =>
         let '(y, st) := acc in
         let* '(v', st) := deepcopy fuel (snd entry) st in
         let* '(k', st) := deepcopy fuel (fst entry) st in
         let* y := dict_set fuel (fst st) y k' v' in
         Ok (y, st))
      d ([], (h, [])) in
  Ok (y, h).

(** [len(t.type)]: the field is a list or a [str]. *)
Definition len_type (c : TypeCell) : nat :=
  match c with
  | TStr s => String.length s
  | TList l => List.length l
  end.

(** The statements of [apply_with_type] up to [simplify_unification]: the
    arity assertion, the unification into a deep copy of the stub's
    dictionary, and the simplification. The answer is the dictionary
    [solution] and the store it lives in. *)
Definition apply_solution (fuel : nat) (self : FunctionStub) (args : addr)
    (h : store) : result (store * dict) :=
  let* c := deref h args in
  match c with
  | TList types =>
      let* mine := dict_get fuel h (intermediate_types self) (my_type self) in
      let* cm := deref h mine in
      if Nat.eqb (List.length types) (len_type cm) then
        let* '(solution, h) :=
          deepcopy_dict fuel (intermediate_types self) h in
        let* '(h, solution) :=
          unify_vars fuel (my_type self) (PyType args) (h, solution) in
        let* h := simplify_unification fuel solution h in
        Ok (h, solution)
      else Raise (AssertionError "")
  | TStr _ => Raise (RuntimeError "Compile failed")
  end.

(** [all((solution[t].is_base_type() for t in solution))] *)
Definition all_base (fuel : nat) (h : store) (solution : dict) : result bool :=
  all_result
    (fun entry : addr * addr =>
       let* v := dict_get fuel h solution (PyType (fst entry)) in
       is_base_type fuel h v)
    solution.

(** [FunctionStub.apply_with_type]: the returned [Type] object, with the
    store that holds it. *)
Definition apply_with_type (fuel : nat) (self : FunctionStub) (args : addr)
    (h : store) : result (addr * store) :=
  let* '(h, solution) := apply_solution fuel self args h in
  let* resolved := all_base fuel h solution in
  if resolved then
    let* r := dict_get fuel h solution (my_type self) in
    Ok (r, h)
  else Raise (AssertionError "Type must be fully resolved at this point").

(** The structure of a [Type] object, as [repr] would show it; used to
    state what a store holds at an address. *)
Inductive TypeShape : Type :=
| SNone
| SStr (s : string)
| SList (l : list TypeShape).

Fixpoint shape (fuel : nat) (h : store) (r : pyref) : option TypeShape :=
  match fuel with
  | O => None
  | S fuel =>
      match r with
      | PyNone => Some SNone
      | PyType a =>
          match h !! a with
          | None => None
          | Some (TStr s) => Some (SStr s)
          | Some (TList l) =>
              option_map SList
                ((fix shapes (l : list pyref) : option (list TypeShape) :=
                    match l with
                    | [] => Some []
                    | r :: l =>
                        match shape fuel h r, shapes l with
                        | Some x, Some xs => Some (x :: xs)
                        | _, _ => None
                        end
                    end) l)
          end
      end
  end.

(** ** astnode.py: the typed tree

    [FunctionApplication.fn] is a reference to a [TypedFnDef] object. The
    definitions are the elements of the list handed to
    [resolve_all_function_calls], mutated in place and returned, so a
    reference is the position of the definition in that list. Lowering
    never puts a definition inside a body; [BaseAst] is the type of
    bodies. *)

Module VariableDef.
Record t : Type := mk {
  name : string;
  type : addr
}.
End VariableDef.

Inductive BaseAst : Type :=
| ProgN (programs : list BaseAst)
| VariableLoad (variable : VariableDef.t)
| UnresolvedVariableLoad (variable : Operand)
| ConstantLoad (type : addr) (constant : Operand)
| FunctionApplication (fn : nat) (params : list BaseAst)
| UnresolvedFnApp (fn : string) (params : list BaseAst).

Module TypedFnDef.
Record t : Type := mk {
  name : string;
  params : list VariableDef.t;
  body : BaseAst;
  return_type : addr
}.
End TypedFnDef.

(** Induction over bodies, with the arguments of calls and the elements of
    sequences as induction hypotheses. *)
Section BaseAst_induction.
Variable P : BaseAst → Prop.
Hypothesis HProgN : ∀ programs, Forall P programs → P (ProgN programs).
Hypothesis HVariableLoad : ∀ v, P (VariableLoad v).
Hypothesis HUnresolvedVariableLoad : ∀ v, P (UnresolvedVariableLoad v).
Hypothesis HConstantLoad : ∀ t c, P (ConstantLoad t c).
Hypothesis HFunctionApplication :
  ∀ fn params, Forall P params → P (FunctionApplication fn params).
Hypothesis HUnresolvedFnApp :
  ∀ fn params, Forall P params → P (UnresolvedFnApp fn params).

Fixpoint BaseAst_nested_ind (a : BaseAst) : P a :=
  let all :=
    fix all (l : list BaseAst) : Forall P l :=
      match l with
      | [] => List.Forall_nil P
      | x :: l => @List.Forall_cons _ P x l (BaseAst_nested_ind x) (all l)
      end in
  match a with
  | ProgN programs => HProgN programs (all programs)
  | VariableLoad v => HVariableLoad v
  | UnresolvedVariableLoad v => HUnresolvedVariableLoad v
  | ConstantLoad t c => HConstantLoad t c
  | FunctionApplication fn params =>
      HFunctionApplication fn params (all params)
  | UnresolvedFnApp fn params => HUnresolvedFnApp fn params (all params)
  end.
End BaseAst_induction.

(** ** compiler.py: lowering *)

(** [n.operands[0]] *)
Definition first_operand (n : AstNode) : result Operand :=
  match n with
  | Ast _ (o :: _) => Ok o
  | Ast _ [] => Raise IndexError
  | AstBare _ _ => Raise TypeError
  end.

(** [iter_node] of [convert_to_baseast]. A [str] where a node is expected
    has no [instr] ([AttributeError]); unpacking a list of the wrong length
    is [ValueError]. *)
Fixpoint iter_node (n : AstNode) (h : store) {struct n}
  : result (BaseAst * store) :=
  let iter_operand := fun (o : Operand) (h : store) =>
    match o with
    | OStr _ => Raise AttributeError
    | ONode k => iter_node k h
    end in
  match n with
  | Ast String1 _ | AstBare String1 _ =>
      let* o := first_operand n in
      Ok (UnresolvedVariableLoad o, h)
  | Ast NumberConstant _ | AstBare NumberConstant _ =>
      let '(int_type, h) := Type_str h "int" in
      let* o := first_operand n in
      Ok (ConstantLoad int_type o, h)
  | Ast ((Add | Mult) as operation) operands =>
      match operands with
      | [lhs; rhs] =>
          let name :=
            match operation with
            | Add => "Operator+"
            | _ => "Operator*"
            end in
          let* '(lhs, h) := iter_operand lhs h in
          let* '(rhs, h) := iter_operand rhs h in
          Ok (UnresolvedFnApp name [lhs; rhs], h)
      | _ => Raise ValueError
      end
  | AstBare (Add | Mult) _ => Raise TypeError
  | Ast Unknown [] => Raise IndexError
  | Ast Unknown (OStr _ :: _) => Raise AttributeError
  | Ast Unknown (ONode head :: args) =>
      if Instruction_eqb (instr_of head) String1 then
        match head with
        | Ast _ [OStr name] =>
            let* '(args, h) := map_state iter_operand args h in
            Ok (UnresolvedFnApp name args, h)
        | Ast _ [ONode _] => Raise (AssertionError "")
        | Ast _ _ => Raise ValueError
        | AstBare _ _ => Raise TypeError
        end
      else
        let* groups :=
          all_result
            (fun k => match k with
                      | OStr _ => Raise AttributeError
                      | ONode k => Ok (Instruction_eqb (instr_of k) Unknown)
                      end) (ONode head :: args) in
        if groups then
          let* '(programs, h) :=
            map_state iter_operand (ONode head :: args) h in
          Ok (ProgN programs, h)
        else Raise (RuntimeError "")
  | AstBare Unknown _ => Raise TypeError
  | _ => Raise (RuntimeError "")
  end.

(** [type_lookup] for a parameter name, which goes through
    [type_annotator(s, [])] and so may touch the module-level counter, and
    for a [Type]. *)
Definition type_lookup_name (fuel : nat) (d : dict) (k : string)
    (st : store * nat) : result (addr * (store * nat)) :=
  let* '(type_string, st) :=
    type_annotator (OStr k) (mkInferState (fst st) (snd st) []) in
  let* v := dict_get fuel (types st) d type_string in
  Ok (v, (types st, type_var_counter st)).

Definition type_lookup_type (fuel : nat) (d : dict) (k : pyref) (h : store)
  : result addr :=
  match k with
  | PyNone => Raise (RuntimeError "")
  | PyType _ => dict_get fuel h d k
  end.

(** [convert_to_baseast]; the state is the store and the counter. *)
Definition convert_to_baseast (fuel : nat) (a : FunctionStub)
    (type_solutions : dict) (st : store * nat)
  : result (TypedFnDef.t * (store * nat)) :=
  let* '(params, (h, counter)) :=
    map_state
      (fun p st =>
         let* '(p_type, st) := type_lookup_name fuel type_solutions p st in
         Ok (VariableDef.mk p p_type, st))
      (params_list a) st in
  let* '(body, h) := iter_node (body a) h in
  let* return_type := type_lookup_type fuel type_solutions (my_type a) h in
  Ok (TypedFnDef.mk (name a) params body return_type, (h, counter)).

(** ** compiler.py: call resolution *)

(** [{x.name: x for x in functions}]: a later definition of a name
    replaces an earlier one. *)
Definition function_name_map (functions : list TypedFnDef.t)
  : gmap string nat :=
  foldl (fun m ix => <[TypedFnDef.name (snd ix) := fst ix]> m) ∅
    (imap pair functions).

(** The expression cases of [recursive_resolver]. *)
Fixpoint recursive_resolver (names : gmap string nat) (a : BaseAst)
  : result BaseAst :=
  match a with
  | UnresolvedFnApp fn params =>
      let* resolved_params := map_result (recursive_resolver names) params in
      match names !! fn with
      | Some def => Ok (FunctionApplication def resolved_params)
      | None => Raise (KeyError (KName fn))
      end
  | ProgN programs =>
      let* programs := map_result (recursive_resolver names) programs in
      Ok (ProgN programs)
  | _ => Ok a
  end.

(** The [TypedFnDef] case of [recursive_resolver]: the body is replaced in
    place. *)
Definition resolve_definition (names : gmap string nat) (a : TypedFnDef.t)
  : result TypedFnDef.t :=
  let* body := recursive_resolver names (TypedFnDef.body a) in
  Ok (TypedFnDef.mk (TypedFnDef.name a) (TypedFnDef.params a) body
        (TypedFnDef.return_type a)).

(** [resolve_all_function_calls] *)
Definition resolve_all_function_calls (functions : list TypedFnDef.t)
  : result (list TypedFnDef.t) :=
  map_result (resolve_definition (function_name_map functions)) functions.

(** ** Vocabulary of the statements *)

(** A [Type] object whose structure is a finite tree of depth at most
    [n], every element of every list being a [Type]. *)
Fixpoint type_ok (n : nat) (h : store) (a : addr) : bool :=
  match n with
  | O => false
  | S n =>
      match h !! a with
      | None => false
      | Some (TStr _) => true
      | Some (TList l) =>
          forallb (fun r => match r with
                            | PyNone => false
                            | PyType x => type_ok n h x
                            end) l
      end
  end.

(** The object at [a] is an atomic base type. *)
Definition base_atom (h : store) (a : addr) : bool :=
  match h !! a with
  | Some (TStr s) => is_base_name s
  | _ => false
  end.

(** The keys of a substitution map are type variables: each key is an
    object of the store and none is an atomic base type. *)
Definition keys_are_variables (h : store) (d : dict) : bool :=
  forallb (fun entry : addr * addr =>
             bool_decide (is_Some (h !! fst entry))
             && negb (base_atom h (fst entry))) d.

(** The store [h'] has every object of [h], unchanged. *)
Definition extends (h h' : list TypeCell) : Prop :=
  ∀ i c, h !! i = Some c → h' !! i = Some c.

(** A body as lowering builds it: constant loads, unresolved variable
    loads, unresolved calls and sequences. *)
Fixpoint lowered (a : BaseAst) : bool :=
  match a with
  | ProgN programs => forallb lowered programs
  | UnresolvedFnApp _ params => forallb lowered params
  | UnresolvedVariableLoad _ | ConstantLoad _ _ => true
  | VariableLoad _ | FunctionApplication _ _ => false
  end.

(** The callee names of the unresolved calls of a body. *)
Fixpoint callees (a : BaseAst) : list string :=
  match a with
  | ProgN programs => flat_map callees programs
  | UnresolvedFnApp fn params => fn :: flat_map callees params
  | FunctionApplication _ params => flat_map callees params
  | _ => []
  end.

(** [resolved names a a']: [a'] is [a] with every unresolved call replaced
    by a direct call to the definition its name is mapped to, the
    arguments of calls and the elements of sequences being treated the
    same way. *)
Inductive resolved (names : gmap string nat) : BaseAst → BaseAst → Prop :=
| resolved_call fn def params params' :
    names !! fn = Some def →
    Forall2 (resolved names) params params' →
    resolved names (UnresolvedFnApp fn params)
      (FunctionApplication def params')
| resolved_sequence programs programs' :
    Forall2 (resolved names) programs programs' →
    resolved names (ProgN programs) (ProgN programs')
| resolved_variable v :
    resolved names (UnresolvedVariableLoad v) (UnresolvedVariableLoad v)
| resolved_constant t c :
    resolved names (ConstantLoad t c) (ConstantLoad t c).

(** The answer of the resolver on a lowered body: either the body with
    every unresolved call made direct, every callee being known, or the
    [KeyError] of an unknown callee of that body. *)
Definition resolver_answer (names : gmap string nat) (called : list string)
    {A} (r : result A) (good : A → Prop) : Prop :=
  match r with
  | Ok a' => good a' ∧ Forall (fun n => is_Some (names !! n)) called
  | Raise e => ∃ n, e = KeyError (KName n) ∧ n ∈ called ∧ names !! n = None
  end.

(** What a resolved definition keeps and what it changes. *)
Definition definition_resolved (names : gmap string nat)
    (f f' : TypedFnDef.t) : Prop :=
  TypedFnDef.name f' = TypedFnDef.name f
  ∧ TypedFnDef.params f' = TypedFnDef.params f
  ∧ TypedFnDef.return_type f' = TypedFnDef.return_type f
  ∧ resolved names (TypedFnDef.body f) (TypedFnDef.body f')
  ∧ callees (TypedFnDef.body f') = [].

(** ** Sample inputs *)

Definition literal (x : string) : AstNode := Ast NumberConstant [OStr x].
Definition negate (k : AstNode) : AstNode := AstBare Negate k.

(** [(defun f (x) x)] as [separate_defuns] extracts it. *)
Definition identity_stub : FunctionStub :=
  mkFunctionStub
    (Ast Defun [ONode (Ast String1 [OStr "f"]);
                ONode (Ast LambdaParams [ONode (Ast String1 [OStr "x"])]);
                ONode (Ast String1 [OStr "x"])])
    "f" ["x"] (Ast String1 [OStr "x"]) [] PyNone.

(** The stub after [annotate_type], and the store after the invocation
    types [Type(["int", "int"])] and [Type(["int"])] have been built, at
    the addresses 10 and 12. *)
Definition identity_annotated : FunctionStub :=
  mkFunctionStub (node identity_stub) "f" ["x"] (Ast String1 [OStr "x"])
    [(7, 4)] (PyType 0).

Definition identity_store : list TypeCell :=
  [TStr "f"; TStr "Unknown-x"; TStr "Unknown-x";
   TList [PyType 1; PyType 2]; TList [PyType 5; PyType 6];
   TStr "Unknown-x"; TStr "Unknown-x"; TStr "f";
   TStr "int"; TStr "int"; TList [PyType 8; PyType 9];
   TStr "int"; TList [PyType 11]].

(** Lowered definitions in the manner of the sample program of
    [compiler.py]. *)
Definition sample_definitions : list TypedFnDef.t :=
  [TypedFnDef.mk "sqrt" [VariableDef.mk "x" 0]
     (UnresolvedFnApp "pow"
        [UnresolvedVariableLoad (OStr "x"); ConstantLoad 1 (OStr "0.5")]) 0;
   TypedFnDef.mk "pow" [VariableDef.mk "x" 0; VariableDef.mk "exp" 0]
     (UnresolvedVariableLoad (OStr "compiler-intrinsic")) 0;
   TypedFnDef.mk "main" []
     (ProgN [UnresolvedFnApp "sqrt" [ConstantLoad 1 (OStr "2.0")]]) 2].

(** The signature [(float, float, float)] of a two-argument primitive at
    address 3, a call with one argument [(Unknown-x, Unknown-1)] at
    address 6, and the first two slots of the signature as a tuple of
    their own at address 7. *)
Definition arity_store : list TypeCell :=
  [TStr "float"; TStr "float"; TStr "float";
   TList [PyType 0; PyType 1; PyType 2];
   TStr "Unknown-x"; TStr "Unknown-1";
   TList [PyType 4; PyType 5];
   TList [PyType 0; PyType 1]].

(** [int] at 0, [float] at 1, the tuple [(int, float)] at 2, a variable
    at 3 that the map sends to [int]. *)
Definition base_store : list TypeCell :=
  [TStr "int"; TStr "float"; TList [PyType 0; PyType 1]; TStr "Unknown-x"].

(** ** Vocabulary of the further properties *)

(** The characters at which the lexer cuts. *)
Definition delimiter (c : ascii) : bool :=
  Ascii.eqb c " " || Ascii.eqb c "(" || Ascii.eqb c ")".

(** A word: no delimiter in it. *)
Definition plain (w : string) : bool :=
  string_forall (fun c => negb (delimiter c)) w.

(** A token as the lexer produces them: a parenthesis on its own, or a
    word that is not empty. *)
Definition token_ok (t : string) : bool :=
  String.eqb t "(" || String.eqb t ")"
  || (negb (String.eqb t "") && plain t).

(** The ways in which the parser fails. *)
Definition parser_error (e : PyError) : Prop :=
  e = TypeError ∨ e = IndexError ∨ e = RecursionError.

(** A group with a node as its only child: the redundant nesting that
    the desugarer unwraps. *)
Definition single_child_group (n : AstNode) : bool :=
  match n with
  | Ast Unknown [ONode _] => true
  | _ => false
  end.

(** The inference state [st'] comes after [st]: every [Type] object of
    [st] is there unchanged, the constraints of [st] are the first
    constraints of [st'], and the counter has not gone back. *)
Definition grows (st st' : InferState) : Prop :=
  extends (types st) (types st')
  ∧ (∃ cs, constraints st' = constraints st ++ cs)
  ∧ type_var_counter st <= type_var_counter st'.

(** The state of the unifier [st'] comes after [st]: every [Type] object
    of [st] is there unchanged, and the keys of the map of [st] are the
    first keys of the map of [st'], in their order. *)
Definition advances (st st' : list TypeCell * list (nat * nat)) : Prop :=
  extends (fst st) (fst st')
  ∧ map fst (snd st) `prefix_of` map fst (snd st').

(** A token with a dot in it. *)
Definition has_dot (x : string) : bool :=
  existsb (fun c => Ascii.eqb c ".") (list_ascii_of_string x).

(** A reference that points into the store, or [None]. *)
Definition valid_ref (n : nat) (r : pyref) : Prop :=
  match r with
  | PyNone => True
  | PyType x => x < n
  end.

(** A store without dangling references: the elements of every list are
    objects of the store. *)
Definition closed (h : list TypeCell) : Prop :=
  ∀ i l, h !! i = Some (TList l) → Forall (valid_ref (List.length h)) l.

(** The structures of the elements of a list, given the structure of one
    element. *)
Fixpoint shape_list (f : pyref → option TypeShape) (l : list pyref)
  : option (list TypeShape) :=
  match l with
  | [] => Some []
  | r :: l =>
      match f r, shape_list f l with
      | Some x, Some xs => Some (x :: xs)
      | _, _ => None
      end
  end.

(** What a copy in progress has established: the store is closed and
    still holds the objects of the store [h0] the copy started from, and
    every object registered in the memo is an object of [h0] whose copy
    has its structure. *)
Definition copy_invariant (h0 h : list TypeCell) (m : list (nat * nat))
  : Prop :=
  closed h
  ∧ extends h0 h
  ∧ ∀ x y, memo_find m x = Some y →
           x < List.length h0
           ∧ y < List.length h
           ∧ ∀ d, shape d h (PyType y) = shape d h0 (PyType x).

(** [r'] is a copy of [r]: an object of the store [h] with the structure
    that [r] has in the store [h0]. *)
Definition copied (h0 h : list TypeCell) (r r' : pyref) : Prop :=
  valid_ref (List.length h) r'
  ∧ ∀ d, shape d h r' = shape d h0 r.

(** The correspondence [m] of objects and their copies sends the
    reference [r] to the reference [r']. *)
Definition renamed (m : list (nat * nat)) (r r' : pyref) : Prop :=
  match r, r' with
  | PyNone, PyNone => True
  | PyType x, PyType y => memo_find m x = Some y
  | _, _ => False
  end.

(** The content [c'] is the content [c] with every element replaced by
    its copy. *)
Definition cell_copied (m : list (nat * nat)) (c c' : TypeCell) : Prop :=
  match c, c' with
  | TStr s, TStr s' => s = s'
  | TList l, TList l' => Forall2 (renamed m) l l'
  | _, _ => False
  end.

(** The object [y] of [h'] is a finished copy of the object [x] of
    [h]. *)
Definition copy_done (h h' : list TypeCell) (m : list (nat * nat))
    (x y : nat) : Prop :=
  ∃ c c', h !! x = Some c ∧ h' !! y = Some c' ∧ cell_copied m c c'.

(** The correspondence [m] is an isomorphism between the objects of [h]
    it registers and their copies in [h']: every registered object has
    as copy a new object whose content is its own content with the
    elements replaced by their copies (so every element is registered
    too, and an object reached twice, or reached again from itself, has
    one copy), and different objects have different copies. *)
Definition isomorphic_copy (h h' : list TypeCell) (m : list (nat * nat))
  : Prop :=
  (∀ x y, memo_find m x = Some y →
          x < List.length h ∧ List.length h <= y ∧ copy_done h h' m x y)
  ∧ (∀ x1 x2 y,
       memo_find m x1 = Some y → memo_find m x2 = Some y → x1 = x2).

(** A copy in progress: as [isomorphic_copy], except that the copies of
    the objects [open] are still to be filled in. *)
Definition copying (h0 h : list TypeCell) (m : list (nat * nat))
    (open : list nat) : Prop :=
  extends h0 h
  ∧ (∀ x y, memo_find m x = Some y →
            x < List.length h0
            ∧ List.length h0 <= y
            ∧ y < List.length h
            ∧ (x ∈ open ∨ copy_done h0 h m x y))
  ∧ (∀ x1 x2 y,
       memo_find m x1 = Some y → memo_find m x2 = Some y → x1 = x2).

(** The memo [m'] registers what [m] registers. *)
Definition memo_grows (m m' : list (nat * nat)) : Prop :=
  ∀ x y, memo_find m x = Some y → memo_find m' x = Some y.

(** The number of objects below [n] that the memo does not register. *)
Fixpoint not_copied (m : list (nat * nat)) (n : nat) : nat :=
  match n with
  | O => O
  | S k =>
      (match memo_find m k with Some _ => 0 | None => 1 end)
      + not_copied m k
  end.

(** ** type_inference.py: merging two maps *)

(** The body of the first loop of [unify_type_dicts], for the key [o] of
    [one]: [ret_dict[o] = ret_dict[o]], then the unification of the two
    mapped types into [ret_dict] when [two] has the key, and
    [ret_dict[o] = one[o]] otherwise. *)
Definition merge_key_of_one (fuel : nat) (one two : dict) (o : addr)
    (st : store * dict) : result (store * dict) :=
  let '(h, ret_dict) := st in
  let* v := dict_get fuel h ret_dict (PyType o) in
  let* ret_dict := dict_set fuel h ret_dict o v in
  let* shared := dict_contains fuel h two (PyType o) in
  if shared then
    let* v1 := dict_get fuel h ret_dict (PyType o) in
    let* v2 := dict_get fuel h two (PyType o) in
    unify_vars fuel (PyType v1) (PyType v2) (h, ret_dict)
  else
    let* v := dict_get fuel h one (PyType o) in
    let* ret_dict := dict_set fuel h ret_dict o v in
    Ok (h, ret_dict).

(** The body of the second loop, for the key [o] of [two]. *)
Definition merge_key_of_two (fuel : nat) (one two : dict) (o : addr)
    (st : store * dict) : result (store * dict) :=
  let '(h, ret_dict) := st in
  let* known := dict_contains fuel h one (PyType o) in
  if known then Ok st
  else
    let* v := dict_get fuel h two (PyType o) in
    let* ret_dict := dict_set fuel h ret_dict o v in
    Ok (h, ret_dict).

(** [unify_type_dicts]. [copy.copy(one)] is a new dictionary with the
    same key and value objects; [one] and [two] themselves are not
    mutated. *)
Definition unify_type_dicts (fuel : nat) (one two : dict) (h : store)
  : result (store * dict) :=
  let* st :=
    iter_state (fun entry st => merge_key_of_one fuel one two (fst entry) st)
      one (h, one) in
  iter_state (fun entry st => merge_key_of_two fuel one two (fst entry) st)
    two st.

(** [a == b] for two dictionaries: the sizes, then for every entry of [a]
    the lookup of its key in [b] and the comparison of the two values, by
    identity first and by [==] otherwise. *)
Definition dict_eq (fuel : nat) (h : store) (a b : dict) : result bool :=
  if negb (Nat.eqb (List.length a) (List.length b)) then Ok false
  else
    all_result
      (fun entry : addr * addr =>
         let* found := dict_find fuel h b (fst entry) in
         match found with
         | None => Ok false
         | Some (_, bval) => same_key fuel h (snd entry) bval
         end)
      a.

(** [FunctionStub.unify_with_other] *)
Definition unify_with_other (fuel : nat) (self : FunctionStub) (other : dict)
    (h : store) : result (FunctionStub * store) :=
  let* same := dict_eq fuel h other (intermediate_types self) in
  if same then Ok (self, h)
  else
    let* '(h, merged) :=
      unify_type_dicts fuel (intermediate_types self) other h in
    Ok (mkFunctionStub (node self) (name self) (params_list self) (body self)
          merged (my_type self),
        h).

(** A reference to an object at address [n] or later, or [None]. *)
Definition above (n : nat) (r : pyref) : Prop :=
  match r with
  | PyNone => True
  | PyType x => n <= x
  end.

(** The lists of the objects from address [n] on hold only objects from
    [n] on, except at the addresses [open], whose copies are still being
    filled in. *)
Definition fresh_from (n : nat) (open : list nat) (h : list TypeCell)
  : Prop :=
  ∀ i l, n <= i → i ∉ open → h !! i = Some (TList l) → Forall (above n) l.

(** The memo of a copy registers only objects from address [n] on. *)
Definition memo_above (n : nat) (m : list (nat * nat)) : Prop :=
  ∀ x y, memo_find m x = Some y → n <= y.

(** A map works on objects of its own: its values are objects from
    address [n] on, and these refer to nothing older. *)
Definition private (n : nat) (st : list TypeCell * list (nat * nat))
  : Prop :=
  n <= List.length (fst st)
  ∧ fresh_from n [] (fst st)
  ∧ Forall (fun entry : nat * nat => n <= snd entry) (snd st).

(** What simplification keeps of a store [h0]: its objects are
    unchanged, and the later objects refer to none of them. *)
Definition kept (h0 h : list TypeCell) : Prop :=
  extends h0 h ∧ fresh_from (List.length h0) [] h.

(** ** compiler.py: separating the declarations *)

(** [convert_string_to_str]: every argument has to be a [String1] node
    with one [str] operand. *)
Definition convert_string_to_str (args : list Operand)
  : result (list string) :=
  map_result
    (fun a => match a with
              | ONode (Ast String1 [OStr s]) => Ok s
              | _ => Raise (RuntimeError "")
              end)
    args.

(** The arguments of the call [FunctionStub(node, name=name,
    params_list=params, body=fn_body)] in [separate_defuns]. The
    dataclass checks no field: the name and the body are the operands as
    they are found in the declaration. *)
Record StubFields : Type := mkStubFields {
  stub_node : AstNode;
  stub_name : Operand;
  stub_params : list string;
  stub_body : Operand
}.

(** The body of the loop [for j in node.operands] of [separate_defuns];
    [separate] stands for the recursive call. A node is always true, so
    [if new_node] asks whether it is not [None]. *)
Definition separate_operand
    (separate : AstNode → result (list StubFields * option AstNode))
    (j : Operand) (acc : list StubFields * list Operand)
  : result (list StubFields * list Operand) :=
  let '(functions, new_operands) := acc in
  match j with
  | ONode n =>
      let* '(functions_list, new_node) := separate n in
      Ok (functions ++ functions_list,
          match new_node with
          | Some n' => new_operands ++ [ONode n']
          | None => new_operands
          end)
  | OStr _ => Ok (functions, new_operands ++ [j])
  end.

(** The statements of [separate_defuns] after the [match]. *)
Definition separate_operands
    (separate : AstNode → result (list StubFields * option AstNode))
    (i : Instruction) (operands : list Operand)
  : result (list StubFields * option AstNode) :=
  let* '(functions, new_operands) :=
    iter_state (separate_operand separate) operands ([], []) in
  Ok (functions, Some (Ast i new_operands)).

(** [separate_defuns]. The function mutates [node] and returns it; the
    declarations it hands to the stubs are not touched. A bare operand
    is no sequence: it matches none of the sequence patterns, and under
    the wildcard of the fourth case the loop cannot iterate it. *)
Fixpoint separate_defuns (node : AstNode)
  : result (list StubFields * option AstNode) :=
  match node with
  | Ast i operands =>
      match i, operands with
      | (Mult | Add), [_; _] =>
          separate_operands separate_defuns i operands
      | (Negate | String1 | NumberConstant), [_] =>
          separate_operands separate_defuns i operands
      | Defun, [ONode (Ast String1 [name]);
                ONode (Ast LambdaParams params); fn_body] =>
          let* params := convert_string_to_str params in
          Ok ([mkStubFields node name params fn_body], None)
      | (LambdaParams | Unknown | Module), _ =>
          separate_operands separate_defuns i operands
      | _, _ => Raise (RuntimeError "Compile error at node ")
      end
  | AstBare (LambdaParams | Unknown | Module) _ => Raise TypeError
  | AstBare _ _ => Raise (RuntimeError "Compile error at node ")
  end.

(** A tree without declarations. *)
Fixpoint defun_free (n : AstNode) : bool :=
  match n with
  | Ast i operands =>
      negb (Instruction_eqb i Defun)
      && forallb (fun o => match o with
                           | OStr _ => true
                           | ONode k => defun_free k
                           end) operands
  | AstBare i k => negb (Instruction_eqb i Defun) && defun_free k
  end.

(* ================================================================== *)
(** * Part II: properties *)
(* ================================================================== *)

(** ** Lexer *)

Lemma lexer_tokens_nonempty (str : string) :
  Forall (fun k => k ≠ "") (lexer str).
Proof.
  unfold lexer.
  destruct (fold_left lexer_step (list_ascii_of_string str) ([], "")) as [ws w].
  apply Forall_forall. intros k Hk.
  apply list_elem_of_In, filter_In in Hk. destruct Hk as [_ Hk].
  intros ->. discriminate Hk.
Qed.

(** C7. On the input ["a b"] the lexer answers [["a"]]: the word still
    being read when the input ends is never appended. Joining that
    answer with spaces and lexing again gives the empty sequence, not
    [["a"]]. *)
Theorem lexer_rejoin_loses_last_word :
  lexer "a b" = ["a"] ∧ lexer (join_spaces (lexer "a b")) = [].
Proof. split; reflexivity. Qed.

(** ** Parser *)

(** ** The fuel of the parser

    A successful [parser] call consumes at least one token, so the
    recursion is bounded by the number of tokens: with fuel twice that
    number the parser never answers [RecursionError]. *)

Lemma parser_consumes fuel :
  (∀ tokens n rest,
     parser fuel tokens = Ok (Some (n, rest)) →
     List.length rest < List.length tokens)
  ∧ (∀ next until l rest,
       take_until fuel next until = Ok (l, rest) →
       List.length rest <= List.length next).
Proof.
  induction fuel as [| fuel [IHp IHt]]; [split; intros; discriminate |].
  split.
  - intros [| x rest0] n rest H; [discriminate H |].
    cbn [parser] in H.
    assert (∀ (k : list AstNode * list string
                   → result (option (AstNode * list string))),
              (let* p := take_until fuel rest0 ")" in k p)
              = Ok (Some (n, rest)) →
              ∃ l next, List.length next <= List.length rest0
                        ∧ k (l, next) = Ok (Some (n, rest))) as Hbind.
    { intros k Hk.
      destruct (take_until fuel rest0 ")") as [[l next] |] eqn:E;
        cbn [bind] in Hk; [| discriminate Hk].
      exists l, next. split; [eapply IHt, E | exact Hk]. }
    cbn [List.length].
    repeat match type of H with
           | (if ?c then _ else _) = _ => destruct c
           end;
      try (injection H as _ <-; lia);
      apply Hbind in H as (l & next & Hlen & H);
      destruct (assert_head_close next); cbn [bind] in H;
        try discriminate H;
      try (destruct (reduce _ _); cbn [bind] in H; [| discriminate H]);
      injection H as _ <-;
      try (destruct next; cbn [tail List.length] in *); lia.
  - intros next until l rest H. cbn [take_until] in H.
    destruct next as [| t next0]; [injection H as _ <-; lia |].
    destruct (String.eqb t until); [injection H as _ <-; lia |].
    destruct (parser fuel (t :: next0)) as [[[res next'] |] |] eqn:Ep;
      cbn [bind unpack] in H; try discriminate H.
    destruct (take_until fuel next' until) as [[total rest'] |] eqn:Et;
      cbn [bind] in H; [| discriminate H].
    injection H as _ <-.
    apply IHp in Ep. apply IHt in Et. lia.
Qed.

Lemma parser_fuel_enough fuel :
  (∀ tokens,
     2 * List.length tokens <= fuel → tokens ≠ [] →
     parser fuel tokens ≠ Raise RecursionError)
  ∧ (∀ next until,
       2 * List.length next + 1 <= fuel →
       take_until fuel next until ≠ Raise RecursionError).
Proof.
  induction fuel as [| fuel [IHp IHt]].
  - split.
    + intros [| x rest] Hlen Hne; [congruence | cbn [List.length] in Hlen; lia].
    + intros next until Hlen. lia.
  - split.
    + intros [| x rest0] Hlen _; [discriminate |].
      cbn [List.length] in Hlen. cbn [parser].
      assert (take_until fuel rest0 ")" ≠ Raise RecursionError) as Ht
        by (apply IHt; lia).
      repeat match goal with
             | |- (if ?c then _ else _) ≠ _ => destruct c
             end;
        try discriminate;
        destruct (take_until fuel rest0 ")") as [[l next] | e];
          cbn [bind]; try congruence;
        destruct next as [| t next]; cbn [assert_head_close bind];
          try discriminate;
        destruct (String.eqb t ")"); cbn [bind]; try discriminate;
        match goal with
        | |- bind (reduce ?f ?l) _ ≠ _ => destruct l; cbn [reduce bind]
        end; discriminate.
    + intros next until Hlen. cbn [take_until].
      destruct next as [| t next0]; [discriminate |].
      destruct (String.eqb t until); [discriminate |].
      cbn [List.length] in Hlen.
      assert (parser fuel (t :: next0) ≠ Raise RecursionError) as Hp
        by (apply IHp; [cbn [List.length]; lia | discriminate]).
      destruct (parser fuel (t :: next0)) as [[[res next'] |] | e] eqn:Ep;
        cbn [bind unpack]; [| discriminate | congruence].
      apply (proj1 (parser_consumes fuel)) in Ep. cbn [List.length] in Ep.
      assert (take_until fuel next' until ≠ Raise RecursionError) as Ht
        by (apply IHt; lia).
      destruct (take_until fuel next' until) as [[total rest] | e];
        cbn [bind]; [discriminate | congruence].
Qed.

(** C10. A token sequence that starts with [")"] is parsed without
    failure into the identifier node of value [")"], and the other tokens
    remain. *)
Theorem parser_unmatched_close (fuel : nat) (rest : list string) :
  parser (S fuel) (")" :: rest) = Ok (Some (Ast String1 [OStr ")"], rest)).
Proof. reflexivity. Qed.

(** The [-] form in general: the operands after the first are negated and
    the list is folded from the left. *)
Lemma parser_minus_fold fuel rest x xs next :
  take_until fuel rest ")" = Ok (x :: xs, ")" :: next) →
  parser (S fuel) ("-" :: rest)
  = Ok (Some (fold_left (binary Add) (map negate xs) x, ")" :: next)).
Proof.
  intros H. cbn [parser]. cbn. rewrite H. reflexivity.
Qed.

(** C4, as the code has it. Parsing ["(- 5 1 1)"] yields a group whose
    only child is [add(add(5, negate(1)), negate(1))]: the operands after
    the first are negated and the fold nests to the left. *)
Theorem parser_minus_left_nested (k : nat) :
  parser (12 + k) (lexer "(- 5 1 1)")
  = Ok (Some (Ast Unknown
                [ONode (binary Add
                          (binary Add (literal "5") (negate (literal "1")))
                          (negate (literal "1")))],
              [])).
Proof. reflexivity. Qed.

(** C4, as stated, fails: the tree is not [add(5, add(negate(1),
    negate(1)))], with or without the enclosing group. *)
Lemma parser_minus_not_right_nested :
  let claimed :=
    binary Add (literal "5")
      (binary Add (negate (literal "1")) (negate (literal "1"))) in
  parser 12 (lexer "(- 5 1 1)") ≠ Ok (Some (claimed, []))
  ∧ parser 12 (lexer "(- 5 1 1)")
    ≠ Ok (Some (Ast Unknown [ONode claimed], [])).
Proof. split; intros H; vm_compute in H; discriminate H. Qed.

(** ** Desugarer *)

(** C9. A group whose only child is a node, of any kind, is replaced by
    the flattening of that child; a group around one numeric literal
    becomes the literal node. *)
Theorem flatten_tree_single_child (c : AstNode) (name_counter : nat) :
  flatten_tree (Ast Unknown [ONode c]) name_counter
  = flatten_tree c name_counter
  ∧ ∀ x, flatten_tree (Ast Unknown [ONode (literal x)]) name_counter
         = Ok (literal x, name_counter).
Proof. split; [destruct c | intros x]; reflexivity. Qed.

(** ** Constraint generation *)

(** What [type_annotator] does at a binary node, for [Add] and for [Mult]
    alike: a fresh result variable, the tuple of the three types, and one
    constraint whose left side is the type named [Operator+]. *)
Lemma type_annotator_binary op lhs rhs st lhs_type st1 rhs_type st2 :
  op = Add ∨ op = Mult →
  type_annotator lhs st = Ok (lhs_type, st1) →
  type_annotator rhs st1 = Ok (rhs_type, st2) →
  let result_type := List.length (types st2) in
  type_annotator (ONode (Ast op [lhs; rhs])) st
  = Ok (PyType result_type,
        mkInferState
          (types st2
           ++ [TStr (String.append "Unknown-"
                       (decimal (type_var_counter st2 + 1)));
               TList [lhs_type; rhs_type; PyType result_type];
               TStr "Operator+"])
          (type_var_counter st2 + 1)
          (constraints st2
           ++ [mkTypeConstraint (PyType (result_type + 2))
                 (PyType (result_type + 1))])).
Proof.
  intros Hop H1 H2 result_type.
  assert (type_annotator (ONode (Ast op [lhs; rhs])) st
          = let* '(lhs_type, st) := type_annotator lhs st in
            let* '(rhs_type, st) := type_annotator rhs st in
            let '(result_type, st) := new_unknown None st in
            let '(param_types, st) :=
              new_Type_list [lhs_type; rhs_type; PyType result_type] st in
            let '(operator, st) := new_Type_str "Operator+" st in
            Ok (PyType result_type,
                append_constraint
                  (mkTypeConstraint (PyType operator) (PyType param_types))
                  st)) as ->.
  { destruct Hop as [-> | ->]; reflexivity. }
  rewrite H1. cbn [bind]. rewrite H2. cbn [bind].
  destruct st2 as [h n cs].
  unfold new_unknown, new_Type_list, new_Type_str, Type_str, Type_list,
    alloc, append_constraint, get_unknown_type_var, result_type.
  cbn [types type_var_counter constraints].
  rewrite !length_app. cbn [List.length].
  rewrite <- !app_assoc. cbn [app].
  replace (List.length h + 1 + 1) with (List.length h + 2) by lia.
  reflexivity.
Qed.

(** C2, at a multiply node. For the product of the literals [2] and [3]
    the one constraint that
    [type_annotator] produces has the type named [Operator+] on its left,
    not [Operator*]; its right side is the tuple of the operand types and
    the fresh result variable, which is also the returned type. *)
Theorem type_annotator_mult_uses_operator_plus :
  let mult := ONode (binary Mult (literal "2") (literal "3")) in
  ∃ st result_type operator param_types,
    type_annotator mult (mkInferState [] 0 [])
    = Ok (PyType result_type, st)
    ∧ constraints st
      = [mkTypeConstraint (PyType operator) (PyType param_types)]
    ∧ types st !! operator = Some (TStr "Operator+")
    ∧ types st !! operator ≠ Some (TStr "Operator*")
    ∧ types st !! param_types
      = Some (TList [PyType 0; PyType 1; PyType result_type])
    ∧ shape 3 (types st) (PyType param_types)
      = Some (SList [SStr "int"; SStr "int"; SStr "Unknown-1"]).
Proof.
  eexists _, _, _, _. cbn.
  split; [reflexivity |].
  split; [reflexivity |].
  repeat split; try reflexivity. discriminate.
Qed.

(** ** Dictionaries keyed by [Type] *)

Lemma dict_find_app fuel h d d' k :
  dict_find fuel h d k = Ok None →
  dict_find fuel h (d ++ d') k
  = let* r := dict_find fuel h d' k in
    Ok (match r with
        | Some (i, v) => Some (List.length d + i, v)
        | None => None
        end).
Proof.
  induction d as [| [stored v] d IH]; cbn [dict_find app].
  - intros _. destruct (dict_find fuel h d' k) as [[[i v] |] |]; reflexivity.
  - destruct (same_key fuel h stored k) as [[] |]; cbn [bind]; try discriminate.
    destruct (dict_find fuel h d k) as [[[i w] |] |] eqn:E; cbn [bind];
      try discriminate.
    intros _. rewrite IH by reflexivity.
    destruct (dict_find fuel h d' k) as [[[i w] |] |]; reflexivity.
Qed.

(** C8, as the code has it. Two [Type] objects with equal structure are
    one key: after inserting the first and then the second in a dictionary
    that held neither, there is a single new entry, under the first
    object, and its value is the one inserted last. *)
Theorem dict_set_equal_structure_one_entry fuel h d a b v1 v2 :
  dict_find fuel h d a = Ok None →
  dict_find fuel h d b = Ok None →
  same_key fuel h a b = Ok true →
  (let* d1 := dict_set fuel h d a v1 in dict_set fuel h d1 b v2)
  = Ok (d ++ [(a, v2)]).
Proof.
  intros Ha Hb Hab. unfold dict_set at 1. rewrite Ha. cbn [bind].
  unfold dict_set. rewrite (dict_find_app _ _ _ _ _ Hb).
  cbn [dict_find bind]. rewrite Hab. cbn [bind].
  rewrite Nat.add_0_r.
  rewrite lookup_app_r by reflexivity.
  rewrite Nat.sub_diag. cbn [lookup list_lookup].
  rewrite insert_app_r_alt by reflexivity.
  rewrite Nat.sub_diag. reflexivity.
Qed.

Lemma dict_set_equal_structure_one_entry_witness :
  (let h := [TStr "Unknown-x"; TStr "Unknown-x"; TStr "int"; TStr "float"] in
   let* d1 := dict_set 2 h [] 0 2 in dict_set 2 h d1 1 3)
  = Ok ([] ++ [(0, 3)]).
Proof.
  apply (dict_set_equal_structure_one_entry 2
           [TStr "Unknown-x"; TStr "Unknown-x"; TStr "int"; TStr "float"]
           [] 0 1 2 3); reflexivity.
Defined.

(** C8, as stated, fails: two distinct objects of structure [Unknown-x]
    inserted one after the other leave one entry, not two; the second
    insertion has replaced the value of the first. *)
Lemma dict_set_equal_structure_not_two_entries :
  let h := [TStr "Unknown-x"; TStr "Unknown-x"; TStr "int"; TStr "float"] in
  ∃ d, (let* d1 := dict_set 2 h [] 0 2 in dict_set 2 h d1 1 3) = Ok d
       ∧ List.length d = 1
       ∧ dict_get 2 h d (PyType 0) = Ok 3.
Proof. eexists. repeat split. Qed.

(** ** The unifier *)

Lemma zip_app_excess_l {A B} (l1 extra : list A) (l2 : list B) :
  List.length l1 = List.length l2 → zip (l1 ++ extra) l2 = zip l1 l2.
Proof.
  revert l2. induction l1 as [| x l1 IH]; intros [| y l2] Hlen;
    try discriminate Hlen.
  - destruct extra; reflexivity.
  - cbn. f_equal. apply IH. now injection Hlen.
Qed.

Lemma zip_app_excess_r {A B} (l1 : list A) (l2 extra : list B) :
  List.length l1 = List.length l2 → zip l1 (l2 ++ extra) = zip l1 l2.
Proof.
  revert l2. induction l1 as [| x l1 IH]; intros [| y l2] Hlen;
    try discriminate Hlen.
  - reflexivity.
  - cbn. f_equal. apply IH. now injection Hlen.
Qed.

Lemma unify_vars_tuples fuel h solutions a b t1 t2 :
  h !! a = Some (TList t1) →
  h !! b = Some (TList t2) →
  unify_vars (S fuel) (PyType a) (PyType b) (h, solutions)
  = iter_state (fun p st => unify_vars fuel (fst p) (snd p) st)
      (zip t1 t2) (h, solutions).
Proof.
  intros Ha Hb. cbn [unify_vars fst]. unfold deref. rewrite Ha, Hb.
  reflexivity.
Qed.

(** An exception of a loop is the exception of one of its steps. *)
Lemma iter_state_raise {A St} (f : A → St → result St) (l : list A) e :
  ∀ st, iter_state f l st = Raise e →
        ∃ i x st0, l !! i = Some x ∧ f x st0 = Raise e.
Proof.
  induction l as [| x l IH]; intros st H; cbn [iter_state] in H;
    [discriminate H |].
  destruct (f x st) as [st1 | e'] eqn:E; cbn [bind] in H.
  - destruct (IH _ H) as (i & y & st0 & Hi & Hy).
    exists (S i), y, st0. split; assumption.
  - injection H as <-. exists 0, x, st. split; [reflexivity | exact E].
Qed.

(** C3, as the code has it. Two tuples of unequal arity raise no arity
    error: the elements are unified pairwise along the shorter tuple, one
    pair after the other in the state the pair before has left, and the
    excess elements of the longer one are ignored, on either side. So
    unifying the longer tuple is unifying its prefix of the shorter
    length, and an exception can only be the exception of a pair of
    elements at a common position. *)
Theorem unify_vars_unequal_arity_common_prefix
    fuel h solutions long short other t1 t2 extra :
  h !! long = Some (TList (t1 ++ extra)) →
  h !! short = Some (TList t1) →
  h !! other = Some (TList t2) →
  List.length t1 = List.length t2 →
  let pairwise := fun (p : pyref * pyref) st =>
    unify_vars fuel (fst p) (snd p) st in
  (unify_vars (S fuel) (PyType long) (PyType other) (h, solutions)
   = iter_state pairwise (zip t1 t2) (h, solutions)
   ∧ unify_vars (S fuel) (PyType other) (PyType long) (h, solutions)
     = iter_state pairwise (zip t2 t1) (h, solutions))
  ∧ (unify_vars fuel (PyType long) (PyType other) (h, solutions)
     = unify_vars fuel (PyType short) (PyType other) (h, solutions)
     ∧ unify_vars fuel (PyType other) (PyType long) (h, solutions)
       = unify_vars fuel (PyType other) (PyType short) (h, solutions))
  ∧ (∀ e,
       unify_vars (S fuel) (PyType long) (PyType other) (h, solutions)
       = Raise e
       ∨ unify_vars (S fuel) (PyType other) (PyType long) (h, solutions)
         = Raise e →
       ∃ i x y st,
         t1 !! i = Some x ∧ t2 !! i = Some y
         ∧ (unify_vars fuel x y st = Raise e
            ∨ unify_vars fuel y x st = Raise e)).
Proof.
  intros Hlong Hshort Hother Hlen pairwise.
  assert (unify_vars (S fuel) (PyType long) (PyType other) (h, solutions)
          = iter_state pairwise (zip t1 t2) (h, solutions)) as Hlo.
  { rewrite (unify_vars_tuples _ _ _ _ _ _ _ Hlong Hother).
    rewrite zip_app_excess_l by exact Hlen. reflexivity. }
  assert (unify_vars (S fuel) (PyType other) (PyType long) (h, solutions)
          = iter_state pairwise (zip t2 t1) (h, solutions)) as Hol.
  { rewrite (unify_vars_tuples _ _ _ _ _ _ _ Hother Hlong).
    rewrite zip_app_excess_r by (symmetry; exact Hlen). reflexivity. }
  split; [split; assumption |]. split.
  - destruct fuel as [| fuel0]; [split; reflexivity |].
    rewrite (unify_vars_tuples _ _ _ _ _ _ _ Hlong Hother),
      (unify_vars_tuples _ _ _ _ _ _ _ Hshort Hother),
      (unify_vars_tuples _ _ _ _ _ _ _ Hother Hlong),
      (unify_vars_tuples _ _ _ _ _ _ _ Hother Hshort).
    rewrite zip_app_excess_l by exact Hlen.
    rewrite zip_app_excess_r by (symmetry; exact Hlen).
    split; reflexivity.
  - intros e [H | H].
    + rewrite Hlo in H.
      apply iter_state_raise in H as (i & [x y] & st & Hi & Hr).
      apply lookup_zip_Some in Hi as [Hx Hy].
      exists i, x, y, st. split; [exact Hx |]. split; [exact Hy |].
      left. exact Hr.
    + rewrite Hol in H.
      apply iter_state_raise in H as (i & [y x] & st & Hi & Hr).
      apply lookup_zip_Some in Hi as [Hy Hx].
      exists i, x, y, st. split; [exact Hx |]. split; [exact Hy |].
      right. exact Hr.
Qed.

Lemma unify_vars_unequal_arity_common_prefix_witness :
  let bound : result (list TypeCell * list (nat * nat)) :=
    Ok (arity_store
          ++ [TStr "float"; TStr "Unknown-x"; TStr "float"; TStr "Unknown-1"],
        [(9, 8); (11, 10)]) in
  (unify_vars 3 (PyType 3) (PyType 6) (arity_store, []) = bound
   ∧ unify_vars 3 (PyType 6) (PyType 3) (arity_store, []) = bound)
  ∧ (unify_vars 2 (PyType 3) (PyType 6) (arity_store, [])
     = unify_vars 2 (PyType 7) (PyType 6) (arity_store, [])
     ∧ unify_vars 2 (PyType 6) (PyType 3) (arity_store, [])
       = unify_vars 2 (PyType 6) (PyType 7) (arity_store, [])).
Proof.
  destruct (unify_vars_unequal_arity_common_prefix 2 arity_store [] 3 7 6
              [PyType 0; PyType 1] [PyType 4; PyType 5] [PyType 2]
              eq_refl eq_refl eq_refl eq_refl) as (Hpairs & Hprefix & _).
  split; [exact Hpairs | exact Hprefix].
Defined.

(** C3, as stated, fails: unifying the one-argument call with the
    signature of the two-argument primitive does not raise; it binds the
    argument and the result of the call to the first two slots of the
    signature. *)
Lemma unify_vars_unequal_arity_no_error :
  ∃ h solutions,
    unify_vars 3 (PyType 6) (PyType 3) (arity_store, []) = Ok (h, solutions)
    ∧ List.length solutions = 2
    ∧ (let* v := dict_get 2 h solutions (PyType 4) in Ok (shape 2 h (PyType v)))
      = Ok (Some (SStr "float"))
    ∧ (let* v := dict_get 2 h solutions (PyType 5) in Ok (shape 2 h (PyType v)))
      = Ok (Some (SStr "float")).
Proof. eexists _, _. repeat split. Qed.

Lemma dict_find_base_atom fuel h d a s :
  keys_are_variables h d = true →
  h !! a = Some (TStr s) →
  is_base_name s = true →
  dict_find (S fuel) h d a = Ok None.
Proof.
  intros Hkeys Ha Hs.
  induction d as [| [stored v] d IH]; [reflexivity |].
  cbn [keys_are_variables forallb fst] in Hkeys.
  apply andb_prop in Hkeys as [Hkey Hkeys].
  apply andb_prop in Hkey as [Hsome Hvar].
  apply bool_decide_eq_true in Hsome as [c Hc].
  apply negb_true_iff in Hvar. unfold base_atom in Hvar.
  cbn [dict_find]. unfold same_key.
  destruct (Nat.eqb_spec stored a) as [-> | Hne].
  { rewrite Ha in Hvar. congruence. }
  cbn [Type_eq]. unfold deref. rewrite Hc, Ha. cbn [bind].
  rewrite Hc in Hvar.
  assert (match c with
          | TStr s0 => Ok (String.eqb s0 s)
          | TList _ => Ok false
          end = Ok false) as ->.
  { destruct c as [s0 | l]; [| reflexivity].
    destruct (String.eqb_spec s0 s) as [-> | _]; [congruence | reflexivity]. }
  cbn [bind]. rewrite (IH Hkeys). reflexivity.
Qed.

Lemma unify_vars_same n :
  ∀ fuel h solutions t,
    type_ok n h t = true →
    n < fuel →
    unify_vars fuel (PyType t) (PyType t) (h, solutions) = Ok (h, solutions).
Proof.
  induction n as [| n IH]; intros fuel h solutions t Hok Hfuel;
    [discriminate Hok |].
  destruct fuel as [| fuel]; [lia |].
  cbn [type_ok] in Hok.
  destruct (h !! t) as [[s | l] |] eqn:Ht; [| | discriminate Hok].
  - cbn [unify_vars fst]. unfold deref. rewrite Ht. cbn [bind].
    destruct fuel as [| fuel]; [lia |].
    unfold unify_atomic. cbn [Type_eq]. unfold deref. rewrite Ht.
    cbn [bind]. rewrite String.eqb_refl. reflexivity.
  - rewrite (unify_vars_tuples _ _ _ _ _ _ _ Ht Ht). clear Ht.
    induction l as [| r l IHl]; [reflexivity |].
    cbn [forallb] in Hok. apply andb_prop in Hok as [Hr Hl].
    destruct r as [| x]; [discriminate Hr |].
    cbn [zip zip_with iter_state fst snd].
    rewrite (IH fuel h solutions x Hr) by lia. cbn [bind].
    apply IHl. exact Hl.
Qed.

(** C5. In a substitution map whose keys are type variables, unifying two
    distinct atomic base types raises the assertion error "Primitive
    types don't match"; and for every [Type] [t] (a finite tree of
    [Type]s), unifying [t] with itself succeeds and leaves the store and
    the map as they were. *)
Theorem unify_vars_base_conflict_and_reflexive fuel h solutions :
  (∀ a b s1 s2,
     h !! a = Some (TStr s1) →
     h !! b = Some (TStr s2) →
     is_base_name s1 = true →
     is_base_name s2 = true →
     s1 ≠ s2 →
     keys_are_variables h solutions = true →
     unify_vars (S (S fuel)) (PyType a) (PyType b) (h, solutions)
     = Raise (AssertionError "Primitive types don't match"))
  ∧ (∀ n t,
       type_ok n h t = true →
       n < S (S fuel) →
       unify_vars (S (S fuel)) (PyType t) (PyType t) (h, solutions)
       = Ok (h, solutions)).
Proof.
  split.
  - intros a b s1 s2 Ha Hb H1 H2 Hne Hkeys.
    assert (String.eqb s1 s2 = false) as Hneq
      by (apply String.eqb_neq; exact Hne).
    cbn [unify_vars fst]. unfold deref. rewrite Ha, Hb. cbn [bind].
    unfold unify_atomic. cbn [Type_eq]. unfold deref.
    rewrite Ha, Hb. cbn [bind]. rewrite Hneq.
    unfold dict_contains.
    rewrite (dict_find_base_atom fuel h solutions a s1 Hkeys Ha H1).
    cbn [bind].
    rewrite (dict_find_base_atom fuel h solutions b s2 Hkeys Hb H2).
    cbn [bind].
    rewrite bool_decide_eq_false_2 by (intros [x Hx]; discriminate Hx).
    cbn [is_base_type]. unfold deref. rewrite Ha, Hb. cbn [bind].
    rewrite H1, H2. reflexivity.
  - intros n t Hok Hn. apply (unify_vars_same n); assumption.
Qed.

Lemma unify_vars_base_conflict_and_reflexive_witness :
  unify_vars 3 (PyType 0) (PyType 1) (base_store, [(3, 0)])
  = Raise (AssertionError "Primitive types don't match")
  ∧ unify_vars 3 (PyType 2) (PyType 2) (base_store, [(3, 0)])
    = Ok (base_store, [(3, 0)]).
Proof.
  pose proof (unify_vars_base_conflict_and_reflexive 1 base_store [(3, 0)])
    as [Hconflict Hsame].
  split.
  - apply (Hconflict 0 1 "int" "float"); try reflexivity. discriminate.
  - apply (Hsame 2 2); [reflexivity | lia].
Defined.

(** ** Call resolution *)

(** The table of names: adding a definition at the end of the list maps
    its name to its position. *)
Lemma function_name_map_snoc functions f :
  function_name_map (functions ++ [f])
  = <[TypedFnDef.name f := List.length functions]>
      (function_name_map functions).
Proof.
  unfold function_name_map.
  rewrite imap_app, foldl_app. cbn. rewrite Nat.add_0_r. reflexivity.
Qed.

Lemma function_name_map_Some functions n def :
  function_name_map functions !! n = Some def →
  ∃ f, functions !! def = Some f ∧ TypedFnDef.name f = n.
Proof.
  induction functions as [| f functions IH] using rev_ind.
  - unfold function_name_map. cbn. rewrite lookup_empty. discriminate.
  - rewrite function_name_map_snoc.
    destruct (decide (TypedFnDef.name f = n)) as [<- | Hne].
    + rewrite lookup_insert_eq. intros [= <-]. exists f. split; [| reflexivity].
      rewrite lookup_app_r by reflexivity. now rewrite Nat.sub_diag.
    + rewrite lookup_insert_ne by exact Hne. intros H.
      destruct (IH H) as (g & Hg & Hname). exists g. split; [| exact Hname].
      rewrite lookup_app_l; [exact Hg |]. eapply lookup_lt_Some, Hg.
Qed.

Lemma function_name_map_None functions n :
  function_name_map functions !! n = None →
  Forall (fun f => TypedFnDef.name f ≠ n) functions.
Proof.
  induction functions as [| f functions IH] using rev_ind.
  - constructor.
  - rewrite function_name_map_snoc.
    destruct (decide (TypedFnDef.name f = n)) as [<- | Hne].
    + rewrite lookup_insert_eq. discriminate.
    + rewrite lookup_insert_ne by exact Hne. intros H.
      apply Forall_app. split; [apply IH, H | repeat constructor; exact Hne].
Qed.

Lemma map_result_resolver names programs :
  Forall (fun a => lowered a = true →
                   resolver_answer names (callees a)
                     (recursive_resolver names a) (resolved names a))
    programs →
  forallb lowered programs = true →
  resolver_answer names (flat_map callees programs)
    (map_result (recursive_resolver names) programs)
    (Forall2 (resolved names) programs).
Proof.
  induction 1 as [| a programs Ha _ IH]; intros Hlow.
  - cbn. split; constructor.
  - cbn [forallb] in Hlow. apply andb_prop in Hlow as [Hla Hlp].
    specialize (Ha Hla). specialize (IH Hlp).
    cbn [map_result flat_map].
    destruct (recursive_resolver names a) as [a' | e]; cbn [bind].
    + destruct Ha as [Ha Hca].
      destruct (map_result (recursive_resolver names) programs) as [ps' | e];
        cbn [bind].
      * destruct IH as [IH Hcp]. split.
        -- constructor; assumption.
        -- apply Forall_app. split; assumption.
      * destruct IH as (n & -> & Hn & Hnone). exists n.
        split; [reflexivity |]. split; [| exact Hnone].
        apply elem_of_app. right. exact Hn.
    + destruct Ha as (n & -> & Hn & Hnone). exists n.
      split; [reflexivity |]. split; [| exact Hnone].
      apply elem_of_app. left. exact Hn.
Qed.

Lemma recursive_resolver_answer names a :
  lowered a = true →
  resolver_answer names (callees a) (recursive_resolver names a)
    (resolved names a).
Proof.
  induction a as [programs IH | v | v | t c | fn params IH | fn params IH]
    using BaseAst_nested_ind; intros Hlow; try discriminate Hlow.
  - cbn [lowered] in Hlow.
    pose proof (map_result_resolver names programs IH Hlow) as H.
    cbn [recursive_resolver callees].
    destruct (map_result (recursive_resolver names) programs) as [ps' | e];
      cbn [bind].
    + destruct H as [H Hc]. split; [constructor; exact H | exact Hc].
    + exact H.
  - cbn. split; constructor.
  - cbn. split; constructor.
  - cbn [lowered] in Hlow.
    pose proof (map_result_resolver names params IH Hlow) as H.
    cbn [recursive_resolver callees].
    destruct (map_result (recursive_resolver names) params) as [ps' | e];
      cbn [bind].
    + destruct H as [H Hc].
      destruct (names !! fn) as [def |] eqn:Hfn.
      * split; [constructor; assumption |].
        constructor; [rewrite Hfn; eexists; reflexivity | exact Hc].
      * exists fn. split; [reflexivity |]. split; [| exact Hfn].
        apply elem_of_cons. left. reflexivity.
    + destruct H as (n & -> & Hn & Hnone). exists n.
      split; [reflexivity |]. split; [| exact Hnone].
      apply elem_of_cons. right. exact Hn.
Qed.

Lemma resolved_no_callees names a a' :
  resolved names a a' → callees a' = [].
Proof.
  revert a'.
  induction a as [programs IH | v | v | t c | fn params IH | fn params IH]
    using BaseAst_nested_ind; intros a' H; inversion H; subst; try reflexivity.
  - cbn. match goal with H : Forall2 _ programs _ |- _ => revert H end.
    clear H. intros H. induction H as [| x y l l' Hxy _ IHl]; [reflexivity |].
    apply Forall_cons in IH as [IHx IHr].
    cbn. rewrite (IHx _ Hxy), (IHl IHr). reflexivity.
  - cbn. match goal with H : Forall2 _ params _ |- _ => revert H end.
    clear H. intros H. induction H as [| x y l l' Hxy _ IHl]; [reflexivity |].
    apply Forall_cons in IH as [IHx IHr].
    cbn. rewrite (IHx _ Hxy), (IHl IHr). reflexivity.
Qed.

Lemma map_result_definitions names functions :
  Forall (fun f => lowered (TypedFnDef.body f) = true) functions →
  resolver_answer names
    (flat_map (fun f => callees (TypedFnDef.body f)) functions)
    (map_result (resolve_definition names) functions)
    (Forall2 (definition_resolved names) functions).
Proof.
  induction 1 as [| f functions Hf _ IH].
  - cbn. split; constructor.
  - cbn [map_result flat_map]. unfold resolve_definition at 1.
    pose proof (recursive_resolver_answer names _ Hf) as Hb.
    destruct (recursive_resolver names (TypedFnDef.body f)) as [b' | e];
      cbn [bind].
    + destruct Hb as [Hb Hcb].
      destruct (map_result (resolve_definition names) functions) as [fs' | e];
        cbn [bind].
      * destruct IH as [IH Hc]. split.
        -- constructor; [| exact IH].
           repeat split; cbn; [exact Hb | eapply resolved_no_callees, Hb].
        -- apply Forall_app. split; assumption.
      * destruct IH as (n & -> & Hn & Hnone). exists n.
        split; [reflexivity |]. split; [| exact Hnone].
        apply elem_of_app. right. exact Hn.
    + destruct Hb as (n & -> & Hn & Hnone). exists n.
      split; [reflexivity |]. split; [| exact Hnone].
      apply elem_of_app. left. exact Hn.
Qed.

(** C6. Over definitions with lowered bodies, the table sends a name to
    a definition of that name and misses only names that no definition
    has. When every callee of every unresolved call is in the table, the
    resolver returns the definitions with every unresolved call, in
    arguments and sequence elements too, replaced by a direct call to the
    definition the table gives, and no unresolved call is left. When some
    callee is not in the table, the resolver raises the [KeyError] of an
    unknown callee. *)
Theorem resolve_all_function_calls_spec (functions : list TypedFnDef.t) :
  Forall (fun f => lowered (TypedFnDef.body f) = true) functions →
  let names := function_name_map functions in
  let called := flat_map (fun f => callees (TypedFnDef.body f)) functions in
  (∀ n def, names !! n = Some def →
            ∃ f, functions !! def = Some f ∧ TypedFnDef.name f = n)
  ∧ (∀ n, names !! n = None →
          Forall (fun f => TypedFnDef.name f ≠ n) functions)
  ∧ (Forall (fun n => is_Some (names !! n)) called →
     ∃ functions',
       resolve_all_function_calls functions = Ok functions'
       ∧ Forall2 (definition_resolved names) functions functions')
  ∧ (Exists (fun n => names !! n = None) called →
     ∃ n, n ∈ called ∧ names !! n = None
          ∧ resolve_all_function_calls functions
            = Raise (KeyError (KName n))).
Proof.
  intros Hlow names called.
  pose proof (map_result_definitions names functions Hlow) as H.
  fold called in H. unfold resolve_all_function_calls. fold names.
  split; [apply function_name_map_Some |].
  split; [apply function_name_map_None |].
  destruct (map_result (resolve_definition names) functions) as [fs' | e].
  - destruct H as [H Hc]. split.
    + intros _. exists fs'. split; [reflexivity | exact H].
    + intros Hex. exfalso. apply Exists_exists in Hex as (n & Hn & Hnone).
      rewrite Forall_forall in Hc. destruct (Hc n Hn) as [d Hd]. congruence.
  - destruct H as (n & -> & Hn & Hnone). split.
    + intros Hall. exfalso. rewrite Forall_forall in Hall.
      destruct (Hall n Hn) as [d Hd]. congruence.
    + intros _. exists n. repeat split; assumption.
Qed.

Lemma resolve_all_function_calls_spec_witness :
  ∃ functions',
    resolve_all_function_calls sample_definitions = Ok functions'
    ∧ Forall2 (definition_resolved (function_name_map sample_definitions))
        sample_definitions functions'.
Proof.
  destruct (resolve_all_function_calls_spec sample_definitions)
    as (_ & _ & Hknown & _).
  - repeat constructor.
  - apply Hknown. repeat constructor; vm_compute; eexists; reflexivity.
Defined.

(** A call to [undefined_fn], which no definition has, is not dropped:
    resolution raises the [KeyError] of that name. *)
Example resolve_undefined_fn :
  resolve_all_function_calls
    [TypedFnDef.mk "main" []
       (ProgN [UnresolvedFnApp "undefined_fn" [ConstantLoad 0 (OStr "1")]]) 0]
  = Raise (KeyError (KName "undefined_fn")).
Proof. vm_compute. reflexivity. Qed.

(** ** Specialisation *)

Lemma all_result_true {A} (f : A → result bool) (l : list A) :
  all_result f l = Ok true ↔ Forall (fun x => f x = Ok true) l.
Proof.
  induction l as [| x l IH]; cbn [all_result].
  - split; [constructor | reflexivity].
  - split.
    + intros H. destruct (f x) as [[] |] eqn:E; cbn [bind] in H;
        try discriminate H.
      constructor; [exact E | apply IH, H].
    + intros H. apply Forall_cons in H as [Hx Hl].
      rewrite Hx. cbn [bind]. apply IH, Hl.
Qed.

(** ** The keys of a map built by the unifier are type variables *)

Lemma extends_refl h : extends h h.
Proof. intros i c H. exact H. Qed.

Lemma extends_trans h1 h2 h3 : extends h1 h2 → extends h2 h3 → extends h1 h3.
Proof. intros H12 H23 i c H. apply H23, H12, H. Qed.

Lemma extends_alloc h c : extends h (h ++ [c]).
Proof.
  intros i c' H. rewrite lookup_app_l; [exact H |].
  eapply lookup_lt_Some, H.
Qed.

Lemma copy_elements_extends
    (copy : nat → list TypeCell * list (nat * nat)
            → result (nat * (list TypeCell * list (nat * nat)))) :
  (∀ a h m a' h' m', copy a (h, m) = Ok (a', (h', m')) → extends h h') →
  ∀ l h m l' h' m',
    map_state (copy_element copy) l (h, m) = Ok (l', (h', m')) →
    extends h h'.
Proof.
  intros Hcopy.
  induction l as [| u l IHl]; intros h m l' h' m' Hl; cbn [map_state] in Hl.
  - injection Hl as _ <- _. apply extends_refl.
  - destruct u as [| u]; cbn [copy_element bind] in Hl.
    + destruct (map_state _ l (h, m)) as [[ys [h2 m2]] |] eqn:E;
        cbn [bind] in Hl; [| discriminate Hl].
      injection Hl as _ <- _. eapply IHl, E.
    + destruct (copy u (h, m)) as [[u' [h2 m2]] |] eqn:Eu;
        cbn [bind] in Hl; [| discriminate Hl].
      destruct (map_state _ l (h2, m2)) as [[ys [h3 m3]] |] eqn:E;
        cbn [bind] in Hl; [| discriminate Hl].
      injection Hl as _ <- _.
      eapply extends_trans; [eapply Hcopy, Eu | eapply IHl, E].
Qed.

Lemma deepcopy_extends fuel :
  ∀ a h m a' h' m',
    deepcopy fuel a (h, m) = Ok (a', (h', m')) → extends h h'.
Proof.
  induction fuel as [| fuel IH]; intros a h m a' h' m' H; [discriminate H |].
  cbn [deepcopy] in H.
  destruct (memo_find m a) as [x |].
  { injection H as _ <- _. apply extends_refl. }
  unfold deref in H. destruct (h !! a) as [c |] eqn:Ha; [| discriminate H].
  cbn [bind] in H. unfold alloc in H.
  destruct c as [s | types].
  { injection H as _ <- _. apply extends_alloc. }
  destruct (map_state _ types _) as [[types' [h2 m2]] |] eqn:E;
    cbn [bind] in H; [| discriminate H].
  injection H as _ <- _.
  apply (copy_elements_extends _ IH) in E.
  intros i c Hi.
  rewrite list_lookup_insert_ne.
  - apply E, extends_alloc, Hi.
  - apply lookup_lt_Some in Hi. lia.
Qed.

(** A clone leaves the existing objects as they are, and the new object
    is atomic with the same name, or a list, as the original is. *)
Lemma clone_kind fuel h a a' h' :
  clone fuel h a = Ok (a', h') →
  extends h h'
  ∧ is_Some (h' !! a')
  ∧ base_atom h' a' = base_atom h a.
Proof.
  unfold clone. intros H.
  destruct (deepcopy fuel a (h, [])) as [[x [h1 m1]] |] eqn:E;
    cbn [bind] in H; [| discriminate H].
  injection H as <- <-.
  split; [eapply deepcopy_extends, E |].
  destruct fuel as [| fuel]; [discriminate E |].
  cbn [deepcopy memo_find] in E. unfold deref in E.
  destruct (h !! a) as [c |] eqn:Ha; [| discriminate E].
  cbn [bind] in E. unfold alloc in E.
  destruct c as [s | types].
  - injection E as <- <- _.
    unfold base_atom. rewrite Ha.
    rewrite lookup_app_r by reflexivity. rewrite Nat.sub_diag. cbn.
    split; [eexists; reflexivity | reflexivity].
  - destruct (map_state _ types _) as [[types' [h2 m2]] |] eqn:Emap;
      cbn [bind] in E; [| discriminate E].
    injection E as <- <- _.
    apply (copy_elements_extends _ (deepcopy_extends fuel)) in Emap.
    assert (List.length h < List.length h2) as Hlt.
    { eapply lookup_lt_Some, Emap.
      rewrite lookup_app_r by reflexivity. rewrite Nat.sub_diag. reflexivity. }
    unfold base_atom. rewrite Ha.
    rewrite list_lookup_insert_eq by exact Hlt.
    split; [eexists; reflexivity | reflexivity].
Qed.

Lemma keys_are_variables_extends h h' d :
  extends h h' →
  keys_are_variables h d = true → keys_are_variables h' d = true.
Proof.
  intros Hext. unfold keys_are_variables.
  induction d as [| [k v] d IH]; cbn [forallb fst]; [reflexivity |].
  intros H. apply andb_prop in H as [Hk Hd].
  apply andb_prop in Hk as [Hsome Hvar].
  apply bool_decide_eq_true in Hsome as [c Hc].
  rewrite (IH Hd), andb_true_r. unfold base_atom in *.
  rewrite (Hext _ _ Hc). rewrite Hc in Hvar. rewrite Hvar, andb_true_r.
  apply bool_decide_eq_true. eexists; reflexivity.
Qed.

Lemma keys_are_variables_set fuel h d k v d' :
  dict_set fuel h d k v = Ok d' →
  is_Some (h !! k) →
  base_atom h k = false →
  keys_are_variables h d = true → keys_are_variables h d' = true.
Proof.
  unfold dict_set. intros H Hsome Hvar Hd.
  destruct (dict_find fuel h d k) as [[[i w] |] |]; cbn [bind] in H;
    try discriminate H; injection H as <-.
  - destruct (d !! i) as [[stored w'] |] eqn:Hi; [| exact Hd].
    unfold keys_are_variables in *.
    rewrite forallb_forall in Hd. apply forallb_forall. intros [k' v'] Hin.
    apply list_elem_of_In, list_elem_of_lookup in Hin as [j Hj].
    destruct (decide (i = j)) as [<- | Hne].
    + rewrite list_lookup_insert_eq in Hj by (eapply lookup_lt_Some, Hi).
      injection Hj as <- <-.
      apply (Hd (stored, w')).
      apply list_elem_of_In, list_elem_of_lookup. exists i. exact Hi.
    + rewrite list_lookup_insert_ne in Hj by exact Hne.
      apply (Hd (k', v')).
      apply list_elem_of_In, list_elem_of_lookup. exists j. exact Hj.
  - unfold keys_are_variables in *. rewrite forallb_app, Hd. cbn.
    rewrite Hvar, bool_decide_eq_true_2 by exact Hsome. reflexivity.
Qed.

Lemma is_base_type_false fuel h a :
  is_base_type fuel h a = Ok false →
  is_Some (h !! a) ∧ base_atom h a = false.
Proof.
  destruct fuel as [| fuel]; [discriminate |].
  cbn [is_base_type]. unfold deref, base_atom.
  destruct (h !! a) as [[s | l] |]; cbn [bind]; try discriminate.
  - intros [= ->]. split; [eexists; reflexivity | reflexivity].
  - intros _. split; [eexists; reflexivity | reflexivity].
Qed.

Lemma unify_atomic_keys_are_variables unify fuel a b h solutions h' solutions' :
  (∀ one two, unify one two (h, solutions) = Ok (h', solutions') →
              keys_are_variables h' solutions' = true) →
  unify_atomic unify fuel a b (h, solutions) = Ok (h', solutions') →
  keys_are_variables h solutions = true →
  keys_are_variables h' solutions' = true.
Proof.
  intros Hrec H Hk.
  assert (∀ k v,
            (let* '(v', h0) := clone fuel h v in
             let* '(k', h0) := clone fuel h0 k in
             let* solutions0 := dict_set fuel h0 solutions k' v' in
             Ok (h0, solutions0)) = Ok (h', solutions') →
            is_Some (h !! k) → base_atom h k = false →
            keys_are_variables h' solutions' = true) as Hinsert.
  { intros k v Hins Hsome Hvar.
    destruct (clone fuel h v) as [[v' h1] |] eqn:Ev; cbn [bind] in Hins;
      [| discriminate Hins].
    destruct (clone fuel h1 k) as [[k' h2] |] eqn:Ek; cbn [bind] in Hins;
      [| discriminate Hins].
    destruct (dict_set fuel h2 solutions k' v') as [d |] eqn:Ed;
      cbn [bind] in Hins; [| discriminate Hins].
    injection Hins as <- <-.
    apply clone_kind in Ev as (Hext1 & _ & _).
    apply clone_kind in Ek as (Hext2 & Hsome' & Hatom).
    eapply keys_are_variables_set; [exact Ed | exact Hsome' | |].
    - rewrite Hatom. destruct Hsome as [c Hc]. unfold base_atom in *.
      rewrite (Hext1 _ _ Hc). rewrite Hc in Hvar. exact Hvar.
    - eapply keys_are_variables_extends; [| exact Hk].
      eapply extends_trans; eassumption. }
  unfold unify_atomic in H.
  destruct (Type_eq fuel h a b) as [[] |]; cbn [bind] in H;
    try discriminate H.
  { injection H as <- <-. exact Hk. }
  destruct (dict_contains fuel h solutions (PyType a)) as [[] |];
    cbn [bind] in H; try discriminate H.
  { destruct (dict_get fuel h solutions (PyType a)) as [v |];
      cbn [bind] in H; [| discriminate H].
    eapply Hrec, H. }
  destruct (dict_contains fuel h solutions (PyType b)) as [[] |];
    cbn [bind] in H; try discriminate H.
  { destruct (dict_get fuel h solutions (PyType b)) as [v |];
      cbn [bind] in H; [| discriminate H].
    eapply Hrec, H. }
  destruct (is_base_type fuel h a) as [base1 |] eqn:E1; cbn [bind] in H;
    [| discriminate H].
  destruct (is_base_type fuel h b) as [base2 |] eqn:E2; cbn [bind] in H;
    [| discriminate H].
  destruct base1, base2.
  - discriminate H.
  - apply is_base_type_false in E2 as [Hs Hv]. eapply Hinsert; eassumption.
  - apply is_base_type_false in E1 as [Hs Hv]. eapply Hinsert; eassumption.
  - apply is_base_type_false in E1 as [Hs Hv]. eapply Hinsert; eassumption.
Qed.

(** Every insertion of [unify_vars] is under the clone of a type that is
    not base, so the unifier keeps the keys of the map type variables;
    from the empty map of [unify_constraints] this holds throughout. *)
Lemma unify_vars_keys_are_variables fuel :
  ∀ one two h solutions h' solutions',
    unify_vars fuel one two (h, solutions) = Ok (h', solutions') →
    keys_are_variables h solutions = true →
    keys_are_variables h' solutions' = true.
Proof.
  induction fuel as [| fuel IH]; intros one two h solutions h' solutions' H Hk;
    [discriminate H |].
  assert (∀ l h0 d0,
            iter_state (fun p st => unify_vars fuel (fst p) (snd p) st) l
              (h0, d0) = Ok (h', solutions') →
            keys_are_variables h0 d0 = true →
            keys_are_variables h' solutions' = true) as Hiter.
  { induction l as [| p l IHl]; intros h0 d0 Hl Hk0; cbn [iter_state] in Hl.
    - injection Hl as <- <-. exact Hk0.
    - destruct (unify_vars fuel (fst p) (snd p) (h0, d0)) as [[h1 d1] |] eqn:E;
        cbn [bind] in Hl; [| discriminate Hl].
      eapply IHl; [exact Hl |]. eapply IH; eassumption. }
  cbn [unify_vars fst] in H.
  destruct one as [| a]; [discriminate H |].
  destruct two as [| b]; [discriminate H |].
  unfold deref in H.
  destruct (h !! a) as [ca |] eqn:Ha; [| discriminate H].
  destruct (h !! b) as [cb |] eqn:Hb; [| discriminate H].
  cbn [bind] in H.
  destruct ca as [s1 | l1], cb as [s2 | l2];
    try (eapply unify_atomic_keys_are_variables; [| exact H | exact Hk];
         intros one two Hrec; eapply IH; eassumption).
  eapply Hiter; eassumption.
Qed.

(** The loop of [unify_constraints], which starts from the empty map. *)
Corollary unify_constraints_keys_are_variables fuel constraints :
  ∀ h solutions h' solutions',
    iter_state (fun c st => unify_vars fuel (lhs c) (rhs c) st)
      constraints (h, solutions) = Ok (h', solutions') →
    keys_are_variables h solutions = true →
    keys_are_variables h' solutions' = true.
Proof.
  induction constraints as [| c cs IH]; intros h d h' d' H Hk;
    cbn [iter_state] in H.
  - injection H as <- <-. exact Hk.
  - destruct (unify_vars fuel (lhs c) (rhs c) (h, d)) as [[h1 d1] |] eqn:E;
      cbn [bind] in H; [| discriminate H].
    eapply IH; [exact H |]. eapply unify_vars_keys_are_variables; eassumption.
Qed.

(** ** Lowering builds lowered bodies *)

Lemma iter_operands_lowered
    (iter : AstNode → list TypeCell → result (BaseAst * list TypeCell))
    (args : list Operand) :
  Forall (on_nodes (fun n => ∀ h b h', iter n h = Ok (b, h') →
                                       lowered b = true)) args →
  ∀ h l h',
    map_state (fun o h => match o with
                          | OStr _ => Raise AttributeError
                          | ONode k => iter k h
                          end) args h = Ok (l, h') →
    forallb lowered l = true.
Proof.
  induction 1 as [| o args Ho _ IH]; intros h l h' H; cbn [map_state] in H.
  - injection H as <- _. reflexivity.
  - destruct o as [s | k]; cbn [bind] in H; [discriminate H |].
    destruct (iter k h) as [[b h1] |] eqn:Ek; cbn [bind] in H;
      [| discriminate H].
    destruct (map_state _ args h1) as [[bs h2] |] eqn:Eargs; cbn [bind] in H;
      [| discriminate H].
    injection H as <- _. cbn [forallb].
    rewrite (Ho _ _ _ Ek), (IH _ _ _ Eargs). reflexivity.
Qed.

(** The body that [iter_node] returns is made of constant loads,
    unresolved variable loads, unresolved calls and sequences only. *)
Lemma iter_node_lowered (n : AstNode) :
  ∀ h b h', iter_node n h = Ok (b, h') → lowered b = true.
Proof.
  induction n as [i operands IH | i k _] using AstNode_nested_ind;
    intros h b h' H.
  - destruct i; cbn [iter_node] in H; try discriminate H.
    + (* Add *)
      destruct operands as [| lhs [| rhs [| ? ?]]]; try discriminate H.
      apply Forall_cons in IH as [Hl IH]. apply Forall_cons in IH as [Hr _].
      destruct lhs as [? | lhs]; cbn [bind] in H; [discriminate H |].
      destruct (iter_node lhs h) as [[bl h1] |] eqn:El; cbn [bind] in H;
        [| discriminate H].
      destruct rhs as [? | rhs]; cbn [bind] in H; [discriminate H |].
      destruct (iter_node rhs h1) as [[br h2] |] eqn:Er; cbn [bind] in H;
        [| discriminate H].
      injection H as <- _. cbn.
      rewrite (Hl _ _ _ El), (Hr _ _ _ Er). reflexivity.
    + (* Unknown *)
      destruct operands as [| [s | head] args]; try discriminate H.
      apply Forall_cons in IH as [Hhead Hargs].
      destruct (Instruction_eqb (instr_of head) String1).
      * destruct head as [j [| [name | ?] [| ? ?]] | j ?]; try discriminate H.
        destruct (map_state _ args h) as [[bs h1] |] eqn:Eargs;
          cbn [bind] in H; [| discriminate H].
        injection H as <- _. cbn [lowered].
        eapply iter_operands_lowered; [exact Hargs | exact Eargs].
      * destruct (all_result _ (ONode head :: args)) as [[] |];
          cbn [bind] in H; try discriminate H.
        destruct (map_state _ (ONode head :: args) h) as [[bs h1] |] eqn:Eall;
          cbn [bind] in H; [| discriminate H].
        injection H as <- _. cbn [lowered].
        eapply iter_operands_lowered; [| exact Eall].
        constructor; assumption.
    + (* Mult *)
      destruct operands as [| lhs [| rhs [| ? ?]]]; try discriminate H.
      apply Forall_cons in IH as [Hl IH]. apply Forall_cons in IH as [Hr _].
      destruct lhs as [? | lhs]; cbn [bind] in H; [discriminate H |].
      destruct (iter_node lhs h) as [[bl h1] |] eqn:El; cbn [bind] in H;
        [| discriminate H].
      destruct rhs as [? | rhs]; cbn [bind] in H; [discriminate H |].
      destruct (iter_node rhs h1) as [[br h2] |] eqn:Er; cbn [bind] in H;
        [| discriminate H].
      injection H as <- _. cbn.
      rewrite (Hl _ _ _ El), (Hr _ _ _ Er). reflexivity.
    + (* String1 *)
      destruct (first_operand (Ast String1 operands)); cbn [bind] in H;
        [| discriminate H].
      injection H as <- _. reflexivity.
    + (* NumberConstant *)
      unfold Type_str, alloc in H.
      destruct (first_operand (Ast NumberConstant operands)); cbn [bind] in H;
        [| discriminate H].
      injection H as <- _. reflexivity.
  - destruct i; cbn [iter_node first_operand bind] in H; discriminate H.
Qed.

(** The definitions that [convert_to_baseast] returns have lowered
    bodies. *)
Corollary convert_to_baseast_lowered fuel a type_solutions st f st' :
  convert_to_baseast fuel a type_solutions st = Ok (f, st') →
  lowered (TypedFnDef.body f) = true.
Proof.
  unfold convert_to_baseast. intros H.
  destruct (map_state _ (params_list a) st) as [[ps [h1 counter]] |];
    cbn [bind] in H; [| discriminate H].
  destruct (iter_node (body a) h1) as [[b h2] |] eqn:Eb; cbn [bind] in H;
    [| discriminate H].
  destruct (type_lookup_type fuel type_solutions (my_type a) h2);
    cbn [bind] in H; [| discriminate H].
  injection H as <- _. cbn. eapply iter_node_lowered, Eb.
Qed.

(* ================================================================== *)
(** * Part III: further properties *)
(* ================================================================== *)

(** ** Lexer *)

Lemma list_ascii_of_string_append (a b : string) :
  list_ascii_of_string (String.append a b)
  = list_ascii_of_string a ++ list_ascii_of_string b.
Proof.
  induction a as [| c a IH]; [reflexivity |].
  change (String.append (String c a) b) with (String c (String.append a b)).
  cbn [list_ascii_of_string app]. f_equal. exact IH.
Qed.

(** The loop of the lexer from any state: the words found are appended to
    the words already there. *)
Lemma lexer_loop_words cs :
  ∀ ws w,
    fold_left lexer_step cs (ws, w)
    = (ws ++ fst (fold_left lexer_step cs ([], w)),
       snd (fold_left lexer_step cs ([], w))).
Proof.
  induction cs as [| c cs IH]; intros ws w; cbn [fold_left].
  - cbn. now rewrite app_nil_r.
  - unfold lexer_step at 2 4 6.
    destruct (Ascii.eqb c " "); [| destruct (Ascii.eqb c "(" || Ascii.eqb c ")")].
    + rewrite (IH (ws ++ [w])), (IH ([] ++ [w])). cbn [fst snd app].
      now rewrite <- app_assoc.
    + rewrite (IH (ws ++ _)), (IH ([] ++ _)). cbn [fst snd app].
      now rewrite <- app_assoc.
    + apply IH.
Qed.

Lemma string_append_cons (x : ascii) (w s : string) :
  String.append (String x w) s = String x (String.append w s).
Proof. reflexivity. Qed.

Lemma string_append_empty (w : string) : String.append w "" = w.
Proof.
  induction w as [| x w IH]; [reflexivity |].
  now rewrite string_append_cons, IH.
Qed.

Lemma string_append_shift (w : string) (c : ascii) (s : string) :
  String.append (String.append w (String c "")) s
  = String.append w (String c s).
Proof.
  induction w as [| x w IH]; [reflexivity |].
  now rewrite !string_append_cons, IH.
Qed.

(** Reading a word changes only the word being accumulated. *)
Lemma lexer_loop_plain cs :
  forallb (fun c => negb (delimiter c)) cs = true →
  ∀ ws w,
    fold_left lexer_step cs (ws, w)
    = (ws, String.append w (string_of_list_ascii cs)).
Proof.
  induction cs as [| c cs IH]; intros Hplain ws w; cbn [fold_left].
  - cbn [string_of_list_ascii]. now rewrite string_append_empty.
  - cbn [forallb] in Hplain. apply andb_prop in Hplain as [Hc Hcs].
    unfold delimiter in Hc. apply negb_true_iff in Hc.
    apply orb_false_elim in Hc as [Hc Hclose].
    apply orb_false_elim in Hc as [Hspace Hopen].
    unfold lexer_step at 2. rewrite Hspace, Hopen, Hclose. cbn [orb].
    rewrite (IH Hcs). cbn [string_of_list_ascii].
    now rewrite string_append_shift.
Qed.

Lemma lexer_words_ok (str : string) :
  Forall (fun t => token_ok t = true) (lexer str).
Proof.
  unfold lexer.
  assert (∀ cs ws w,
            Forall (fun t => t = "" ∨ token_ok t = true) ws →
            plain w = true →
            Forall (fun t => t = "" ∨ token_ok t = true)
              (fst (fold_left lexer_step cs (ws, w)))) as Hloop.
  { induction cs as [| c cs IH]; intros ws w Hws Hw; cbn [fold_left];
      [exact Hws |].
    unfold lexer_step at 2.
    assert (w = "" ∨ token_ok w = true) as Hword.
    { destruct w as [| x w]; [left; reflexivity | right].
      unfold token_ok. rewrite Hw. cbn [String.eqb negb andb].
      now rewrite orb_true_r. }
    destruct (Ascii.eqb_spec c " ") as [-> | Hspace].
    { apply IH; [| reflexivity]. apply Forall_app. split; [exact Hws |].
      constructor; [exact Hword | constructor]. }
    destruct (Ascii.eqb_spec c "(") as [-> | Hopen].
    { apply IH; [| reflexivity]. apply Forall_app. split; [exact Hws |].
      constructor; [exact Hword |].
      constructor; [right; reflexivity | constructor]. }
    destruct (Ascii.eqb_spec c ")") as [-> | Hclose].
    { apply IH; [| reflexivity]. apply Forall_app. split; [exact Hws |].
      constructor; [exact Hword |].
      constructor; [right; reflexivity | constructor]. }
    cbn [orb]. apply IH; [exact Hws |].
    unfold plain, string_forall in *.
    rewrite list_ascii_of_string_append, forallb_app, Hw. cbn.
    unfold delimiter.
    apply Ascii.eqb_neq in Hspace, Hopen, Hclose.
    now rewrite Hspace, Hopen, Hclose. }
  specialize (Hloop (list_ascii_of_string str) [] "" (List.Forall_nil _) eq_refl).
  destruct (fold_left lexer_step (list_ascii_of_string str) ([], ""))
    as [ws w]. cbn [fst] in Hloop.
  induction Hloop as [| t ws [-> | Ht] _ IH]; cbn [List.filter].
  - constructor.
  - exact IH.
  - destruct (String.eqb_spec t "") as [-> | _]; cbn [negb]; [exact IH |].
    constructor; assumption.
Qed.

(** X1. Every token of the lexer is a parenthesis on its own or a non-empty
    word without space or parenthesis in it. *)
Theorem lexer_tokens_ok (str : string) :
  Forall (fun t => token_ok t = true) (lexer str).
Proof.
  pose proof (lexer_words_ok str) as H.
  apply Forall_forall. intros t Ht.
  rewrite Forall_forall in H. exact (H t Ht).
Qed.

(** X2. The characters after the last delimiter are lost: a word at the end
    of the input, with nothing after it, yields no token. *)
Theorem lexer_drops_unterminated_word (str w : string) :
  plain w = true → lexer (String.append str w) = lexer str.
Proof.
  intros Hw. unfold lexer.
  rewrite list_ascii_of_string_append, fold_left_app.
  destruct (fold_left lexer_step (list_ascii_of_string str) ([], ""))
    as [ws cw].
  rewrite (lexer_loop_plain _ Hw). reflexivity.
Qed.

Lemma lexer_drops_unterminated_word_witness :
  lexer (String.append "(f x) " "done") = lexer "(f x) ".
Proof. apply (lexer_drops_unterminated_word "(f x) " "done"). reflexivity. Defined.

(** The characters of [join_spaces toks] followed by a space: every token
    followed by one space. *)
Lemma join_spaces_terminated (t : string) (toks : list string) :
  list_ascii_of_string (String.append (join_spaces (t :: toks)) " ")
  = flat_map (fun t => list_ascii_of_string t ++ [" "%char]) (t :: toks).
Proof.
  revert t. induction toks as [| u toks IH]; intros t.
  - cbn [join_spaces String.concat flat_map].
    now rewrite list_ascii_of_string_append, app_nil_r.
  - specialize (IH u). unfold join_spaces in *.
    change (String.concat " " (t :: u :: toks))
      with (String.append t (String.append " " (String.concat " " (u :: toks)))).
    set (f := fun t => list_ascii_of_string t ++ [" "%char]) in *.
    change (flat_map f (t :: u :: toks))
      with (f t ++ flat_map f (u :: toks)).
    rewrite <- IH. unfold f.
    rewrite !list_ascii_of_string_append. cbn [list_ascii_of_string].
    now rewrite <- !app_assoc.
Qed.

(** One token followed by a space, read from an empty current word, adds
    that token and nothing else that survives the filter. *)
Lemma lexer_loop_token (t : string) (ws : list string) :
  token_ok t = true →
  ∃ ws',
    fold_left lexer_step (list_ascii_of_string t ++ [" "%char]) (ws, "")
    = (ws ++ ws', "")
    ∧ List.filter (fun k => negb (String.eqb k "")) ws' = [t].
Proof.
  unfold token_ok. intros Ht.
  destruct (String.eqb_spec t "(") as [-> | _].
  { exists [""; "("; ""]. cbn. rewrite <- !app_assoc. split; reflexivity. }
  destruct (String.eqb_spec t ")") as [-> | _].
  { exists [""; ")"; ""]. cbn. rewrite <- !app_assoc. split; reflexivity. }
  cbn [orb] in Ht. apply andb_prop in Ht as [Hne Hplain].
  exists [t]. rewrite fold_left_app.
  rewrite (lexer_loop_plain _ Hplain).
  rewrite string_of_list_ascii_of_string. cbn. rewrite Hne.
  split; reflexivity.
Qed.

Lemma lexer_loop_tokens (toks : list string) :
  Forall (fun t => token_ok t = true) toks →
  ∀ ws,
    ∃ ws',
      fold_left lexer_step
        (flat_map (fun t => list_ascii_of_string t ++ [" "%char]) toks)
        (ws, "")
      = (ws ++ ws', "")
      ∧ List.filter (fun k => negb (String.eqb k "")) ws' = toks.
Proof.
  induction 1 as [| t toks Ht _ IH]; intros ws.
  - exists []. cbn. now rewrite app_nil_r.
  - cbn [flat_map]. rewrite fold_left_app.
    destruct (lexer_loop_token t ws Ht) as (w1 & -> & Hw1).
    destruct (IH (ws ++ w1)) as (w2 & -> & Hw2).
    exists (w1 ++ w2). rewrite <- app_assoc. split; [reflexivity |].
    now rewrite List.filter_app, Hw1, Hw2.
Qed.

(** Round trip of well-formed tokens: joined with single spaces and
    closed by one more space, they are lexed back as they were. *)
Lemma lexer_join_terminated (toks : list string) :
  Forall (fun t => token_ok t = true) toks →
  lexer (String.append (join_spaces toks) " ") = toks.
Proof.
  intros Htoks. destruct toks as [| t toks]; [reflexivity |].
  unfold lexer. rewrite join_spaces_terminated.
  destruct (lexer_loop_tokens (t :: toks) Htoks []) as (ws' & -> & Hws').
  exact Hws'.
Qed.

(** X3. Lexing, joining the tokens with single spaces, adding one space at
    the end and lexing again gives the same tokens, for every input. *)
Theorem lexer_rejoin_terminated (str : string) :
  lexer (String.append (join_spaces (lexer str)) " ") = lexer str.
Proof. apply lexer_join_terminated, lexer_words_ok. Qed.

(** ** Parser *)

(** [take_until] stops at the end of the tokens or in front of [until]. *)
Lemma take_until_stops fuel :
  ∀ next until l rest,
    take_until fuel next until = Ok (l, rest) →
    rest = [] ∨ ∃ rest', rest = until :: rest'.
Proof.
  induction fuel as [| fuel IH]; intros next until l rest H;
    [discriminate H |].
  cbn [take_until] in H.
  destruct next as [| t next0]; [injection H as _ <-; now left |].
  destruct (String.eqb_spec t until) as [-> | _].
  { injection H as _ <-. right. eexists; reflexivity. }
  destruct (parser fuel (t :: next0)) as [[[res next'] |] |];
    cbn [bind unpack] in H; try discriminate H.
  destruct (take_until fuel next' until) as [[total rest'] |] eqn:E;
    cbn [bind] in H; [| discriminate H].
  injection H as _ <-. eapply IH, E.
Qed.

Lemma parser_errors fuel :
  (∀ tokens e, parser fuel tokens = Raise e → parser_error e)
  ∧ (∀ next until e, take_until fuel next until = Raise e → parser_error e).
Proof.
  induction fuel as [| fuel [IHp IHt]].
  { split; intros; cbn in *; injection H as <-; right; right; reflexivity. }
  split.
  - intros [| x rest0] e H; cbn [parser] in H; [discriminate H |].
    assert (∀ (k : list AstNode → list string
                   → result (option (AstNode * list string))),
              (∀ l next, k l (")" :: next) = Raise e → parser_error e) →
              (let* '(l, next) := take_until fuel rest0 ")" in
               let* _ := assert_head_close next in k l next) = Raise e →
              parser_error e) as Hform.
    { intros k Hk Hr.
      destruct (take_until fuel rest0 ")") as [[l next] | e'] eqn:E;
        cbn [bind] in Hr.
      - apply take_until_stops in E as [-> | [rest' ->]].
        + injection Hr as <-. right. left. reflexivity.
        + cbn [assert_head_close bind] in Hr. eapply Hk, Hr.
      - injection Hr as <-. eapply IHt, E. }
    repeat match type of H with
           | (if ?c then _ else _) = _ => destruct c
           end; try discriminate H;
      (eapply Hform; [| exact H]); intros l next Hk; cbn [bind] in Hk;
      try discriminate Hk;
      match type of Hk with
      | bind (reduce _ ?l0) _ = _ =>
          destruct l0; cbn [reduce bind] in Hk; try discriminate Hk;
          injection Hk as <-; left; reflexivity
      end.
  - intros next until e H. cbn [take_until] in H.
    destruct next as [| t next0]; [discriminate H |].
    destruct (String.eqb t until); [discriminate H |].
    destruct (parser fuel (t :: next0)) as [[[res next'] |] | e'] eqn:Ep;
      cbn [bind unpack] in H.
    + destruct (take_until fuel next' until) as [[total rest] | e'] eqn:Et;
        cbn [bind] in H; [discriminate H |].
      injection H as <-. eapply IHt, Et.
    + injection H as <-. left. reflexivity.
    + injection H as <-. eapply IHp, Ep.
Qed.

(** On a token list that is not empty the parser answers with a node or
    raises. *)
Lemma parser_None fuel tokens :
  parser fuel tokens = Ok None → tokens = [].
Proof.
  destruct fuel as [| fuel]; [discriminate |].
  destruct tokens as [| x rest0]; [reflexivity |].
  cbn [parser]. intros H. exfalso.
  repeat match type of H with
         | (if ?c then _ else _) = _ => destruct c
         end; try discriminate H;
    destruct (take_until fuel rest0 ")") as [[l next] |]; cbn [bind] in H;
      try discriminate H;
    destruct (assert_head_close next); cbn [bind] in H; try discriminate H;
    match type of H with
    | bind ?r _ = _ => destruct r; cbn [bind] in H; discriminate H
    end.
Qed.

(** X4. The parser fails in three ways only: [TypeError] (an operator form
    without operands, on which [reduce] has nothing to fold), [IndexError]
    (the tokens end before the closing parenthesis) and the recursion
    limit. Its assertions on the closing parenthesis never fail, and on
    the empty token list it raises nothing: it returns [None]. *)
Theorem parser_raises_only (fuel : nat) (tokens : list string) (e : PyError) :
  parser (S fuel) [] = Ok None
  ∧ (parser fuel tokens = Raise e →
     e = TypeError ∨ e = IndexError ∨ e = RecursionError).
Proof.
  split; [reflexivity |]. intros H.
  exact (proj1 (parser_errors fuel) tokens e H).
Qed.

Lemma parser_raises_only_witness :
  IndexError = TypeError ∨ IndexError = IndexError
  ∨ IndexError = RecursionError.
Proof.
  apply (proj2 (parser_raises_only 10 ["("; "+"; "1"; "2"] IndexError)).
  reflexivity.
Defined.

(** X5. The parser answers [None] on the empty token list only; on any
    other list a call that returns hands back a node and has consumed at
    least one token: what it leaves is strictly shorter than what it was
    given. *)
Theorem parser_progress (fuel : nat) (tokens : list string) :
  (parser fuel tokens = Ok None → tokens = [])
  ∧ (∀ n rest,
       parser fuel tokens = Ok (Some (n, rest)) →
       List.length rest < List.length tokens).
Proof.
  split; [apply parser_None |].
  intros n rest H. exact (proj1 (parser_consumes fuel) tokens n rest H).
Qed.

Lemma parser_progress_witness :
  List.length [")"; "y"] < List.length ["+"; "1"; "2"; ")"; "y"].
Proof.
  apply (proj2 (parser_progress 10 ["+"; "1"; "2"; ")"; "y"])
           (binary Add (literal "1") (literal "2"))).
  reflexivity.
Defined.

(** ** Desugarer *)

Lemma flatten_operands_shape
    (flatten : Operand → nat → result (Operand * nat)) :
  ∀ operands c operands' c',
    map_state flatten operands c = Ok (operands', c') →
    List.length operands' = List.length operands.
Proof.
  induction operands as [| o operands IH]; intros c operands' c' H;
    cbn [map_state] in H.
  - injection H as <- _. reflexivity.
  - destruct (flatten o c) as [[o' c1] |]; cbn [bind] in H; [| discriminate H].
    destruct (map_state flatten operands c1) as [[os c2] |] eqn:E;
      cbn [bind] in H; [| discriminate H].
    injection H as <- _. cbn [List.length]. f_equal. eapply IH, E.
Qed.

Lemma flatten_tree_root (n : AstNode) :
  ∀ c n' c', flatten_tree n c = Ok (n', c') → single_child_group n' = false.
Proof.
  induction n as [i operands IH | i k _] using AstNode_nested_ind;
    intros c n' c' H.
  - assert (∀ j ops,
              (let* '(operands', c1) :=
                 map_state
                   (fun (k : Operand) (c : nat) =>
                      match k with
                      | OStr _ => Raise AttributeError
                      | ONode n =>
                          let* '(n', c') := flatten_tree n c in
                          Ok (ONode n', c')
                      end) ops c in
               Ok (Ast j operands', c1)) = Ok (n', c') →
              List.length ops ≠ 1 →
              single_child_group n' = false) as Hgeneric.
    { intros j ops Hm Hlen.
      destruct (map_state _ ops c) as [[ops' c1] |] eqn:E; cbn [bind] in Hm;
        [| discriminate Hm].
      injection Hm as <- _.
      apply flatten_operands_shape in E.
      destruct j; try reflexivity.
      destruct ops' as [| o1 [| o2 ops']]; try reflexivity.
      - cbn [List.length] in E. lia.
      - destruct o1; reflexivity. }
    assert (∀ fn_name lambda_params fn_body c0,
              (let* '(params', c1) :=
                 map_state
                   (fun (k : Operand) (c : nat) =>
                      match k with
                      | OStr _ => Raise AttributeError
                      | ONode n =>
                          let* '(n', c') := flatten_tree n c in
                          Ok (ONode n', c')
                      end) lambda_params c0 in
               let* '(body', c2) :=
                 match fn_body with
                 | OStr _ => Raise AttributeError
                 | ONode n =>
                     let* '(n', c') := flatten_tree n c1 in Ok (ONode n', c')
                 end in
               Ok (Ast Defun
                     [ONode fn_name; ONode (Ast LambdaParams params'); body'],
                   c2)) = Ok (n', c') →
              single_child_group n' = false) as Hdecl.
    { intros fn_name lambda_params fn_body c0 Hm.
      destruct (map_state _ lambda_params c0) as [[ps c1] |]; cbn [bind] in Hm;
        [| discriminate Hm].
      destruct fn_body as [s | b]; cbn [bind] in Hm; [discriminate Hm |].
      destruct (flatten_tree b c1) as [[b' c2] |]; cbn [bind] in Hm;
        [| discriminate Hm].
      injection Hm as <- _. reflexivity. }
    destruct i;
      try (cbn [flatten_tree] in H; injection H as <- _; reflexivity);
      try (cbn [flatten_tree] in H;
           destruct operands as [| o1 [| o2 operands]];
           solve [ eapply Hgeneric; [exact H | cbn [List.length]; lia]
                 | destruct (map_state _ [o1] c) as [[ops' c1] |] eqn:E;
                   cbn [bind] in H; [| discriminate H];
                   injection H as <- _; reflexivity ]).
    (* Unknown *)
    destruct operands as [| o1 [| o2 operands]].
    + cbn [flatten_tree] in H. eapply Hgeneric; [exact H | cbn; lia].
    + destruct o1 as [s | child].
      * cbn in H. discriminate H.
      * cbn [flatten_tree] in H.
        apply Forall_cons in IH as [Hchild _]. eapply Hchild, H.
    + cbn [flatten_tree] in H.
      repeat match type of H with
             | match ?x with _ => _ end = _ => destruct x
             | (if ?b then _ else _) = _ => destruct b
             | bind (assert_all_String1 ?l) _ = _ =>
                 destruct (assert_all_String1 l); cbn [bind] in H;
                 [| discriminate H]
             end;
        solve [ eapply Hgeneric; [exact H | cbn [List.length]; lia]
              | eapply Hdecl; exact H ].
  - destruct i; cbn [flatten_tree] in H; try discriminate H;
      injection H as <- _; reflexivity.
Qed.

(** X6. What the desugarer returns is never a group with a node as its only
    child: redundant nesting at the root is unwrapped however deep it
    is. *)
Theorem flatten_tree_unwraps_root (n : AstNode) (c : nat) (n' : AstNode)
    (c' : nat) :
  flatten_tree n c = Ok (n', c') → single_child_group n' = false.
Proof. apply flatten_tree_root. Qed.

Lemma flatten_tree_unwraps_root_witness :
  single_child_group (binary Add (literal "1") (literal "2")) = false.
Proof.
  apply (flatten_tree_unwraps_root
           (Ast Unknown
              [ONode (Ast Unknown
                        [ONode (binary Add (literal "1") (literal "2"))])])
           1 _ 1).
  reflexivity.
Defined.

(** ** Constraint generation *)

Lemma grows_refl st : grows st st.
Proof.
  split; [apply extends_refl |]. split; [| lia].
  exists []. now rewrite app_nil_r.
Qed.

Lemma grows_trans st1 st2 st3 : grows st1 st2 → grows st2 st3 → grows st1 st3.
Proof.
  intros (He1 & [cs1 Hc1] & Hn1) (He2 & [cs2 Hc2] & Hn2).
  split; [eapply extends_trans; eassumption |]. split; [| lia].
  exists (cs1 ++ cs2). now rewrite Hc2, Hc1, app_assoc.
Qed.

Lemma new_Type_str_grows s st a st' :
  new_Type_str s st = (a, st') → grows st st'.
Proof.
  unfold new_Type_str, Type_str, alloc. intros [= _ <-].
  split; [apply extends_alloc |]. split; [| cbn; lia].
  exists []. cbn. now rewrite app_nil_r.
Qed.

Lemma new_Type_list_grows l st a st' :
  new_Type_list l st = (a, st') → grows st st'.
Proof.
  unfold new_Type_list, Type_list, alloc. intros [= _ <-].
  split; [apply extends_alloc |]. split; [| cbn; lia].
  exists []. cbn. now rewrite app_nil_r.
Qed.

Lemma new_unknown_grows v st a st' :
  new_unknown v st = (a, st') → grows st st'.
Proof.
  unfold new_unknown, get_unknown_type_var.
  destruct v as [[| c s] |]; intros H;
    apply new_Type_str_grows in H; destruct H as (He & Hc & Hn);
    (split; [exact He |]; split; [exact Hc |]; cbn in *; lia).
Qed.

Lemma append_constraint_grows c st : grows st (append_constraint c st).
Proof.
  split; [apply extends_refl |]. split; [| cbn; lia].
  exists [c]. reflexivity.
Qed.

Lemma map_state_grows (f : Operand → InferState → result (pyref * InferState))
    (l : list Operand) :
  Forall (fun o => ∀ st r st', f o st = Ok (r, st') → grows st st') l →
  ∀ st rs st', map_state f l st = Ok (rs, st') → grows st st'.
Proof.
  induction 1 as [| o l Ho _ IH]; intros st rs st' H; cbn [map_state] in H.
  - injection H as _ <-. apply grows_refl.
  - destruct (f o st) as [[r st1] |] eqn:E1; cbn [bind] in H;
      [| discriminate H].
    destruct (map_state f l st1) as [[rs' st2] |] eqn:E2; cbn [bind] in H;
      [| discriminate H].
    injection H as _ <-.
    eapply grows_trans; [eapply Ho, E1 | eapply IH, E2].
Qed.

Lemma type_annotator_name_grows s st r st' :
  type_annotator (OStr s) st = Ok (r, st') → grows st st'.
Proof.
  cbn [type_annotator]. destruct (new_unknown (Some s) st) as [a st1] eqn:E.
  intros [= _ <-]. eapply new_unknown_grows, E.
Qed.

Lemma type_annotator_node_grows (n : AstNode) :
  ∀ st r st', type_annotator (ONode n) st = Ok (r, st') → grows st st'.
Proof.
  induction n as [i operands IH | i k _] using AstNode_nested_ind;
    intros st r st' H.
  - assert (Forall (fun o => ∀ st r st',
                        type_annotator o st = Ok (r, st') → grows st st')
              operands) as IHo.
    { eapply Forall_impl; [exact IH |]. intros [s | n] Hn; cbn in Hn.
      - intros st0 r0 st0'. apply type_annotator_name_grows.
      - exact Hn. }
    clear IH.
    assert (∀ o, o ∈ operands → ∀ st r st',
                 type_annotator o st = Ok (r, st') → grows st st') as Hin
      by (rewrite Forall_forall in IHo; exact IHo).
    assert (∀ l, (∀ o, o ∈ l → o ∈ operands) →
                 ∀ st rs st', map_state type_annotator l st = Ok (rs, st') →
                              grows st st') as Hmap.
    { intros l Hl. apply map_state_grows. apply Forall_forall.
      intros o Ho. apply Hin, Hl, Ho. }
    cbn [type_annotator] in H.
    repeat match type of H with
           | match ?x with _ => _ end = _ =>
               lazymatch x with
               | new_Type_str _ _ => fail
               | new_Type_list _ _ => fail
               | new_unknown _ _ => fail
               | type_annotator _ _ => fail
               | map_state _ _ _ => fail
               | last _ => fail
               | _ => destruct x
               end
           | (if ?b then _ else _) = _ => destruct b
           end;
      try discriminate H;
      try (injection H as _ <-; apply grows_refl);
      repeat match type of H with
             | context [new_Type_str ?s ?x] =>
                 let E := fresh "E" in
                 destruct (new_Type_str s x) as [? ?] eqn:E;
                 apply new_Type_str_grows in E
             | context [new_Type_list ?s ?x] =>
                 let E := fresh "E" in
                 destruct (new_Type_list s x) as [? ?] eqn:E;
                 apply new_Type_list_grows in E
             | context [new_unknown ?s ?x] =>
                 let E := fresh "E" in
                 destruct (new_unknown s x) as [? ?] eqn:E;
                 apply new_unknown_grows in E
             | context [type_annotator ?o ?x] =>
                 let E := fresh "E" in
                 destruct (type_annotator o x) as [[? ?] |] eqn:E;
                 cbn [bind] in H; [| discriminate H];
                 apply Hin in E; [| set_solver]
             | context [map_state type_annotator ?l ?x] =>
                 let E := fresh "E" in
                 destruct (map_state type_annotator l x) as [[? ?] |] eqn:E;
                 cbn [bind] in H; [| discriminate H];
                 apply Hmap in E; [| set_solver]
             | match last ?l with _ => _ end = _ => destruct (last l)
             end;
      try discriminate H;
      injection H as _ <-;
      eauto 10 using grows_refl, grows_trans, append_constraint_grows.
  - cbn [type_annotator] in H. destruct i; injection H as _ <-;
      apply grows_refl.
Qed.

(** X12. Constraint generation only adds: the [Type] objects that existed are
    left as they were, the constraints already collected stay at the
    front of the list in their order, and the counter never goes back. *)
Theorem type_annotator_grows (fn : Operand) (st : InferState) (r : pyref)
    (st' : InferState) :
  type_annotator fn st = Ok (r, st') → grows st st'.
Proof.
  destruct fn as [s | n];
    [apply type_annotator_name_grows | apply type_annotator_node_grows].
Qed.

Lemma type_annotator_grows_witness :
  grows (mkInferState [TStr "f"] 3 [])
    (mkInferState
       [TStr "f"; TStr "Unknown-x"; TStr "int"; TStr "Unknown-4";
        TList [PyType 1; PyType 2; PyType 3]; TStr "Operator+"]
       4 [mkTypeConstraint (PyType 5) (PyType 4)]).
Proof.
  apply (type_annotator_grows
           (ONode (Ast Add [ONode (Ast String1 [OStr "x"]);
                            ONode (literal "1")]))
           (mkInferState [TStr "f"] 3 []) (PyType 3)).
  reflexivity.
Defined.

(** ** Equality of [Type] objects and dictionaries *)

Lemma all_result_zip_swap {A} (f : A * A → result bool) (l l' : list A) :
  (∀ x y, x ∈ l → y ∈ l' → f (x, y) = f (y, x)) →
  all_result f (zip l l') = all_result f (zip l' l).
Proof.
  revert l'. induction l as [| x l IH]; intros [| y l'] Hf; try reflexivity.
  cbn [zip zip_with all_result].
  rewrite (Hf x y) by (apply elem_of_cons; now left).
  destruct (f (y, x)) as [[] |]; cbn [bind]; try reflexivity.
  apply IH. intros x0 y0 Hx Hy. apply Hf; apply elem_of_cons; now right.
Qed.

Lemma Type_eq_sym fuel : ∀ h a b, Type_eq fuel h a b = Type_eq fuel h b a.
Proof.
  induction fuel as [| fuel IH]; intros h a b; [reflexivity |].
  cbn [Type_eq]. unfold deref.
  destruct (h !! a) as [[s | l] |], (h !! b) as [[s' | l'] |]; cbn [bind];
    try reflexivity.
  - now rewrite String.eqb_sym.
  - rewrite (Nat.eqb_sym (List.length l') (List.length l)).
    destruct (Nat.eqb (List.length l) (List.length l')); cbn [negb];
      [| reflexivity].
    apply all_result_zip_swap. intros [| x] [| y] _ _; try reflexivity.
    rewrite (Nat.eqb_sym y x). destruct (Nat.eqb x y); [reflexivity |].
    apply IH.
Qed.

Lemma Type_eq_refl fuel h a :
  is_Some (h !! a) → Type_eq (S fuel) h a a = Ok true.
Proof.
  intros [c Hc]. cbn [Type_eq]. unfold deref. rewrite Hc. cbn [bind].
  destruct c as [s | l]; [now rewrite String.eqb_refl |].
  rewrite Nat.eqb_refl. cbn [negb]. clear Hc.
  induction l as [| [| x] l IH]; cbn [zip zip_with all_result bind];
    [reflexivity | exact IH |].
  rewrite Nat.eqb_refl. cbn [bind]. exact IH.
Qed.

(** X13. The equality of [Type] objects is symmetric, in its answer and in
    its failure, and an object equals itself without a single recursive
    call, so also when its structure is cyclic or deeper than the
    recursion limit allows. *)
Theorem Type_eq_symmetric_reflexive (fuel : nat) (h : list TypeCell)
    (a b : nat) :
  Type_eq fuel h a b = Type_eq fuel h b a
  ∧ (is_Some (h !! a) → Type_eq (S fuel) h a a = Ok true).
Proof. split; [apply Type_eq_sym | apply Type_eq_refl]. Qed.

Lemma Type_eq_symmetric_reflexive_witness :
  Type_eq 1 [TList [PyType 0]] 0 0 = Type_eq 1 [TList [PyType 0]] 0 0
  ∧ Type_eq 1 [TList [PyType 0]] 0 0 = Ok true.
Proof.
  destruct (Type_eq_symmetric_reflexive 0 [TList [PyType 0]] 0 0) as [_ H].
  split; [reflexivity |]. apply H. eexists; reflexivity.
Defined.

Lemma dict_find_replace fuel h k v :
  ∀ d i w,
    dict_find fuel h d k = Ok (Some (i, w)) →
    ∃ stored,
      d !! i = Some (stored, w)
      ∧ dict_find fuel h (<[i := (stored, v)]> d) k = Ok (Some (i, v)).
Proof.
  induction d as [| [stored0 w0] d IH]; intros i w H; cbn [dict_find] in H;
    [discriminate H |].
  destruct (same_key fuel h stored0 k) as [[] |] eqn:E; cbn [bind] in H;
    try discriminate H.
  - injection H as <- <-. exists stored0. split; [reflexivity |].
    change (<[0:=(stored0, v)]> ((stored0, w0) :: d))
      with ((stored0, v) :: d).
    cbn [dict_find]. rewrite E. reflexivity.
  - destruct (dict_find fuel h d k) as [[[j w1] |] |] eqn:Ed; cbn [bind] in H;
      try discriminate H.
    injection H as <- <-.
    destruct (IH j w1 eq_refl) as (stored & Hj & Hfind).
    exists stored. split; [exact Hj |].
    change (<[S j:=(stored, v)]> ((stored0, w0) :: d))
      with ((stored0, w0) :: <[j:=(stored, v)]> d).
    cbn [dict_find]. rewrite E. cbn [bind]. rewrite Hfind. reflexivity.
Qed.

(** The keys of a dictionary after [d[k] = v]. *)
Lemma dict_set_keys fuel h d k v d' :
  dict_set fuel h d k v = Ok d' →
  map fst d' = map fst d ∨ map fst d' = map fst d ++ [k].
Proof.
  unfold dict_set. intros H.
  destruct (dict_find fuel h d k) as [[[i w] |] |] eqn:E; cbn [bind] in H;
    try discriminate H; injection H as <-.
  - left. destruct (dict_find_replace fuel h k v d i w E) as (stored & Hi & _).
    rewrite Hi. rewrite list_fmap_insert. cbn [fst].
    apply list_insert_id. rewrite list_lookup_fmap, Hi. reflexivity.
  - right. now rewrite map_app.
Qed.

(** X14. Assignment and lookup: after [d[k] = v], [d[k]] is [v]; the
    assignment drops no key and moves none, and adds at most the key [k]
    at the end. *)
Theorem dict_get_after_set (fuel : nat) (h : list TypeCell)
    (d : list (nat * nat)) (k v : nat) (d' : list (nat * nat)) :
  dict_set fuel h d k v = Ok d' →
  dict_get fuel h d' (PyType k) = Ok v
  ∧ (map fst d' = map fst d ∨ map fst d' = map fst d ++ [k]).
Proof.
  intros H. split; [| eapply dict_set_keys, H].
  unfold dict_set in H. unfold dict_get.
  destruct (dict_find fuel h d k) as [[[i w] |] |] eqn:E; cbn [bind] in H;
    try discriminate H; injection H as <-.
  - destruct (dict_find_replace fuel h k v d i w E) as (stored & Hi & Hfind).
    rewrite Hi, Hfind. reflexivity.
  - rewrite (dict_find_app _ _ _ _ _ E). cbn [dict_find].
    unfold same_key. rewrite Nat.eqb_refl. reflexivity.
Qed.

Lemma dict_get_after_set_witness :
  dict_get 2 [TStr "Unknown-x"; TStr "int"; TStr "float"] [(0, 2)] (PyType 0)
  = Ok 2
  ∧ (map fst [(0, 2)] = map fst [(0, 1)]
     ∨ map fst [(0, 2)] = map fst [(0, 1)] ++ [0]).
Proof.
  apply (dict_get_after_set 2 [TStr "Unknown-x"; TStr "int"; TStr "float"]
           [(0, 1)] 0 2).
  reflexivity.
Defined.

(** ** The unifier *)

(** X18. The map that the loop of [unify_constraints] builds from the empty
    map has only type variables as keys: no key is an atomic base type,
    whatever the constraints are. *)
Theorem unify_constraints_binds_variables_only (fuel : nat)
    (constraints : list TypeConstraint) (h h' : list TypeCell)
    (solutions : list (nat * nat)) :
  iter_state (fun c st => unify_vars fuel (lhs c) (rhs c) st)
    constraints (h, []) = Ok (h', solutions) →
  keys_are_variables h' solutions = true.
Proof.
  intros H.
  eapply unify_constraints_keys_are_variables; [exact H | reflexivity].
Qed.

Lemma unify_constraints_binds_variables_only_witness :
  keys_are_variables
    [TStr "Unknown-x"; TStr "int"; TStr "int"; TStr "Unknown-x"] [(3, 2)]
  = true.
Proof.
  apply (unify_constraints_binds_variables_only 3
           [mkTypeConstraint (PyType 0) (PyType 1)]
           [TStr "Unknown-x"; TStr "int"]).
  reflexivity.
Defined.

Lemma advances_refl st : advances st st.
Proof. split; [apply extends_refl | reflexivity]. Qed.

Lemma advances_trans st1 st2 st3 :
  advances st1 st2 → advances st2 st3 → advances st1 st3.
Proof.
  intros [He1 Hk1] [He2 Hk2].
  split; [eapply extends_trans; eassumption | etrans; eassumption].
Qed.

Lemma unify_atomic_advances unify fuel a b st st' :
  (∀ one two, unify one two st = Ok st' → advances st st') →
  unify_atomic unify fuel a b st = Ok st' →
  advances st st'.
Proof.
  destruct st as [h solutions]. intros Hrec H.
  assert (∀ k v,
            (let* '(v', h0) := clone fuel h v in
             let* '(k', h0) := clone fuel h0 k in
             let* solutions0 := dict_set fuel h0 solutions k' v' in
             Ok (h0, solutions0)) = Ok st' →
            advances (h, solutions) st') as Hinsert.
  { intros k v Hins.
    destruct (clone fuel h v) as [[v' h1] |] eqn:Ev; cbn [bind] in Hins;
      [| discriminate Hins].
    destruct (clone fuel h1 k) as [[k' h2] |] eqn:Ek; cbn [bind] in Hins;
      [| discriminate Hins].
    destruct (dict_set fuel h2 solutions k' v') as [d |] eqn:Ed;
      cbn [bind] in Hins; [| discriminate Hins].
    injection Hins as <-.
    apply clone_kind in Ev as (Hext1 & _ & _).
    apply clone_kind in Ek as (Hext2 & _ & _).
    split; cbn [fst snd]; [eapply extends_trans; eassumption |].
    apply dict_set_keys in Ed as [-> | ->];
      [reflexivity | now apply prefix_app_r]. }
  unfold unify_atomic in H.
  destruct (Type_eq fuel h a b) as [[] |]; cbn [bind] in H;
    try discriminate H.
  { injection H as <-. apply advances_refl. }
  destruct (dict_contains fuel h solutions (PyType a)) as [[] |];
    cbn [bind] in H; try discriminate H.
  { destruct (dict_get fuel h solutions (PyType a)) as [v |];
      cbn [bind] in H; [| discriminate H].
    eapply Hrec, H. }
  destruct (dict_contains fuel h solutions (PyType b)) as [[] |];
    cbn [bind] in H; try discriminate H.
  { destruct (dict_get fuel h solutions (PyType b)) as [v |];
      cbn [bind] in H; [| discriminate H].
    eapply Hrec, H. }
  destruct (is_base_type fuel h a) as [base1 |]; cbn [bind] in H;
    [| discriminate H].
  destruct (is_base_type fuel h b) as [base2 |]; cbn [bind] in H;
    [| discriminate H].
  destruct base1, base2; try discriminate H; eapply Hinsert, H.
Qed.

Lemma unify_vars_advances_all fuel :
  ∀ one two st st', unify_vars fuel one two st = Ok st' → advances st st'.
Proof.
  induction fuel as [| fuel IH]; intros one two st st' H; [discriminate H |].
  assert (∀ l st0,
            iter_state (fun p st => unify_vars fuel (fst p) (snd p) st) l st0
            = Ok st' → advances st0 st') as Hiter.
  { induction l as [| p l IHl]; intros st0 Hl; cbn [iter_state] in Hl.
    - injection Hl as <-. apply advances_refl.
    - destruct (unify_vars fuel (fst p) (snd p) st0) as [st1 |] eqn:E;
        cbn [bind] in Hl; [| discriminate Hl].
      eapply advances_trans; [eapply IH, E | eapply IHl, Hl]. }
  cbn [unify_vars] in H.
  destruct one as [| a]; [discriminate H |].
  destruct two as [| b]; [discriminate H |].
  unfold deref in H.
  destruct (st.1 !! a) as [ca |]; [| discriminate H].
  destruct (st.1 !! b) as [cb |]; [| discriminate H].
  cbn [bind] in H.
  destruct ca as [s1 | l1], cb as [s2 | l2];
    try (eapply unify_atomic_advances; [| exact H];
         intros one two Hrec; eapply IH, Hrec).
  eapply Hiter, H.
Qed.

(** X16. Unification only adds: it changes no [Type] object that existed (what
    it inserts are clones), and the keys the map had stay where they
    were, new keys coming after them. *)
Theorem unify_vars_advances (fuel : nat) (one two : pyref)
    (st st' : list TypeCell * list (nat * nat)) :
  unify_vars fuel one two st = Ok st' → advances st st'.
Proof. apply unify_vars_advances_all. Qed.

Lemma unify_vars_advances_witness :
  advances ([TStr "Unknown-x"; TStr "int"], [])
    ([TStr "Unknown-x"; TStr "int"; TStr "int"; TStr "Unknown-x"], [(3, 2)]).
Proof.
  apply (unify_vars_advances 3 (PyType 0) (PyType 1)). reflexivity.
Defined.

(** A lookup that misses an atomic type in a map still misses a new
    object of the same name once the store has grown. *)
Lemma dict_find_atom_transfer fuel h h' a a' s :
  extends h h' →
  h !! a = Some (TStr s) →
  h' !! a' = Some (TStr s) →
  List.length h <= a' →
  ∀ d, dict_find (S fuel) h d a = Ok None →
       dict_find (S fuel) h' d a' = Ok None.
Proof.
  intros Hext Ha Ha' Hfresh.
  induction d as [| [stored v] d IH]; intros H; [reflexivity |].
  cbn [dict_find] in *.
  destruct (same_key (S fuel) h stored a) as [[] |] eqn:E; cbn [bind] in H;
    try discriminate H.
  destruct (dict_find (S fuel) h d a) as [[[i w] |] |] eqn:Ed; cbn [bind] in H;
    try discriminate H.
  rewrite (IH eq_refl). unfold same_key in *.
  destruct (Nat.eqb stored a); [discriminate E |].
  cbn [Type_eq] in E. unfold deref in E.
  destruct (h !! stored) as [c |] eqn:Hs; [| discriminate E].
  rewrite Ha in E. cbn [bind] in E.
  assert (stored ≠ a') as Hne by (apply lookup_lt_Some in Hs; lia).
  apply Nat.eqb_neq in Hne. rewrite Hne.
  cbn [Type_eq]. unfold deref. rewrite (Hext _ _ Hs), Ha'. cbn [bind].
  rewrite E. reflexivity.
Qed.

(** X17. Binding a variable: when an atomic type that is not base and is not
    a key of the map meets an atomic base type, on either side, the map
    gets one more entry, from a clone of the variable to a clone of the
    base type, and nothing else changes. *)
Theorem unify_vars_binds_variable (fuel : nat) (h : list TypeCell)
    (solutions : list (nat * nat)) (var base : nat) (x t : string) :
  h !! var = Some (TStr x) →
  h !! base = Some (TStr t) →
  is_base_name x = false →
  is_base_name t = true →
  keys_are_variables h solutions = true →
  dict_find (S fuel) h solutions var = Ok None →
  let bound :=
    Ok (h ++ [TStr t; TStr x],
        solutions ++ [(S (List.length h), List.length h)]) in
  unify_vars (S (S fuel)) (PyType var) (PyType base) (h, solutions) = bound
  ∧ unify_vars (S (S fuel)) (PyType base) (PyType var) (h, solutions) = bound.
Proof.
  intros Hvar Hbase Hx Ht Hkeys Hmiss bound.
  assert (String.eqb x t = false) as Hxt.
  { apply String.eqb_neq. intros ->. congruence. }
  assert (dict_find (S fuel) h solutions base = Ok None) as Hmissb
    by (eapply dict_find_base_atom; eassumption).
  assert (dict_set (S fuel) (h ++ [TStr t] ++ [TStr x]) solutions
            (S (List.length h)) (List.length h)
          = Ok (solutions ++ [(S (List.length h), List.length h)])) as Hset.
  { unfold dict_set.
    rewrite (dict_find_atom_transfer fuel h (h ++ [TStr t] ++ [TStr x])
               var (S (List.length h)) x); try assumption; try lia.
    - reflexivity.
    - intros i c Hi. rewrite lookup_app_l; [exact Hi |].
      eapply lookup_lt_Some, Hi.
    - rewrite lookup_app_r by lia.
      replace (S (List.length h) - List.length h) with 1 by lia.
      reflexivity. }
  assert (clone (S fuel) h base = Ok (List.length h, h ++ [TStr t])) as Hcb.
  { unfold clone. cbn [deepcopy memo_find]. unfold deref. rewrite Hbase.
    reflexivity. }
  assert (clone (S fuel) (h ++ [TStr t]) var
          = Ok (S (List.length h), (h ++ [TStr t]) ++ [TStr x])) as Hcv.
  { unfold clone. cbn [deepcopy memo_find]. unfold deref.
    rewrite lookup_app_l by (eapply lookup_lt_Some, Hvar). rewrite Hvar.
    cbn [bind]. unfold alloc. rewrite length_app. cbn [List.length].
    rewrite Nat.add_1_r. reflexivity. }
  rewrite <- app_assoc in Hcv.
  split.
  - cbn [unify_vars fst]. unfold deref. rewrite Hvar, Hbase. cbn [bind].
    unfold unify_atomic. cbn [Type_eq]. unfold deref.
    rewrite Hvar, Hbase. cbn [bind]. rewrite Hxt.
    unfold dict_contains. rewrite Hmiss, Hmissb. cbn [bind].
    rewrite bool_decide_eq_false_2 by (intros [? ?]; discriminate).
    cbn [is_base_type]. unfold deref. rewrite Hvar, Hbase. cbn [bind].
    rewrite Hx, Ht. rewrite Hcb. cbn [bind]. rewrite Hcv. cbn [bind].
    rewrite Hset. reflexivity.
  - cbn [unify_vars fst]. unfold deref. rewrite Hvar, Hbase. cbn [bind].
    unfold unify_atomic. cbn [Type_eq]. unfold deref.
    rewrite Hvar, Hbase. cbn [bind]. rewrite String.eqb_sym, Hxt.
    unfold dict_contains. rewrite Hmiss, Hmissb. cbn [bind].
    rewrite bool_decide_eq_false_2 by (intros [? ?]; discriminate).
    cbn [is_base_type]. unfold deref. rewrite Hvar, Hbase. cbn [bind].
    rewrite Hx, Ht. rewrite Hcb. cbn [bind]. rewrite Hcv. cbn [bind].
    rewrite Hset. reflexivity.
Qed.

Lemma unify_vars_binds_variable_witness :
  unify_vars 2 (PyType 0) (PyType 1) ([TStr "Unknown-x"; TStr "float"], [])
  = Ok ([TStr "Unknown-x"; TStr "float"] ++ [TStr "float"; TStr "Unknown-x"],
        [] ++ [(3, 2)])
  ∧ unify_vars 2 (PyType 1) (PyType 0) ([TStr "Unknown-x"; TStr "float"], [])
    = Ok ([TStr "Unknown-x"; TStr "float"] ++ [TStr "float"; TStr "Unknown-x"],
          [] ++ [(3, 2)]).
Proof.
  apply (unify_vars_binds_variable 0 [TStr "Unknown-x"; TStr "float"] []
           0 1 "Unknown-x" "float"); reflexivity.
Defined.

(** ** Simplification *)

Lemma demote_constraint_length fuel unified t h b h' :
  demote_constraint fuel unified t h = Ok (b, h') →
  List.length h' = List.length h.
Proof.
  unfold demote_constraint. intros H.
  destruct (dict_contains fuel h unified (PyType t)) as [[] |];
    cbn [bind] in H; try discriminate H; [| now injection H as _ <-].
  destruct (dict_get fuel h unified (PyType t)) as [v |]; cbn [bind] in H;
    [| discriminate H].
  destruct (Type_eq fuel h t v) as [[] |]; cbn [bind] in H;
    try discriminate H; [now injection H as _ <- |].
  unfold Type_set, deref in H.
  destruct (h !! v) as [c |]; cbn [bind] in H; [| discriminate H].
  destruct (h !! t) as [c' |]; cbn [bind] in H; [| discriminate H].
  injection H as _ <-. apply length_insert.
Qed.

Lemma convert_type_length fuel
    (converter : nat → list TypeCell → result (bool * list TypeCell)) :
  (∀ t h b h', converter t h = Ok (b, h') →
               List.length h' = List.length h) →
  ∀ base_t t h b h',
    convert_type fuel base_t t converter h = Ok (b, h') →
    List.length h' = List.length h.
Proof.
  intros Hconv.
  induction fuel as [| fuel IH]; intros base_t t h b h' H; [discriminate H |].
  cbn [convert_type] in H.
  destruct t as [| t]; [discriminate H |].
  destruct (Type_eq fuel h t base_t) as [[] |]; cbn [bind] in H;
    try discriminate H; [now injection H as _ <- |].
  destruct (deref h t) as [[s | types] |]; cbn [bind] in H;
    [eapply Hconv, H | | discriminate H].
  destruct (map_state _ types h) as [[answers h1] |] eqn:E; cbn [bind] in H;
    [| discriminate H].
  injection H as _ <-.
  revert h answers h1 E.
  induction types as [| T1 types IHt]; intros h answers h1 E;
    cbn [map_state] in E.
  - now injection E as _ <-.
  - destruct (convert_type fuel base_t T1 converter h) as [[b1 h2] |] eqn:E1;
      cbn [bind] in E; [| discriminate E].
    destruct (map_state _ types h2) as [[bs h3] |] eqn:E2; cbn [bind] in E;
      [| discriminate E].
    injection E as _ <-.
    rewrite (IHt _ _ _ E2). eapply IH, E1.
Qed.

Lemma simplify_pass_length fuel unified h h' :
  simplify_pass fuel unified h = Ok h' → List.length h' = List.length h.
Proof.
  unfold simplify_pass.
  match goal with |- iter_state ?f _ _ = _ → _ => set (step := f) end.
  generalize unified as entries. intros entries. revert h.
  induction entries as [| entry entries IH]; intros h H; cbn [iter_state] in H.
  - now injection H as <-.
  - destruct (step entry h) as [h1 |] eqn:E; cbn [bind] in H;
      [| discriminate H].
    rewrite (IH _ H). clear H IH. unfold step in E.
    destruct (dict_get fuel h unified (PyType entry.1)) as [v |];
      cbn [bind] in E; [| discriminate E].
    destruct (is_base_type fuel h v) as [[] |]; cbn [bind] in E;
      try discriminate E; [now injection E as <- |].
    destruct (convert_type fuel entry.1 (PyType v)
                (demote_constraint fuel unified) h) as [[b h2] |] eqn:Ec;
      cbn [bind] in E; [| discriminate E].
    injection E as <-.
    eapply convert_type_length; [| exact Ec].
    intros t h0 b0 h0'. apply demote_constraint_length.
Qed.

Lemma repeat_pass_length rounds (pass : list TypeCell → result (list TypeCell)) :
  (∀ h h', pass h = Ok h' → List.length h' = List.length h) →
  ∀ h h', repeat_pass rounds pass h = Ok h' →
          List.length h' = List.length h.
Proof.
  intros Hpass. induction rounds as [| rounds IH]; intros h h' H;
    cbn [repeat_pass] in H.
  - now injection H as <-.
  - destruct (pass h) as [h1 |] eqn:E; cbn [bind] in H; [| discriminate H].
    rewrite (IH _ _ H). eapply Hpass, E.
Qed.


(** X19. Simplification creates no [Type] object: it only overwrites the
    content of objects that are there, so the store keeps its size. *)
Theorem simplify_unification_allocates_nothing (fuel : nat)
    (unified : list (nat * nat)) (h h' : list TypeCell) :
  simplify_unification fuel unified h = Ok h' →
  List.length h' = List.length h.
Proof.
  unfold simplify_unification. apply repeat_pass_length.
  intros h0 h0'. apply simplify_pass_length.
Qed.

Lemma simplify_unification_allocates_nothing_witness :
  List.length [TStr "f"; TList [PyType 2]; TStr "int"; TStr "Unknown-x";
               TStr "int"]
  = List.length [TStr "f"; TList [PyType 2]; TStr "Unknown-x";
                 TStr "Unknown-x"; TStr "int"].
Proof.
  apply (simplify_unification_allocates_nothing 4 [(0, 1); (3, 4)]).
  reflexivity.
Defined.

(** X20. A map whose mapped types are all base-resolved is left alone: the
    simplification changes no object. *)
Theorem simplify_unification_resolved_fixed (fuel : nat)
    (unified : list (nat * nat)) (h : list TypeCell) :
  all_base fuel h unified = Ok true →
  simplify_unification fuel unified h = Ok h.
Proof.
  intros Hbase. apply all_result_true in Hbase.
  assert (simplify_pass fuel unified h = Ok h) as Hpass.
  { unfold simplify_pass.
    match goal with |- iter_state ?f _ _ = _ => set (step := f) end.
    match type of Hbase with Forall ?P _ => set (base := P) in Hbase end.
    revert Hbase. generalize unified as entries.
    induction entries as [| entry entries IH]; intros Hb; [reflexivity |].
    apply Forall_cons in Hb as [He Hb]. cbn [iter_state].
    assert (step entry h = Ok h) as ->; [| cbn [bind]; apply IH, Hb].
    unfold step, base in *.
    destruct (dict_get fuel h unified (PyType entry.1)) as [v |];
      cbn [bind] in *; [| discriminate He].
    rewrite He. reflexivity. }
  unfold simplify_unification.
  do 10 (cbn [repeat_pass]; rewrite Hpass; cbn [bind]). reflexivity.
Qed.

Lemma simplify_unification_resolved_fixed_witness :
  simplify_unification 3 [(0, 1)]
    [TStr "f"; TList [PyType 2; PyType 3]; TStr "int"; TStr "float"]
  = Ok [TStr "f"; TList [PyType 2; PyType 3]; TStr "int"; TStr "float"].
Proof.
  apply (simplify_unification_resolved_fixed 3 [(0, 1)]). reflexivity.
Defined.

(** ** Lowering and call resolution *)

(** X25. Lowering produces only constant loads, unresolved variable loads,
    unresolved calls and sequences: the body of a definition that
    [convert_to_baseast] returns holds no resolved load and no resolved
    call. *)
Theorem convert_to_baseast_only_lowers (fuel : nat) (a : FunctionStub)
    (type_solutions : list (nat * nat)) (st : list TypeCell * nat)
    (f : TypedFnDef.t) (st' : list TypeCell * nat) :
  convert_to_baseast fuel a type_solutions st = Ok (f, st') →
  lowered (TypedFnDef.body f) = true.
Proof. apply convert_to_baseast_lowered. Qed.

Lemma convert_to_baseast_only_lowers_witness :
  lowered
    (UnresolvedFnApp "Operator+"
       [UnresolvedVariableLoad (OStr "x"); ConstantLoad 8 (OStr "1")])
  = true.
Proof.
  apply (convert_to_baseast_only_lowers 3
           (mkFunctionStub (Ast Defun []) "inc" ["x"]
              (Ast Add [ONode (Ast String1 [OStr "x"]); ONode (literal "1")])
              [(0, 1); (2, 3)] (PyType 4))
           [(0, 1); (2, 3)]
           ([TStr "Unknown-x"; TStr "int"; TStr "inc";
             TList [PyType 5; PyType 6]; TStr "inc"; TStr "int"; TStr "int"],
            9)
           (TypedFnDef.mk "inc" [VariableDef.mk "x" 1]
              (UnresolvedFnApp "Operator+"
                 [UnresolvedVariableLoad (OStr "x"); ConstantLoad 8 (OStr "1")])
              3)
           ([TStr "Unknown-x"; TStr "int"; TStr "inc";
             TList [PyType 5; PyType 6]; TStr "inc"; TStr "int"; TStr "int";
             TStr "Unknown-x"; TStr "int"], 9)).
  reflexivity.
Defined.

Lemma recursive_resolver_direct names (a : BaseAst) :
  callees a = [] → recursive_resolver names a = Ok a.
Proof.
  induction a as [programs IH | v | v | t c | fn params IH | fn params IH]
    using BaseAst_nested_ind; intros Hc; try reflexivity;
    [| discriminate Hc].
  cbn [recursive_resolver callees] in *.
  assert (map_result (recursive_resolver names) programs = Ok programs) as ->;
    [| reflexivity].
  induction IH as [| p programs Hp _ IHp]; [reflexivity |].
  cbn [flat_map] in Hc. apply app_eq_nil in Hc as [Hcp Hcs].
  cbn [map_result]. rewrite (Hp Hcp). cbn [bind].
  rewrite (IHp Hcs). reflexivity.
Qed.

(** X27. Resolution is idempotent: resolving the definitions it returned once
    more, with the table built from them, gives them back unchanged. *)
Theorem resolve_all_function_calls_idempotent
    (functions functions' : list TypedFnDef.t) :
  Forall (fun f => lowered (TypedFnDef.body f) = true) functions →
  resolve_all_function_calls functions = Ok functions' →
  resolve_all_function_calls functions' = Ok functions'.
Proof.
  intros Hlow H. unfold resolve_all_function_calls in *.
  pose proof (map_result_definitions (function_name_map functions)
                functions Hlow) as Hans.
  rewrite H in Hans. destruct Hans as [Hres _].
  generalize (function_name_map functions') as names. intros names.
  clear H Hlow.
  induction Hres as [| f f' fs fs' Hf _ IH]; [reflexivity |].
  destruct Hf as (_ & _ & _ & _ & Hc).
  cbn [map_result]. unfold resolve_definition at 1.
  rewrite (recursive_resolver_direct names _ Hc). cbn [bind].
  rewrite IH. cbn [bind]. destruct f'; reflexivity.
Qed.

Lemma resolve_all_function_calls_idempotent_witness :
  ∃ functions',
    resolve_all_function_calls sample_definitions = Ok functions'
    ∧ resolve_all_function_calls functions' = Ok functions'.
Proof.
  eexists. split; [vm_compute; reflexivity |].
  apply (resolve_all_function_calls_idempotent sample_definitions).
  - repeat constructor.
  - vm_compute. reflexivity.
Defined.

(** X26. When several definitions have the same name, the table keeps the
    last one: no definition of that name comes after the one a name is
    mapped to. *)
Theorem function_name_map_last_wins (functions : list TypedFnDef.t)
    (n : string) (def j : nat) (f : TypedFnDef.t) :
  function_name_map functions !! n = Some def →
  functions !! j = Some f →
  TypedFnDef.name f = n →
  j <= def.
Proof.
  revert def j f.
  induction functions as [| g functions IH] using rev_ind;
    intros def j f Hmap Hj Hname.
  - discriminate Hj.
  - rewrite function_name_map_snoc in Hmap.
    destruct (decide (TypedFnDef.name g = n)) as [Hg | Hg].
    + rewrite Hg, lookup_insert_eq in Hmap. injection Hmap as <-.
      apply lookup_lt_Some in Hj. rewrite length_app in Hj.
      cbn [List.length] in Hj. lia.
    + rewrite lookup_insert_ne in Hmap by exact Hg.
      destruct (decide (j < List.length functions)) as [Hlt | Hge].
      * rewrite lookup_app_l in Hj by exact Hlt. eapply IH; eassumption.
      * rewrite lookup_app_r in Hj by lia.
        destruct (j - List.length functions) as [| k]; [| discriminate Hj].
        injection Hj as ->. contradiction.
Qed.

Lemma function_name_map_last_wins_witness : 0 <= 1.
Proof.
  apply (function_name_map_last_wins
           [TypedFnDef.mk "f" [] (ConstantLoad 0 (OStr "1")) 0;
            TypedFnDef.mk "f" [] (ConstantLoad 0 (OStr "2")) 0]
           "f" 1 0 (TypedFnDef.mk "f" [] (ConstantLoad 0 (OStr "1")) 0));
    reflexivity.
Defined.

(** ** Generated names and literals *)

Lemma decimal_inj (n m : nat) : decimal n = decimal m → n = m.
Proof.
  unfold decimal. intros H.
  assert (Some (Nat.to_uint n) = Some (Nat.to_uint m)) as Hu
    by (rewrite <- !NilEmpty.usu, H; reflexivity).
  injection Hu as Hu.
  rewrite <- (DecimalNat.Unsigned.of_to n), <- (DecimalNat.Unsigned.of_to m).
  now rewrite Hu.
Qed.

Lemma decimal_is_number (n : nat) : is_number (decimal n) = true.
Proof.
  unfold decimal. generalize (Nat.to_uint n) as d.
  unfold is_number, string_forall.
  induction d as [| d IH | d IH | d IH | d IH | d IH | d IH | d IH | d IH
                  | d IH | d IH]; cbn; try reflexivity; exact IH.
Qed.

Lemma string_append_inj (p a b : string) :
  String.append p a = String.append p b → a = b.
Proof.
  induction p as [| c p IH]; [intros H; exact H |].
  rewrite !string_append_cons. intros [= H]. apply IH, H.
Qed.

(** X8. Anonymous functions desugared at different values of the counter get
    different names. *)
Theorem gen_random_name_distinct (c1 c2 : nat) :
  c1 ≠ c2 → fst (gen_random_name c1) ≠ fst (gen_random_name c2).
Proof.
  intros Hne. unfold gen_random_name. cbn [fst].
  intros [= H]. apply string_append_inj, decimal_inj in H. lia.
Qed.

Lemma gen_random_name_distinct_witness :
  fst (gen_random_name 1) ≠ fst (gen_random_name 2).
Proof. apply (gen_random_name_distinct 1 2). lia. Defined.

(** X10. The names of type variables: two numbered variables taken at
    different values of the counter differ, and a variable named after an
    identifier token (a token that is not a number) differs from every
    numbered one. *)
Theorem get_unknown_type_var_distinct (c1 c2 : nat) (s : string) :
  (c1 ≠ c2 →
   fst (get_unknown_type_var None c1) ≠ fst (get_unknown_type_var None c2))
  ∧ (is_number s = false →
     fst (get_unknown_type_var (Some s) c1)
     ≠ fst (get_unknown_type_var None c2)).
Proof.
  split.
  - intros Hne. unfold get_unknown_type_var. cbn [fst].
    intros H. apply string_append_inj, decimal_inj in H. lia.
  - intros Hs. unfold get_unknown_type_var.
    destruct s as [| c s]; [discriminate Hs |]. cbn [fst].
    intros H. apply string_append_inj in H.
    pose proof (decimal_is_number (c2 + 1)) as Hd.
    rewrite <- H in Hd. congruence.
Qed.

Lemma get_unknown_type_var_distinct_witness :
  fst (get_unknown_type_var None 0) ≠ fst (get_unknown_type_var None 1)
  ∧ fst (get_unknown_type_var (Some "x1") 0)
    ≠ fst (get_unknown_type_var None 0).
Proof.
  destruct (get_unknown_type_var_distinct 0 1 "x1") as [H1 _].
  destruct (get_unknown_type_var_distinct 0 0 "x1") as [_ H2].
  split; [apply H1; lia | apply H2; reflexivity].
Defined.

Lemma isnumeric_no_dot (x : string) :
  is_number x = true → x ≠ "" → isnumeric x = negb (has_dot x).
Proof.
  intros Hnum Hne. unfold isnumeric, is_number, has_dot, string_forall in *.
  destruct (String.eqb_spec x "") as [-> | _]; [congruence |]. cbn [negb andb].
  induction (list_ascii_of_string x) as [| c cs IH]; [reflexivity |].
  cbn [forallb existsb] in *. apply andb_prop in Hnum as [Hc Hcs].
  rewrite (IH Hcs). unfold isnumeric_char.
  destruct (Ascii.eqb_spec c ".") as [-> | Hdot]; [reflexivity |].
  rewrite orb_false_r in Hc. rewrite Hc. reflexivity.
Qed.

(** X11. A numeric literal of the parser gets the base type [int] when its
    token has no dot and [float] when it has one or more; the type is a
    new object and nothing else changes. *)
Theorem type_annotator_literal (x : string) (st : InferState) :
  is_number x = true →
  x ≠ "" →
  type_annotator (ONode (literal x)) st
  = Ok (PyType (List.length (types st)),
        mkInferState
          (types st ++ [TStr (if has_dot x then "float" else "int")])
          (type_var_counter st) (constraints st)).
Proof.
  intros Hnum Hne. cbn [type_annotator literal].
  rewrite (isnumeric_no_dot x Hnum Hne), Hnum.
  destruct (has_dot x); reflexivity.
Qed.

Lemma type_annotator_literal_witness :
  type_annotator (ONode (literal "1.2.3")) (mkInferState [] 0 [])
  = Ok (PyType 0, mkInferState ([] ++ [TStr "float"]) 0 []).
Proof.
  apply (type_annotator_literal "1.2.3" (mkInferState [] 0 []));
    [reflexivity | discriminate].
Defined.

(** X7. Subtraction does not get through the desugarer: the tree that the
    parser builds for a [-] form with two operands or more has a negation
    at the right of its root, whose operand is stored bare, and
    [flatten_tree] raises on it. *)
Theorem flatten_tree_rejects_minus (x : AstNode) (xs : list AstNode)
    (c : nat) :
  xs ≠ [] →
  ∃ e, flatten_tree (fold_left (binary Add) (map negate xs) x) c = Raise e.
Proof.
  intros Hxs.
  destruct (exists_last Hxs) as (xs' & k & ->).
  rewrite map_app, fold_left_app. cbn [map fold_left].
  generalize (fold_left (binary Add) (map negate xs') x) as l. intros l.
  unfold binary, negate.
  cbn [flatten_tree map_state].
  destruct (flatten_tree l c) as [[l' c1] | e]; cbn [bind].
  - exists TypeError. reflexivity.
  - exists e. reflexivity.
Qed.

Lemma flatten_tree_rejects_minus_witness :
  ∃ e,
    flatten_tree
      (fold_left (binary Add) (map negate [literal "1"; literal "1"])
         (literal "5")) 1
    = Raise e.
Proof.
  apply (flatten_tree_rejects_minus (literal "5") [literal "1"; literal "1"] 1).
  discriminate.
Defined.

(** ** Cloning *)

Lemma shape_unfold d h a :
  shape (S d) h (PyType a)
  = match h !! a with
    | None => None
    | Some (TStr s) => Some (SStr s)
    | Some (TList l) => option_map SList (shape_list (shape d h) l)
    end.
Proof.
  cbn [shape]. destruct (h !! a) as [[s | l] |]; try reflexivity.
  f_equal. induction l as [| r l IH]; [reflexivity |].
  cbn [shape_list]. rewrite <- IH. reflexivity.
Qed.

Lemma shape_list_ext (f g : pyref → option TypeShape) (l : list pyref) :
  Forall (fun r => f r = g r) l → shape_list f l = shape_list g l.
Proof.
  induction 1 as [| r l Hr _ IH]; [reflexivity |].
  cbn [shape_list]. now rewrite Hr, IH.
Qed.

Lemma shape_list_Forall2 (f g : pyref → option TypeShape)
    (l l' : list pyref) :
  Forall2 (fun r r' => f r' = g r) l l' → shape_list f l' = shape_list g l.
Proof.
  induction 1 as [| r r' l l' Hr _ IH]; [reflexivity |].
  cbn [shape_list]. now rewrite Hr, IH.
Qed.

Lemma extends_length h h' : extends h h' → List.length h <= List.length h'.
Proof.
  intros Hext.
  destruct (decide (List.length h = 0)) as [-> | Hne]; [lia |].
  destruct (lookup_lt_is_Some_2 h (List.length h - 1)) as [c Hc]; [lia |].
  apply Hext, lookup_lt_Some in Hc. lia.
Qed.

(** In a closed store the structure of an object does not depend on what
    is allocated later. *)
Lemma shape_agree h h' :
  closed h → extends h h' →
  ∀ d r, valid_ref (List.length h) r → shape d h' r = shape d h r.
Proof.
  intros Hclosed Hext.
  induction d as [| d IH]; intros r Hr; [reflexivity |].
  destruct r as [| a]; [reflexivity |]. cbn [valid_ref] in Hr.
  rewrite !shape_unfold.
  destruct (lookup_lt_is_Some_2 h a Hr) as [c Hc].
  rewrite (Hext _ _ Hc), Hc. destruct c as [s | l]; [reflexivity |].
  f_equal. apply shape_list_ext.
  eapply Forall_impl; [exact (Hclosed _ _ Hc) |]. intros r Hv. apply IH, Hv.
Qed.

(** Replacing the elements of a list by elements of the same structures
    changes no structure. *)
Lemma shape_replace h a' l l' :
  h !! a' = Some (TList l) →
  (∀ d, shape_list (shape d h) l' = shape_list (shape d h) l) →
  ∀ d r, shape d (<[a' := TList l']> h) r = shape d h r.
Proof.
  intros Ha' Hsame.
  induction d as [| d IH]; intros r; [reflexivity |].
  destruct r as [| x]; [reflexivity |].
  rewrite !shape_unfold.
  destruct (decide (a' = x)) as [<- | Hne].
  - rewrite list_lookup_insert_eq by (eapply lookup_lt_Some, Ha').
    rewrite Ha'. f_equal. rewrite <- Hsame.
    apply shape_list_ext, Forall_forall. intros r _. apply IH.
  - rewrite list_lookup_insert_ne by exact Hne.
    destruct (h !! x) as [[s | l0] |]; try reflexivity.
    f_equal. apply shape_list_ext, Forall_forall. intros r _. apply IH.
Qed.

Lemma closed_alloc h c :
  closed h →
  match c with
  | TStr _ => True
  | TList l => Forall (valid_ref (List.length h)) l
  end →
  closed (h ++ [c]).
Proof.
  intros Hclosed Hc i l Hi. rewrite length_app. cbn [List.length].
  assert (Forall (valid_ref (List.length h)) l) as Hl.
  { destruct (decide (i < List.length h)) as [Hlt | Hge].
    - rewrite lookup_app_l in Hi by exact Hlt. eapply Hclosed, Hi.
    - rewrite lookup_app_r in Hi by lia.
      destruct (i - List.length h) as [| k]; [| discriminate Hi].
      injection Hi as ->. exact Hc. }
  eapply Forall_impl; [exact Hl |]. intros [| x] Hx; cbn in *; [exact I | lia].
Qed.

Lemma closed_insert h a l :
  closed h → Forall (valid_ref (List.length h)) l →
  closed (<[a := TList l]> h).
Proof.
  intros Hclosed Hl i l0 Hi. rewrite length_insert.
  destruct (decide (a = i)) as [<- | Hne].
  - destruct (decide (a < List.length h)) as [Hlt | Hge].
    + rewrite list_lookup_insert_eq in Hi by exact Hlt.
      injection Hi as <-. exact Hl.
    + rewrite list_insert_ge in Hi by lia. eapply Hclosed, Hi.
  - rewrite list_lookup_insert_ne in Hi by exact Hne. eapply Hclosed, Hi.
Qed.

Lemma copy_invariant_extends h0 h h' m :
  copy_invariant h0 h m → closed h' → extends h h' →
  copy_invariant h0 h' m.
Proof.
  intros (Hclosed & Hext0 & Hmemo) Hclosed' Hext.
  split; [exact Hclosed' |].
  split; [eapply extends_trans; eassumption |].
  intros x y Hxy. destruct (Hmemo x y Hxy) as (Hx & Hy & Hshape).
  split; [exact Hx |]. split.
  - apply extends_length in Hext. lia.
  - intros d. rewrite <- Hshape. apply shape_agree; assumption.
Qed.

Section deepcopy_structure.
Variable h0 : list TypeCell.
Hypothesis Hclosed0 : closed h0.

Lemma copied_extends h h' r r' :
  closed h → extends h h' → copied h0 h r r' → copied h0 h' r r'.
Proof.
  intros Hc Hext [Hv Hs]. split.
  - apply extends_length in Hext. destruct r'; cbn in *; [exact I | lia].
  - intros d. rewrite <- Hs. apply shape_agree; assumption.
Qed.

Lemma copied_same_shape h l l' :
  extends h0 h →
  Forall (valid_ref (List.length h0)) l →
  Forall2 (copied h0 h) l l' →
  ∀ d, Forall2 (fun r r' => shape d h r' = shape d h r) l l'.
Proof.
  intros Hext Hl Hc d. induction Hc as [| r r' l l' [_ Hr] _ IH];
    [constructor |].
  apply Forall_cons in Hl as [Hv Hl]. constructor; [| apply IH, Hl].
  rewrite Hr. symmetry. apply shape_agree; assumption.
Qed.

Lemma copy_elements_structure
    (copy : nat → list TypeCell * list (nat * nat)
            → result (nat * (list TypeCell * list (nat * nat)))) :
  (∀ a h m a' h' m',
     a < List.length h0 → copy_invariant h0 h m →
     copy a (h, m) = Ok (a', (h', m')) →
     copy_invariant h0 h' m' ∧ extends h h' ∧ copied h0 h' (PyType a) (PyType a')) →
  ∀ l h m l' h' m',
    Forall (valid_ref (List.length h0)) l →
    copy_invariant h0 h m →
    map_state (copy_element copy) l (h, m) = Ok (l', (h', m')) →
    copy_invariant h0 h' m' ∧ extends h h' ∧ Forall2 (copied h0 h') l l'.
Proof.
  intros Hcopy.
  induction l as [| r l IH]; intros h m l' h' m' Hl Hinv H;
    cbn [map_state] in H.
  - injection H as <- <- <-.
    split; [exact Hinv |]. split; [apply extends_refl | constructor].
  - apply Forall_cons in Hl as [Hr Hl].
    destruct (copy_element copy r (h, m)) as [[r' [h1 m1]] |] eqn:Er;
      cbn [bind] in H; [| discriminate H].
    destruct (map_state _ l (h1, m1)) as [[rs [h2 m2]] |] eqn:El;
      cbn [bind] in H; [| discriminate H].
    injection H as <- <- <-.
    assert (copy_invariant h0 h1 m1 ∧ extends h h1 ∧ copied h0 h1 r r')
      as (Hinv1 & Hext1 & Hr').
    { destruct r as [| a]; cbn [copy_element] in Er.
      - injection Er as <- <- <-.
        split; [exact Hinv |]. split; [apply extends_refl |].
        split; [exact I | intros [| d]; reflexivity].
      - destruct (copy a (h, m)) as [[a' [h1' m1']] |] eqn:Ea;
          cbn [bind] in Er; [| discriminate Er].
        injection Er as <- <- <-. eapply Hcopy; eassumption. }
    destruct (IH _ _ _ _ _ Hl Hinv1 El) as (Hinv2 & Hext2 & Hrs).
    split; [exact Hinv2 |].
    split; [eapply extends_trans; eassumption |].
    constructor; [| exact Hrs].
    eapply copied_extends; [exact (proj1 Hinv1) | exact Hext2 | exact Hr'].
Qed.

Lemma deepcopy_structure fuel :
  ∀ a h m a' h' m',
    a < List.length h0 → copy_invariant h0 h m →
    deepcopy fuel a (h, m) = Ok (a', (h', m')) →
    copy_invariant h0 h' m' ∧ extends h h' ∧ copied h0 h' (PyType a) (PyType a').
Proof.
  induction fuel as [| fuel IH]; intros a h m a' h' m' Ha Hinv H;
    [discriminate H |].
  pose proof H as Hext. apply deepcopy_extends in Hext.
  cbn [deepcopy] in H.
  destruct (memo_find m a) as [y |] eqn:Hm.
  { injection H as <- <- <-.
    split; [exact Hinv |]. split; [apply extends_refl |].
    destruct Hinv as (_ & _ & Hmemo).
    destruct (Hmemo a y Hm) as (_ & Hy & Hs). split; [exact Hy | exact Hs]. }
  destruct Hinv as (Hclosed & Hext0 & Hmemo).
  destruct (lookup_lt_is_Some_2 h0 a Ha) as [c Hc0].
  pose proof (Hext0 _ _ Hc0) as Hc.
  unfold deref in H. rewrite Hc in H. cbn [bind] in H. unfold alloc in H.
  pose proof (extends_length _ _ Hext0) as Hlen0.
  assert (match c with
          | TStr _ => True
          | TList l => Forall (valid_ref (List.length h0)) l
          end) as Hvalid0.
  { destruct c as [s | l]; [exact I | exact (Hclosed0 _ _ Hc0)]. }
  assert (closed (h ++ [c])) as Hclosed1.
  { apply closed_alloc; [exact Hclosed |].
    destruct c as [s | l]; [exact I |].
    eapply Forall_impl; [exact Hvalid0 |].
    intros [| x] Hx; cbn in *; [exact I | lia]. }
  assert (h0 !! a = (h ++ [c]) !! List.length h) as Hcell.
  { rewrite Hc0, lookup_app_r by lia. now rewrite Nat.sub_diag. }
  assert (∀ d, shape d (h ++ [c]) (PyType (List.length h))
               = shape d h0 (PyType a)) as Hplace.
  { intros [| d]; [reflexivity |]. rewrite !shape_unfold, <- Hcell, Hc0.
    destruct c as [s | l]; [reflexivity |].
    f_equal. apply shape_list_ext.
    eapply Forall_impl; [exact Hvalid0 |]. intros r Hr.
    apply shape_agree; [exact Hclosed0 | | exact Hr].
    eapply extends_trans; [exact Hext0 | apply extends_alloc]. }
  assert (copy_invariant h0 (h ++ [c]) ((a, List.length h) :: m)) as Hinv1.
  { split; [exact Hclosed1 |].
    split; [eapply extends_trans; [exact Hext0 | apply extends_alloc] |].
    intros x y Hxy. cbn [memo_find] in Hxy.
    destruct (Nat.eqb_spec a x) as [<- | Hne].
    - injection Hxy as <-. split; [exact Ha |].
      split; [rewrite length_app; cbn; lia | exact Hplace].
    - destruct (Hmemo x y Hxy) as (Hx & Hy & Hs).
      split; [exact Hx |]. split; [rewrite length_app; cbn; lia |].
      intros d. rewrite <- Hs.
      apply shape_agree; [exact Hclosed | apply extends_alloc | exact Hy]. }
  destruct c as [s | types].
  { injection H as <- <- <-.
    split; [exact Hinv1 |]. split; [exact Hext |].
    split; [cbn; rewrite length_app; cbn; lia | exact Hplace]. }
  destruct (map_state _ types _) as [[types' [h2 m2]] |] eqn:Emap;
    cbn [bind] in H; [| discriminate H].
  injection H as <- <- <-.
  destruct (copy_elements_structure (deepcopy fuel) IH _ _ _ _ _ _
              Hvalid0 Hinv1 Emap) as (Hinv2 & Hext2 & Hcopied).
  destruct Hinv2 as (Hclosed2 & Hext02 & Hmemo2).
  assert (h2 !! List.length h = Some (TList types)) as Hcell2.
  { apply Hext2. rewrite lookup_app_r by lia. now rewrite Nat.sub_diag. }
  assert (∀ d, shape_list (shape d h2) types'
               = shape_list (shape d h2) types) as Hsame.
  { intros d. apply shape_list_Forall2.
    apply copied_same_shape; assumption. }
  pose proof (shape_replace h2 (List.length h) types types' Hcell2 Hsame)
    as Hreplace.
  assert (List.length h < List.length h2) as Hlt
    by (eapply lookup_lt_Some, Hcell2).
  split; [| split; [exact Hext |]].
  - split.
    { apply closed_insert; [exact Hclosed2 |].
      eapply Forall2_Forall_r; [exact Hcopied |].
      apply Forall_forall. intros r _ r' [Hv _]. exact Hv. }
    split; [eapply extends_trans; [exact Hext0 | exact Hext] |].
    intros x y Hxy. destruct (Hmemo2 x y Hxy) as (Hx & Hy & Hs).
    split; [exact Hx |]. split; [now rewrite length_insert |].
    intros d. now rewrite Hreplace.
  - split; [cbn; now rewrite length_insert |].
    intros d. rewrite Hreplace, <- Hplace.
    apply shape_agree; [exact Hclosed1 | exact Hext2 |].
    cbn. rewrite length_app. cbn. lia.
Qed.
End deepcopy_structure.

(** *** The copy is isomorphic to the original *)

Lemma memo_grows_refl m : memo_grows m m.
Proof. intros x y H. exact H. Qed.

Lemma memo_grows_trans m1 m2 m3 :
  memo_grows m1 m2 → memo_grows m2 m3 → memo_grows m1 m3.
Proof. intros H12 H23 x y H. apply H23, H12, H. Qed.

Lemma memo_grows_cons m a a' :
  memo_find m a = None → memo_grows m ((a, a') :: m).
Proof.
  intros Hm x y H. cbn [memo_find].
  destruct (Nat.eqb_spec a x) as [-> | _]; [congruence | exact H].
Qed.

Lemma renamed_grows m m' r r' :
  memo_grows m m' → renamed m r r' → renamed m' r r'.
Proof.
  intros Hm. destruct r as [| x], r' as [| y]; cbn [renamed]; auto.
Qed.

Lemma copy_done_grows h0 h h' m m' x y :
  memo_grows m m' → h' !! y = h !! y →
  copy_done h0 h m x y → copy_done h0 h' m' x y.
Proof.
  intros Hm Hy (c & c' & Hc & Hc' & Hcell).
  exists c, c'. split; [exact Hc |]. split; [now rewrite Hy |].
  destruct c as [s | l], c' as [s' | l']; cbn [cell_copied] in *;
    try assumption.
  eapply Forall2_impl; [exact Hcell |].
  intros r r'. apply renamed_grows, Hm.
Qed.

Lemma copying_alloc h0 h m open a c open1 :
  copying h0 h m open →
  memo_find m a = None →
  a < List.length h0 →
  (∀ x, x ∈ open → x ∈ open1) →
  (a ∈ open1
   ∨ copy_done h0 (h ++ [c]) ((a, List.length h) :: m) a (List.length h)) →
  copying h0 (h ++ [c]) ((a, List.length h) :: m) open1.
Proof.
  intros (Hext & Hmemo & Hinj) Hm Ha Hopen Hstatus.
  pose proof (extends_length _ _ Hext) as Hlen.
  pose proof (memo_grows_cons m a (List.length h) Hm) as Hgrows.
  split; [eapply extends_trans; [exact Hext | apply extends_alloc] |].
  split.
  - intros x y Hxy. cbn [memo_find] in Hxy. rewrite length_app. cbn.
    destruct (Nat.eqb_spec a x) as [<- | Hne].
    + injection Hxy as <-. repeat split; try lia. exact Hstatus.
    + destruct (Hmemo x y Hxy) as (Hx & Hy0 & Hy & Hst).
      repeat split; try lia.
      destruct Hst as [Hst | Hst]; [left; apply Hopen, Hst | right].
      eapply copy_done_grows; [exact Hgrows | | exact Hst].
      apply lookup_app_l, Hy.
  - intros x1 x2 y H1 H2. cbn [memo_find] in H1, H2.
    destruct (Nat.eqb_spec a x1) as [<- | Hne1],
             (Nat.eqb_spec a x2) as [<- | Hne2]; [reflexivity | | |].
    + injection H1 as <-. destruct (Hmemo _ _ H2) as (_ & _ & Hy & _). lia.
    + injection H2 as <-. destruct (Hmemo _ _ H1) as (_ & _ & Hy & _). lia.
    + eapply Hinj; eassumption.
Qed.

Section deepcopy_isomorphic.
Variable h0 : list TypeCell.
Hypothesis Hclosed0 : closed h0.

Lemma copy_elements_isomorphic open
    (copy : nat → list TypeCell * list (nat * nat)
            → result (nat * (list TypeCell * list (nat * nat)))) :
  (∀ a h m a' h' m',
     a < List.length h0 → copying h0 h m open →
     copy a (h, m) = Ok (a', (h', m')) →
     copying h0 h' m' open ∧ memo_grows m m' ∧ memo_find m' a = Some a') →
  ∀ l h m l' h' m',
    Forall (valid_ref (List.length h0)) l →
    copying h0 h m open →
    map_state (copy_element copy) l (h, m) = Ok (l', (h', m')) →
    copying h0 h' m' open ∧ memo_grows m m' ∧ Forall2 (renamed m') l l'.
Proof.
  intros Hcopy.
  induction l as [| r l IH]; intros h m l' h' m' Hl Hinv H;
    cbn [map_state] in H.
  - injection H as <- <- <-.
    split; [exact Hinv |]. split; [apply memo_grows_refl | constructor].
  - apply Forall_cons in Hl as [Hr Hl].
    destruct (copy_element copy r (h, m)) as [[r' [h1 m1]] |] eqn:Er;
      cbn [bind] in H; [| discriminate H].
    destruct (map_state _ l (h1, m1)) as [[rs [h2 m2]] |] eqn:El;
      cbn [bind] in H; [| discriminate H].
    injection H as <- <- <-.
    assert (copying h0 h1 m1 open ∧ memo_grows m m1 ∧ renamed m1 r r')
      as (Hinv1 & Hgrows1 & Hr').
    { destruct r as [| a]; cbn [copy_element] in Er.
      - injection Er as <- <- <-.
        split; [exact Hinv |]. split; [apply memo_grows_refl | exact I].
      - destruct (copy a (h, m)) as [[a' [h1' m1']] |] eqn:Ea;
          cbn [bind] in Er; [| discriminate Er].
        injection Er as <- <- <-. eapply Hcopy; eassumption. }
    destruct (IH _ _ _ _ _ Hl Hinv1 El) as (Hinv2 & Hgrows2 & Hrs).
    split; [exact Hinv2 |].
    split; [eapply memo_grows_trans; eassumption |].
    constructor; [| exact Hrs]. eapply renamed_grows; eassumption.
Qed.

Lemma deepcopy_isomorphic fuel :
  ∀ open a h m a' h' m',
    a < List.length h0 → copying h0 h m open →
    deepcopy fuel a (h, m) = Ok (a', (h', m')) →
    copying h0 h' m' open ∧ memo_grows m m' ∧ memo_find m' a = Some a'.
Proof.
  induction fuel as [| fuel IH]; intros open a h m a' h' m' Ha Hinv H;
    [discriminate H |].
  cbn [deepcopy] in H.
  destruct (memo_find m a) as [y |] eqn:Hm.
  { injection H as <- <- <-.
    split; [exact Hinv |]. split; [apply memo_grows_refl | exact Hm]. }
  pose proof Hinv as (Hext0 & Hmemo & Hinj).
  destruct (lookup_lt_is_Some_2 h0 a Ha) as [c Hc0].
  pose proof (Hext0 _ _ Hc0) as Hc.
  unfold deref in H. rewrite Hc in H. cbn [bind] in H. unfold alloc in H.
  pose proof (memo_grows_cons m a (List.length h) Hm) as Hgrows1.
  assert (memo_find ((a, List.length h) :: m) a = Some (List.length h))
    as Hfind1 by (cbn [memo_find]; now rewrite Nat.eqb_refl).
  destruct c as [s | types].
  { injection H as <- <- <-.
    split; [| split; [exact Hgrows1 | exact Hfind1]].
    apply (copying_alloc h0 h m open a (TStr s) open Hinv Hm Ha);
      [auto |]. right.
    exists (TStr s), (TStr s). split; [exact Hc0 |].
    split; [| reflexivity].
    rewrite lookup_app_r by lia. now rewrite Nat.sub_diag. }
  destruct (map_state _ types _) as [[types' [h2 m2]] |] eqn:Emap;
    cbn [bind] in H; [| discriminate H].
  injection H as <- <- <-.
  assert (copying h0 (h ++ [TList types]) ((a, List.length h) :: m)
            (a :: open)) as Hinv1.
  { apply (copying_alloc h0 h m open a (TList types) (a :: open)
             Hinv Hm Ha).
    - intros x Hx. now right.
    - left. now left. }
  destruct (copy_elements_isomorphic (a :: open) (deepcopy fuel)
              (IH (a :: open)) _ _ _ _ _ _ (Hclosed0 _ _ Hc0) Hinv1 Emap)
    as ((Hext2 & Hmemo2 & Hinj2) & Hgrows2 & Htypes').
  pose proof (Hgrows2 _ _ Hfind1) as Hfind2.
  destruct (Hmemo2 _ _ Hfind2) as (_ & Hlen0 & Hlt2 & _).
  split; [| split; [eapply memo_grows_trans; eassumption | exact Hfind2]].
  split; [| split; [| exact Hinj2]].
  - intros i c0 Hi. rewrite list_lookup_insert_ne; [apply Hext2, Hi |].
    apply lookup_lt_Some in Hi. lia.
  - intros x y Hxy. destruct (Hmemo2 x y Hxy) as (Hx & Hy0 & Hy & Hst).
    rewrite length_insert. repeat split; try assumption.
    destruct (decide (x = a)) as [-> | Hne].
    + right. assert (y = List.length h) as -> by congruence.
      exists (TList types), (TList types'). split; [exact Hc0 |].
      split; [apply list_lookup_insert_eq, Hlt2 | exact Htypes'].
    + destruct Hst as [Hst | Hst].
      * left. apply elem_of_cons in Hst as [-> | Hst]; [congruence | exact Hst].
      * right. eapply copy_done_grows; [apply memo_grows_refl | | exact Hst].
        apply list_lookup_insert_ne. intros <-.
        apply Hne. eapply Hinj2; eassumption.
Qed.

Lemma not_copied_grows m m' n :
  memo_grows m m' → not_copied m' n <= not_copied m n.
Proof.
  intros Hm. induction n as [| k IH]; cbn [not_copied]; [lia |].
  destruct (memo_find m k) as [y |] eqn:E.
  - rewrite (Hm _ _ E). lia.
  - destruct (memo_find m' k); lia.
Qed.

Lemma not_copied_cons m a a' n :
  memo_find m a = None → a < n →
  not_copied ((a, a') :: m) n < not_copied m n.
Proof.
  intros Hm. induction n as [| k IH]; intros Ha; [lia |].
  cbn [not_copied].
  destruct (decide (a = k)) as [-> | Hne].
  - rewrite Hm. cbn [memo_find]. rewrite Nat.eqb_refl.
    pose proof (not_copied_grows m ((k, a') :: m) k
                  (memo_grows_cons m k a' Hm)). lia.
  - assert (memo_find ((a, a') :: m) k = memo_find m k) as ->.
    { cbn [memo_find]. destruct (Nat.eqb_spec a k); [congruence | reflexivity]. }
    assert (a < k) as Hlt by lia. specialize (IH Hlt).
    destruct (memo_find m k); lia.
Qed.

Lemma not_copied_nil n : not_copied [] n = n.
Proof. induction n as [| k IH]; cbn [not_copied memo_find]; [reflexivity | lia]. Qed.

Lemma deepcopy_memo_grows fuel :
  ∀ a h m a' h' m',
    deepcopy fuel a (h, m) = Ok (a', (h', m')) → memo_grows m m'.
Proof.
  induction fuel as [| fuel IH]; intros a h m a' h' m' H; [discriminate H |].
  cbn [deepcopy] in H.
  destruct (memo_find m a) as [y |] eqn:Hm.
  { injection H as _ _ <-. apply memo_grows_refl. }
  destruct (deref h a) as [c |]; cbn [bind] in H; [| discriminate H].
  unfold alloc in H.
  pose proof (memo_grows_cons m a (List.length h) Hm) as Hgrows1.
  destruct c as [s | types]; [injection H as _ _ <-; exact Hgrows1 |].
  destruct (map_state _ types _) as [[types' [h2 m2]] |] eqn:Emap;
    cbn [bind] in H; [| discriminate H].
  injection H as _ _ <-.
  eapply memo_grows_trans; [exact Hgrows1 |]. clear Hgrows1 Hm.
  revert Emap. generalize (h ++ [TList types]) ((a, List.length h) :: m).
  generalize types'. clear types'.
  induction types as [| r l IHl]; intros l' h1 m1 E; cbn [map_state] in E.
  - injection E as _ _ <-. apply memo_grows_refl.
  - destruct (copy_element (deepcopy fuel) r (h1, m1))
      as [[r' [h3 m3]] |] eqn:Er; cbn [bind] in E; [| discriminate E].
    destruct (map_state _ l (h3, m3)) as [[rs [h4 m4]] |] eqn:El;
      cbn [bind] in E; [| discriminate E].
    injection E as _ <- <-.
    eapply memo_grows_trans; [| eapply IHl, El].
    destruct r as [| u]; cbn [copy_element] in Er.
    + injection Er as _ _ <-. apply memo_grows_refl.
    + destruct (deepcopy fuel u (h1, m1)) as [[u' [h5 m5]] |] eqn:Eu;
        cbn [bind] in Er; [| discriminate Er].
      injection Er as _ _ <-. eapply IH, Eu.
Qed.

(** With more fuel than there are objects left to copy, the copy
    returns. *)
Lemma deepcopy_returns fuel :
  ∀ a h m,
    extends h0 h → a < List.length h0 →
    not_copied m (List.length h0) < fuel →
    ∃ r, deepcopy fuel a (h, m) = Ok r.
Proof.
  induction fuel as [| fuel IH]; intros a h m Hext Ha Hfuel; [lia |].
  cbn [deepcopy].
  destruct (memo_find m a) as [y |] eqn:Hm; [eexists; reflexivity |].
  destruct (lookup_lt_is_Some_2 h0 a Ha) as [c Hc0].
  unfold deref. rewrite (Hext _ _ Hc0). cbn [bind]. unfold alloc.
  destruct c as [s | types]; [eexists; reflexivity |].
  pose proof (not_copied_cons m a (List.length h) _ Hm Ha) as Hless.
  assert (∀ l h1 m1,
            Forall (valid_ref (List.length h0)) l →
            extends h0 h1 →
            not_copied m1 (List.length h0) < fuel →
            ∃ r, map_state (copy_element (deepcopy fuel)) l (h1, m1) = Ok r)
    as Hloop.
  { induction l as [| r l IHl]; intros h1 m1 Hl Hext1 Hfuel1;
      cbn [map_state]; [eexists; reflexivity |].
    apply Forall_cons in Hl as [Hr Hl].
    assert (∃ r' h2 m2,
              copy_element (deepcopy fuel) r (h1, m1) = Ok (r', (h2, m2))
              ∧ extends h0 h2
              ∧ not_copied m2 (List.length h0) < fuel)
      as (r' & h2 & m2 & -> & Hext2 & Hfuel2).
    { destruct r as [| u]; cbn [copy_element].
      - exists PyNone, h1, m1. repeat split; assumption.
      - destruct (IH u h1 m1 Hext1 Hr Hfuel1) as [[u' [h2 m2]] Eu].
        rewrite Eu. cbn [bind]. exists (PyType u'), h2, m2.
        split; [reflexivity |]. split.
        + eapply extends_trans; [exact Hext1 | eapply deepcopy_extends, Eu].
        + pose proof (not_copied_grows _ _ (List.length h0)
                        (deepcopy_memo_grows _ _ _ _ _ _ _ Eu)). lia. }
    cbn [bind].
    destruct (IHl h2 m2 Hl Hext2 Hfuel2) as [[rs [h3 m3]] ->].
    cbn [bind]. eexists; reflexivity. }
  destruct (Hloop types (h ++ [TList types]) ((a, List.length h) :: m))
    as [[types' [h2 m2]] ->].
  - exact (Hclosed0 _ _ Hc0).
  - eapply extends_trans; [exact Hext | apply extends_alloc].
  - lia.
  - cbn [bind]. eexists; reflexivity.
Qed.
End deepcopy_isomorphic.

(** X15. In a store without dangling references, cloning an object
    returns as soon as the recursion limit exceeds the number of objects.
    What it returns is a new object, every object that existed is left as
    it was, and the store stays without dangling references. The clone is
    an isomorphic copy of everything the original reaches: there is a
    one-to-one correspondence of the objects reached and new objects that
    sends the original to the clone, and under which the content of every
    copy is the content of its original with each element replaced by its
    copy. So no element is dropped, an object that is shared has one copy
    that is shared in the same way, and a cycle is copied as a cycle. *)
Theorem clone_structure (fuel : nat) (h : list TypeCell) (a : nat) :
  closed h →
  (a < List.length h → List.length h < fuel →
   ∃ a' h', clone fuel h a = Ok (a', h'))
  ∧ (∀ a' h',
       clone fuel h a = Ok (a', h') →
       a' = List.length h
       ∧ extends h h'
       ∧ closed h'
       ∧ (∀ d, shape d h' (PyType a') = shape d h (PyType a))
       ∧ ∃ m, memo_find m a = Some a' ∧ isomorphic_copy h h' m).
Proof.
  intros Hclosed. split.
  { intros Ha Hfuel. unfold clone.
    destruct (deepcopy_returns h Hclosed fuel a h [])
      as [[a' [h' m']] ->];
      [apply extends_refl | exact Ha | now rewrite not_copied_nil |].
    cbn [bind]. eexists _, _. reflexivity. }
  intros a' h' H. unfold clone in H.
  destruct (deepcopy fuel a (h, [])) as [[x [h1 m1]] |] eqn:E;
    cbn [bind] in H; [| discriminate H].
  injection H as <- <-.
  assert (a < List.length h ∧ x = List.length h) as [Ha Hx].
  { destruct fuel as [| fuel]; [discriminate E |].
    cbn [deepcopy memo_find] in E. unfold deref in E.
    destruct (h !! a) as [c |] eqn:Hc; [| discriminate E].
    split; [eapply lookup_lt_Some, Hc |].
    cbn [bind] in E. unfold alloc in E.
    destruct c as [s | l]; [now injection E as <- _ _ |].
    destruct (map_state _ l _) as [[l' [h2 m2]] |]; cbn [bind] in E;
      [| discriminate E].
    now injection E as <- _ _. }
  assert (copy_invariant h h []) as Hinv.
  { split; [exact Hclosed |]. split; [apply extends_refl |].
    intros x0 y Hxy. discriminate Hxy. }
  destruct (deepcopy_structure h Hclosed fuel _ _ _ _ _ _ Ha Hinv E)
    as ((Hclosed1 & _ & _) & Hext & _ & Hshape).
  split; [exact Hx |]. split; [exact Hext |]. split; [exact Hclosed1 |].
  split; [exact Hshape |].
  assert (copying h h [] []) as Hstart.
  { split; [apply extends_refl |].
    split; intros; discriminate. }
  destruct (deepcopy_isomorphic h Hclosed fuel [] _ _ _ _ _ _ Ha Hstart E)
    as ((_ & Hmemo & Hinj) & _ & Hfind).
  exists m1. split; [exact Hfind |]. split; [| exact Hinj].
  intros x0 y Hxy. destruct (Hmemo x0 y Hxy) as (Hx0 & Hy0 & _ & Hst).
  split; [exact Hx0 |]. split; [exact Hy0 |].
  destruct Hst as [Hst | Hst]; [| exact Hst].
  apply elem_of_nil in Hst. destruct Hst.
Qed.

Lemma clone_structure_witness :
  let h := [TStr "int"; TList [PyType 0; PyType 0; PyType 1]] in
  let h' := h ++ [TList [PyType 3; PyType 3; PyType 2]; TStr "int"] in
  (∃ a' h1, clone 3 h 1 = Ok (a', h1))
  ∧ 2 = List.length h
  ∧ extends h h'
  ∧ closed h'
  ∧ ∃ m, memo_find m 1 = Some 2 ∧ isomorphic_copy h h' m.
Proof.
  intros h h'.
  assert (closed h) as Hclosed.
  { intros [| [| i]] l Hi; cbn in Hi; try discriminate Hi.
    injection Hi as <-. repeat constructor. }
  destruct (clone_structure 3 h 1 Hclosed) as [Hreturns Hcopy].
  split; [apply Hreturns; cbn; lia |].
  destruct (Hcopy 2 h' eq_refl) as (Hnew & Hext & Hclosed' & _ & Hiso).
  split; [exact Hnew |]. split; [exact Hext |].
  split; [exact Hclosed' | exact Hiso].
Defined.

(** ** Merging two maps *)

Lemma dict_set_same fuel h d k v :
  dict_get fuel h d (PyType k) = Ok v → dict_set fuel h d k v = Ok d.
Proof.
  unfold dict_get, dict_set.
  destruct (dict_find fuel h d k) as [[[i w] |] |] eqn:E; cbn [bind];
    try discriminate.
  intros [= ->].
  destruct (dict_find_replace fuel h k v d i v E) as (stored & Hi & _).
  rewrite Hi. f_equal. apply list_insert_id, Hi.
Qed.

(** X21. Merging with the empty map changes nothing: when every key of the
    map can be looked up in it, [unify_type_dicts(one, {})] is [one] and
    no object is created or changed. *)
Theorem unify_type_dicts_empty (fuel : nat) (one : list (nat * nat))
    (h : list TypeCell) :
  Forall (fun entry : nat * nat =>
            ∃ v, dict_get fuel h one (PyType (fst entry)) = Ok v) one →
  unify_type_dicts fuel one [] h = Ok (h, one).
Proof.
  intros Hkeys. unfold unify_type_dicts.
  assert (∀ entries : list (nat * nat),
            Forall (fun entry : nat * nat =>
                      ∃ v, dict_get fuel h one (PyType (fst entry)) = Ok v)
              entries →
            iter_state
              (fun entry st => merge_key_of_one fuel one [] (fst entry) st)
              entries (h, one) = Ok (h, one)) as Hloop.
  { induction entries as [| entry entries IH]; intros Hall; [reflexivity |].
    apply Forall_cons in Hall as [[v Hv] Hall]. cbn [iter_state].
    assert (merge_key_of_one fuel one [] (fst entry) (h, one) = Ok (h, one))
      as ->; [| cbn [bind]; apply IH, Hall].
    unfold merge_key_of_one. rewrite Hv. cbn [bind].
    rewrite (dict_set_same _ _ _ _ _ Hv). cbn [bind dict_contains dict_find].
    rewrite Hv. cbn [bind]. rewrite (dict_set_same _ _ _ _ _ Hv).
    reflexivity. }
  rewrite (Hloop one Hkeys). reflexivity.
Qed.

Lemma unify_type_dicts_empty_witness :
  unify_type_dicts 2 [(0, 1); (2, 1)] []
    [TStr "Unknown-x"; TStr "int"; TStr "Unknown-y"]
  = Ok ([TStr "Unknown-x"; TStr "int"; TStr "Unknown-y"], [(0, 1); (2, 1)]).
Proof.
  apply (unify_type_dicts_empty 2 [(0, 1); (2, 1)]).
  repeat constructor; eexists; reflexivity.
Defined.

Lemma advances_set fuel h d k v d' :
  dict_set fuel h d k v = Ok d' → advances (h, d) (h, d').
Proof.
  intros H. split; [apply extends_refl |]. cbn [snd].
  apply dict_set_keys in H as [-> | ->]; [reflexivity | now apply prefix_app_r].
Qed.

Lemma merge_key_of_one_advances fuel one two o st st' :
  merge_key_of_one fuel one two o st = Ok st' → advances st st'.
Proof.
  destruct st as [h ret]. unfold merge_key_of_one. intros H.
  destruct (dict_get fuel h ret (PyType o)) as [v |]; cbn [bind] in H;
    [| discriminate H].
  destruct (dict_set fuel h ret o v) as [ret1 |] eqn:E1; cbn [bind] in H;
    [| discriminate H].
  apply advances_set in E1.
  destruct (dict_contains fuel h two (PyType o)) as [[] |]; cbn [bind] in H;
    try discriminate H.
  - destruct (dict_get fuel h ret1 (PyType o)) as [v1 |]; cbn [bind] in H;
      [| discriminate H].
    destruct (dict_get fuel h two (PyType o)) as [v2 |]; cbn [bind] in H;
      [| discriminate H].
    eapply advances_trans; [exact E1 | eapply unify_vars_advances_all, H].
  - destruct (dict_get fuel h one (PyType o)) as [v0 |]; cbn [bind] in H;
      [| discriminate H].
    destruct (dict_set fuel h ret1 o v0) as [ret2 |] eqn:E2; cbn [bind] in H;
      [| discriminate H].
    injection H as <-.
    eapply advances_trans; [exact E1 | eapply advances_set, E2].
Qed.

Lemma merge_key_of_two_advances fuel one two o st st' :
  merge_key_of_two fuel one two o st = Ok st' → advances st st'.
Proof.
  destruct st as [h ret]. unfold merge_key_of_two. intros H.
  destruct (dict_contains fuel h one (PyType o)) as [[] |]; cbn [bind] in H;
    try discriminate H.
  - injection H as <-. apply advances_refl.
  - destruct (dict_get fuel h two (PyType o)) as [v |]; cbn [bind] in H;
      [| discriminate H].
    destruct (dict_set fuel h ret o v) as [ret1 |] eqn:E; cbn [bind] in H;
      [| discriminate H].
    injection H as <-. eapply advances_set, E.
Qed.

Lemma iter_state_advances {A}
    (f : A → list TypeCell * list (nat * nat)
         → result (list TypeCell * list (nat * nat))) (l : list A) :
  (∀ x st st', f x st = Ok st' → advances st st') →
  ∀ st st', iter_state f l st = Ok st' → advances st st'.
Proof.
  intros Hf. induction l as [| x l IH]; intros st st' H; cbn [iter_state] in H.
  - injection H as <-. apply advances_refl.
  - destruct (f x st) as [st1 |] eqn:E; cbn [bind] in H; [| discriminate H].
    eapply advances_trans; [eapply Hf, E | eapply IH, H].
Qed.

Lemma unify_type_dicts_only_adds fuel one two h h' merged :
  unify_type_dicts fuel one two h = Ok (h', merged) →
  advances (h, one) (h', merged).
Proof.
  unfold unify_type_dicts. intros H.
  destruct (iter_state _ one (h, one)) as [st1 |] eqn:E1; cbn [bind] in H;
    [| discriminate H].
  eapply advances_trans.
  - eapply iter_state_advances; [| exact E1].
    intros entry st st'. apply merge_key_of_one_advances.
  - eapply iter_state_advances; [| exact H].
    intros entry st st'. apply merge_key_of_two_advances.
Qed.

(** X22. The merge only adds: no [Type] object that existed is changed, and
    the keys of the first map are the first keys of the merged map, in
    their order. *)
Theorem unify_type_dicts_advances (fuel : nat) (one two : list (nat * nat))
    (h h' : list TypeCell) (merged : list (nat * nat)) :
  unify_type_dicts fuel one two h = Ok (h', merged) →
  advances (h, one) (h', merged).
Proof. apply unify_type_dicts_only_adds. Qed.

Lemma unify_type_dicts_advances_witness :
  advances
    ([TStr "sqrt"; TList [PyType 2; PyType 3]; TStr "Unknown-x";
      TStr "Unknown-1"; TStr "sqrt"; TList [PyType 6; PyType 7];
      TStr "float"; TStr "float"],
     [(0, 1)])
    ([TStr "sqrt"; TList [PyType 2; PyType 3]; TStr "Unknown-x";
      TStr "Unknown-1"; TStr "sqrt"; TList [PyType 6; PyType 7];
      TStr "float"; TStr "float"; TStr "float"; TStr "Unknown-x";
      TStr "float"; TStr "Unknown-1"],
     [(0, 1); (9, 8); (11, 10)]).
Proof.
  apply (unify_type_dicts_advances 4 [(0, 1)] [(4, 5)]). reflexivity.
Defined.

(** X23. Taking over the types of another function changes only the map of
    the stub: its name, parameters, body and type stay, no [Type] object
    that existed is changed, and the keys the stub's map had are the
    first keys of its new map, in their order. *)
Theorem unify_with_other_frame (fuel : nat) (self : FunctionStub)
    (other : list (nat * nat)) (h : list TypeCell) (self' : FunctionStub)
    (h' : list TypeCell) :
  unify_with_other fuel self other h = Ok (self', h') →
  node self' = node self
  ∧ name self' = name self
  ∧ params_list self' = params_list self
  ∧ body self' = body self
  ∧ my_type self' = my_type self
  ∧ advances (h, intermediate_types self) (h', intermediate_types self').
Proof.
  unfold unify_with_other. intros H.
  destruct (dict_eq fuel h other (intermediate_types self)) as [[] |];
    cbn [bind] in H; try discriminate H.
  - injection H as <- <-. repeat split; try reflexivity. apply extends_refl.
  - destruct (unify_type_dicts fuel (intermediate_types self) other h)
      as [[h1 merged] |] eqn:E; cbn [bind] in H; [| discriminate H].
    injection H as <- <-. cbn [node name params_list body my_type
                               intermediate_types].
    repeat split; try reflexivity;
      apply unify_type_dicts_only_adds in E; apply E.
Qed.

Lemma unify_with_other_frame_witness :
  ∃ self' h',
    unify_with_other 10 identity_annotated [(1, 8)] identity_store
    = Ok (self', h')
    ∧ intermediate_types self' = [(7, 4); (1, 8)]
    ∧ node self' = node identity_annotated
    ∧ name self' = name identity_annotated
    ∧ params_list self' = params_list identity_annotated
    ∧ body self' = body identity_annotated
    ∧ my_type self' = my_type identity_annotated
    ∧ advances (identity_store, intermediate_types identity_annotated)
        (h', intermediate_types self').
Proof.
  eexists _, _. split; [vm_compute; reflexivity |].
  split; [reflexivity |].
  apply (unify_with_other_frame 10 identity_annotated [(1, 8)]
           identity_store).
  vm_compute. reflexivity.
Defined.

(** ** Instantiation works on a copy *)

Lemma fresh_from_alloc n open h c :
  fresh_from n open h →
  match c with
  | TStr _ => True
  | TList l => Forall (above n) l ∨ List.length h ∈ open
  end →
  fresh_from n open (h ++ [c]).
Proof.
  intros Hfresh Hc i l Hi Hopen Hl.
  destruct (decide (i < List.length h)) as [Hlt | Hge].
  - rewrite lookup_app_l in Hl by exact Hlt. eapply Hfresh; eassumption.
  - rewrite lookup_app_r in Hl by lia.
    destruct (i - List.length h) as [| k] eqn:Ek; [| discriminate Hl].
    injection Hl as ->. destruct Hc as [Hc | Hc]; [exact Hc |].
    exfalso. apply Hopen. replace i with (List.length h) by lia. exact Hc.
Qed.

Lemma copy_elements_fresh n open
    (copy : nat → list TypeCell * list (nat * nat)
            → result (nat * (list TypeCell * list (nat * nat)))) :
  (∀ a h m a' h' m',
     n <= List.length h → fresh_from n open h → memo_above n m →
     copy a (h, m) = Ok (a', (h', m')) →
     n <= a' ∧ n <= List.length h' ∧ fresh_from n open h' ∧ memo_above n m') →
  ∀ l h m l' h' m',
    n <= List.length h → fresh_from n open h → memo_above n m →
    map_state (copy_element copy) l (h, m) = Ok (l', (h', m')) →
    Forall (above n) l' ∧ n <= List.length h' ∧ fresh_from n open h'
    ∧ memo_above n m'.
Proof.
  intros Hcopy.
  induction l as [| r l IH]; intros h m l' h' m' Hlen Hfresh Hmemo H;
    cbn [map_state] in H.
  - injection H as <- <- <-. repeat split; [constructor | assumption ..].
  - destruct (copy_element copy r (h, m)) as [[r' [h1 m1]] |] eqn:Er;
      cbn [bind] in H; [| discriminate H].
    destruct (map_state _ l (h1, m1)) as [[rs [h2 m2]] |] eqn:El;
      cbn [bind] in H; [| discriminate H].
    injection H as <- <- <-.
    assert (above n r' ∧ n <= List.length h1 ∧ fresh_from n open h1
            ∧ memo_above n m1) as (Hr' & Hlen1 & Hfresh1 & Hmemo1).
    { destruct r as [| a]; cbn [copy_element] in Er.
      - injection Er as <- <- <-. repeat split; assumption.
      - destruct (copy a (h, m)) as [[a' [h1' m1']] |] eqn:Ea;
          cbn [bind] in Er; [| discriminate Er].
        injection Er as <- <- <-. eapply Hcopy; eassumption. }
    destruct (IH _ _ _ _ _ Hlen1 Hfresh1 Hmemo1 El) as (Hrs & Hrest).
    split; [constructor; assumption | exact Hrest].
Qed.

Lemma deepcopy_fresh n fuel :
  ∀ open a h m a' h' m',
    n <= List.length h → fresh_from n open h → memo_above n m →
    deepcopy fuel a (h, m) = Ok (a', (h', m')) →
    n <= a' ∧ n <= List.length h' ∧ fresh_from n open h' ∧ memo_above n m'.
Proof.
  induction fuel as [| fuel IH]; intros open a h m a' h' m' Hlen Hfresh Hmemo H;
    [discriminate H |].
  cbn [deepcopy] in H.
  destruct (memo_find m a) as [y |] eqn:Hm.
  { injection H as <- <- <-. split; [eapply Hmemo, Hm |].
    repeat split; assumption. }
  destruct (deref h a) as [c |]; cbn [bind] in H; [| discriminate H].
  unfold alloc in H.
  assert (memo_above n ((a, List.length h) :: m)) as Hmemo1.
  { intros x y Hxy. cbn [memo_find] in Hxy.
    destruct (Nat.eqb a x); [injection Hxy as <-; exact Hlen |].
    eapply Hmemo, Hxy. }
  assert (n <= List.length (h ++ [c])) as Hlen1
    by (rewrite length_app; cbn; lia).
  destruct c as [s | types].
  { injection H as <- <- <-. split; [exact Hlen |]. split; [exact Hlen1 |].
    split; [apply fresh_from_alloc; [exact Hfresh | exact I] | exact Hmemo1]. }
  destruct (map_state _ types _) as [[types' [h2 m2]] |] eqn:Emap;
    cbn [bind] in H; [| discriminate H].
  injection H as <- <- <-.
  assert (fresh_from n (List.length h :: open) (h ++ [TList types]))
    as Hfresh1.
  { apply fresh_from_alloc; [| right; left].
    intros i l Hi Hopen. apply Hfresh; [exact Hi |].
    intros Hin. apply Hopen. now right. }
  destruct (copy_elements_fresh n (List.length h :: open) (deepcopy fuel)
              (IH _) _ _ _ _ _ _ Hlen1 Hfresh1 Hmemo1 Emap)
    as (Htypes' & Hlen2 & Hfresh2 & Hmemo2).
  split; [exact Hlen |]. split; [now rewrite length_insert |].
  split; [| exact Hmemo2].
  intros i l Hi Hopen Hl.
  destruct (decide (List.length h = i)) as [<- | Hne].
  - destruct (decide (List.length h < List.length h2)) as [Hlt | Hge].
    + rewrite list_lookup_insert_eq in Hl by exact Hlt.
      injection Hl as <-. exact Htypes'.
    + rewrite list_insert_ge in Hl by lia.
      apply lookup_lt_Some in Hl. lia.
  - rewrite list_lookup_insert_ne in Hl by exact Hne.
    eapply Hfresh2; [exact Hi | | exact Hl].
    intros Hin. apply elem_of_cons in Hin as [-> | Hin];
      [now apply Hne | now apply Hopen].
Qed.

Lemma clone_fresh n fuel h a a' h' :
  n <= List.length h → fresh_from n [] h →
  clone fuel h a = Ok (a', h') →
  n <= a' ∧ n <= List.length h' ∧ fresh_from n [] h'.
Proof.
  intros Hlen Hfresh H. unfold clone in H.
  destruct (deepcopy fuel a (h, [])) as [[x [h1 m1]] |] eqn:E;
    cbn [bind] in H; [| discriminate H].
  injection H as <- <-.
  assert (memo_above n []) as Hmemo by (intros x0 y Hxy; discriminate Hxy).
  destruct (deepcopy_fresh n fuel [] _ _ _ _ _ _ Hlen Hfresh Hmemo E)
    as (Ha' & Hlen' & Hfresh' & _).
  repeat split; assumption.
Qed.

Lemma dict_get_value fuel h d k v :
  dict_get fuel h d (PyType k) = Ok v → ∃ stored, (stored, v) ∈ d.
Proof.
  unfold dict_get.
  destruct (dict_find fuel h d k) as [[[i w] |] |] eqn:E; cbn [bind];
    try discriminate.
  intros [= ->].
  destruct (dict_find_replace fuel h k v d i v E) as (stored & Hi & _).
  exists stored. eapply list_elem_of_lookup_2, Hi.
Qed.

Lemma dict_get_above n fuel h d k v :
  Forall (fun entry : nat * nat => n <= snd entry) d →
  dict_get fuel h d k = Ok v → n <= v.
Proof.
  intros Hd H. destruct k as [| k]; [discriminate H |].
  apply dict_get_value in H as [stored Hin].
  rewrite Forall_forall in Hd. exact (Hd _ Hin).
Qed.

Lemma dict_set_above n fuel h d k v d' :
  Forall (fun entry : nat * nat => n <= snd entry) d →
  n <= v →
  dict_set fuel h d k v = Ok d' →
  Forall (fun entry : nat * nat => n <= snd entry) d'.
Proof.
  intros Hd Hv H. unfold dict_set in H.
  destruct (dict_find fuel h d k) as [[[i w] |] |]; cbn [bind] in H;
    try discriminate H; injection H as <-.
  - destruct (d !! i) as [[stored w'] |]; [| exact Hd].
    apply Forall_insert; [exact Hd | exact Hv].
  - apply Forall_app. split; [exact Hd | now constructor].
Qed.

Lemma unify_atomic_private n unify fuel a b st st' :
  (∀ one two, unify one two st = Ok st' → private n st') →
  private n st →
  unify_atomic unify fuel a b st = Ok st' →
  private n st'.
Proof.
  destruct st as [h solutions]. intros Hrec Hst H.
  assert (∀ k v,
            (let* '(v', h0) := clone fuel h v in
             let* '(k', h0) := clone fuel h0 k in
             let* solutions0 := dict_set fuel h0 solutions k' v' in
             Ok (h0, solutions0)) = Ok st' →
            private n st') as Hinsert.
  { intros k v Hins. destruct Hst as (Hlen & Hfresh & Hd). cbn [fst snd] in *.
    destruct (clone fuel h v) as [[v' h1] |] eqn:Ev; cbn [bind] in Hins;
      [| discriminate Hins].
    destruct (clone fuel h1 k) as [[k' h2] |] eqn:Ek; cbn [bind] in Hins;
      [| discriminate Hins].
    destruct (dict_set fuel h2 solutions k' v') as [d |] eqn:Ed;
      cbn [bind] in Hins; [| discriminate Hins].
    injection Hins as <-.
    destruct (clone_fresh n _ _ _ _ _ Hlen Hfresh Ev)
      as (Hv' & Hlen1 & Hfresh1).
    destruct (clone_fresh n _ _ _ _ _ Hlen1 Hfresh1 Ek)
      as (_ & Hlen2 & Hfresh2).
    split; [exact Hlen2 |]. split; [exact Hfresh2 |].
    eapply dict_set_above; [exact Hd | exact Hv' | exact Ed]. }
  unfold unify_atomic in H.
  destruct (Type_eq fuel h a b) as [[] |]; cbn [bind] in H;
    try discriminate H.
  { injection H as <-. exact Hst. }
  destruct (dict_contains fuel h solutions (PyType a)) as [[] |];
    cbn [bind] in H; try discriminate H.
  { destruct (dict_get fuel h solutions (PyType a)) as [v |];
      cbn [bind] in H; [| discriminate H].
    eapply Hrec, H. }
  destruct (dict_contains fuel h solutions (PyType b)) as [[] |];
    cbn [bind] in H; try discriminate H.
  { destruct (dict_get fuel h solutions (PyType b)) as [v |];
      cbn [bind] in H; [| discriminate H].
    eapply Hrec, H. }
  destruct (is_base_type fuel h a) as [base1 |]; cbn [bind] in H;
    [| discriminate H].
  destruct (is_base_type fuel h b) as [base2 |]; cbn [bind] in H;
    [| discriminate H].
  destruct base1, base2; try discriminate H; eapply Hinsert, H.
Qed.

Lemma unify_vars_private n fuel :
  ∀ one two st st',
    private n st → unify_vars fuel one two st = Ok st' → private n st'.
Proof.
  induction fuel as [| fuel IH]; intros one two st st' Hst H;
    [discriminate H |].
  assert (∀ l st0,
            private n st0 →
            iter_state (fun p st => unify_vars fuel (fst p) (snd p) st) l st0
            = Ok st' → private n st') as Hiter.
  { induction l as [| p l IHl]; intros st0 Hst0 Hl; cbn [iter_state] in Hl.
    - injection Hl as <-. exact Hst0.
    - destruct (unify_vars fuel (fst p) (snd p) st0) as [st1 |] eqn:E;
        cbn [bind] in Hl; [| discriminate Hl].
      eapply IHl; [eapply IH; [exact Hst0 | exact E] | exact Hl]. }
  cbn [unify_vars] in H.
  destruct one as [| a]; [discriminate H |].
  destruct two as [| b]; [discriminate H |].
  unfold deref in H.
  destruct (st.1 !! a) as [ca |]; [| discriminate H].
  destruct (st.1 !! b) as [cb |]; [| discriminate H].
  cbn [bind] in H.
  destruct ca as [s1 | l1], cb as [s2 | l2];
    try (eapply unify_atomic_private; [| exact Hst | exact H];
         intros one two Hrec; eapply IH; [exact Hst | exact Hrec]).
  eapply Hiter; [exact Hst | exact H].
Qed.

Lemma dict_set_new n fuel h d k v d' :
  Forall (fun entry : nat * nat => n <= fst entry ∧ n <= snd entry) d →
  n <= k → n <= v →
  dict_set fuel h d k v = Ok d' →
  Forall (fun entry : nat * nat => n <= fst entry ∧ n <= snd entry) d'.
Proof.
  intros Hd Hk Hv H. unfold dict_set in H.
  destruct (dict_find fuel h d k) as [[[i w] |] |]; cbn [bind] in H;
    try discriminate H; injection H as <-.
  - destruct (d !! i) as [[stored w'] |] eqn:Hi; [| exact Hd].
    apply Forall_insert; [exact Hd |]. split; [| exact Hv].
    rewrite Forall_forall in Hd.
    exact (proj1 (Hd _ (list_elem_of_lookup_2 _ _ _ Hi))).
  - apply Forall_app. split; [exact Hd |]. constructor; [| constructor].
    split; assumption.
Qed.

(** The deep copy of a map is made of new objects only, keys and
    values. *)
Lemma deepcopy_dict_new fuel d h y h' :
  deepcopy_dict fuel d h = Ok (y, h') →
  extends h h'
  ∧ List.length h <= List.length h'
  ∧ fresh_from (List.length h) [] h'
  ∧ Forall (fun entry : nat * nat =>
              List.length h <= fst entry ∧ List.length h <= snd entry) y.
Proof.
  unfold deepcopy_dict. intros H.
  match type of H with
  | context [iter_state ?f _ _] => set (step := f) in H
  end.
  destruct (iter_state step d ([], (h, []))) as [[y1 [h1 m1]] |] eqn:E;
    cbn [bind] in H; [| discriminate H].
  injection H as <- <-.
  set (n := List.length h).
  assert (∀ entries y0 h0 m0,
            extends h h0 → n <= List.length h0 → fresh_from n [] h0 →
            memo_above n m0 →
            Forall (fun entry : nat * nat =>
                      n <= fst entry ∧ n <= snd entry) y0 →
            iter_state step entries (y0, (h0, m0)) = Ok (y1, (h1, m1)) →
            extends h h1 ∧ n <= List.length h1 ∧ fresh_from n [] h1
            ∧ Forall (fun entry : nat * nat =>
                        n <= fst entry ∧ n <= snd entry) y1) as Hloop.
  { induction entries as [| entry entries IH];
      intros y0 h0 m0 Hext Hlen Hfresh Hmemo Hy Hl; cbn [iter_state] in Hl.
    - injection Hl as <- <- <-. split; [exact Hext |].
      split; [exact Hlen |]. split; [exact Hfresh | exact Hy].
    - destruct (step entry (y0, (h0, m0))) as [[y2 [h2 m2]] |] eqn:Es;
        cbn [bind] in Hl; [| discriminate Hl].
      unfold step in Es.
      destruct (deepcopy fuel entry.2 (h0, m0)) as [[v' [h3 m3]] |] eqn:Ev;
        cbn [bind] in Es; [| discriminate Es].
      destruct (deepcopy fuel entry.1 (h3, m3)) as [[k' [h4 m4]] |] eqn:Ek;
        cbn [bind] in Es; [| discriminate Es].
      cbn [fst] in Es.
      destruct (dict_set fuel h4 y0 k' v') as [y3 |] eqn:Ed;
        cbn [bind] in Es; [| discriminate Es].
      injection Es as <- <- <-.
      destruct (deepcopy_fresh n fuel [] _ _ _ _ _ _ Hlen Hfresh Hmemo Ev)
        as (Hv' & Hlen3 & Hfresh3 & Hmemo3).
      destruct (deepcopy_fresh n fuel [] _ _ _ _ _ _ Hlen3 Hfresh3 Hmemo3 Ek)
        as (Hk' & Hlen4 & Hfresh4 & Hmemo4).
      apply deepcopy_extends in Ev, Ek.
      eapply IH; [| exact Hlen4 | exact Hfresh4 | exact Hmemo4 | | exact Hl].
      + eapply extends_trans; [exact Hext |].
        eapply extends_trans; [exact Ev | exact Ek].
      + eapply dict_set_new; [exact Hy | exact Hk' | exact Hv' | exact Ed]. }
  eapply Hloop; [apply extends_refl | reflexivity | | | constructor | exact E].
  - intros i l Hi _ Hl. apply lookup_lt_Some in Hl. unfold n in Hi. lia.
  - intros x y0 Hxy. discriminate Hxy.
Qed.

Lemma deepcopy_dict_private fuel d h y h' :
  deepcopy_dict fuel d h = Ok (y, h') →
  extends h h' ∧ private (List.length h) (h', y).
Proof.
  intros H. apply deepcopy_dict_new in H as (Hext & Hlen & Hfresh & Hy).
  split; [exact Hext |]. split; [exact Hlen |]. split; [exact Hfresh |].
  eapply Forall_impl; [exact Hy |]. intros entry [_ Hv]. exact Hv.
Qed.

Section simplify_isolated.
Variable h0 : list TypeCell.
Variable unified : list (nat * nat).
Hypothesis Hvalues :
  Forall (fun entry : nat * nat => List.length h0 <= snd entry) unified.

Lemma demote_constraint_isolated fuel t h b h' :
  List.length h0 <= t → kept h0 h →
  demote_constraint fuel unified t h = Ok (b, h') → kept h0 h'.
Proof.
  intros Ht Hkept H. unfold demote_constraint in H.
  destruct (dict_contains fuel h unified (PyType t)) as [[] |];
    cbn [bind] in H; try discriminate H; [| now injection H as _ <-].
  destruct (dict_get fuel h unified (PyType t)) as [v |] eqn:Ev;
    cbn [bind] in H; [| discriminate H].
  destruct (Type_eq fuel h t v) as [[] |]; cbn [bind] in H;
    try discriminate H; [now injection H as _ <- |].
  pose proof (dict_get_above _ _ _ _ _ _ Hvalues Ev) as Hv.
  unfold Type_set, deref in H.
  destruct (h !! v) as [c |] eqn:Hc; cbn [bind] in H; [| discriminate H].
  destruct (h !! t) as [c' |] eqn:Hc'; cbn [bind] in H; [| discriminate H].
  injection H as _ <-. destruct Hkept as [Hext Hfresh]. split.
  - intros i c0 Hi. rewrite list_lookup_insert_ne; [apply Hext, Hi |].
    apply lookup_lt_Some in Hi. lia.
  - intros i l Hi Hopen Hl.
    destruct (decide (t = i)) as [<- | Hne].
    + rewrite list_lookup_insert_eq in Hl by (eapply lookup_lt_Some, Hc').
      injection Hl as ->. eapply Hfresh; [exact Hv | apply not_elem_of_nil | exact Hc].
    + rewrite list_lookup_insert_ne in Hl by exact Hne.
      eapply Hfresh; eassumption.
Qed.

Lemma convert_type_isolated fuel
    (converter : nat → list TypeCell → result (bool * list TypeCell)) :
  (∀ t h b h', List.length h0 <= t → kept h0 h →
               converter t h = Ok (b, h') → kept h0 h') →
  ∀ base_t t h b h',
    above (List.length h0) t → kept h0 h →
    convert_type fuel base_t t converter h = Ok (b, h') → kept h0 h'.
Proof.
  intros Hconv.
  induction fuel as [| fuel IH]; intros base_t t h b h' Ht Hkept H;
    [discriminate H |].
  cbn [convert_type] in H.
  destruct t as [| t]; [discriminate H |]. cbn [above] in Ht.
  destruct (Type_eq fuel h t base_t) as [[] |]; cbn [bind] in H;
    try discriminate H; [now injection H as _ <- |].
  unfold deref in H.
  destruct (h !! t) as [[s | types] |] eqn:Hc; cbn [bind] in H;
    [eapply Hconv; eassumption | | discriminate H].
  destruct (map_state _ types h) as [[answers h1] |] eqn:E; cbn [bind] in H;
    [| discriminate H].
  injection H as _ <-.
  assert (Forall (above (List.length h0)) types) as Htypes.
  { eapply (proj2 Hkept); [exact Ht | | exact Hc]. intros Hin.
    apply elem_of_nil in Hin. exact Hin. }
  clear Hc. revert h answers h1 Hkept E.
  induction Htypes as [| T1 types HT1 _ IHt]; intros h answers h1 Hkept E;
    cbn [map_state] in E.
  - now injection E as _ <-.
  - destruct (convert_type fuel base_t T1 converter h) as [[b1 h2] |] eqn:E1;
      cbn [bind] in E; [| discriminate E].
    destruct (map_state _ types h2) as [[bs h3] |] eqn:E2; cbn [bind] in E;
      [| discriminate E].
    injection E as _ <-.
    eapply IHt; [| exact E2]. eapply IH; eassumption.
Qed.

Lemma simplify_pass_isolated fuel h h' :
  kept h0 h → simplify_pass fuel unified h = Ok h' → kept h0 h'.
Proof.
  unfold simplify_pass.
  match goal with |- _ → iter_state ?f _ _ = _ → _ => set (step := f) end.
  generalize unified as entries. intros entries. revert h.
  induction entries as [| entry entries IH]; intros h Hkept H;
    cbn [iter_state] in H.
  - now injection H as <-.
  - destruct (step entry h) as [h1 |] eqn:E; cbn [bind] in H;
      [| discriminate H].
    eapply IH; [| exact H]. clear H IH. unfold step in E.
    destruct (dict_get fuel h unified (PyType entry.1)) as [v |] eqn:Ev;
      cbn [bind] in E; [| discriminate E].
    destruct (is_base_type fuel h v) as [[] |]; cbn [bind] in E;
      try discriminate E; [now injection E as <- |].
    destruct (convert_type fuel entry.1 (PyType v)
                (demote_constraint fuel unified) h) as [[b h2] |] eqn:Ec;
      cbn [bind] in E; [| discriminate E].
    injection E as <-.
    eapply convert_type_isolated; [| | exact Hkept | exact Ec].
    + intros t h3 b0 h3'. apply demote_constraint_isolated.
    + exact (dict_get_above _ _ _ _ _ _ Hvalues Ev).
Qed.

Lemma simplify_unification_isolated fuel h h' :
  extends h0 h → fresh_from (List.length h0) [] h →
  simplify_unification fuel unified h = Ok h' →
  extends h0 h'.
Proof.
  intros Hext Hfresh. unfold simplify_unification.
  assert (kept h0 h) as Hkept by (split; assumption).
  clear Hext Hfresh. generalize 10 as rounds. intros rounds. revert h Hkept.
  induction rounds as [| rounds IH]; intros h Hkept H; cbn [repeat_pass] in H.
  - injection H as <-. exact (proj1 Hkept).
  - destruct (simplify_pass fuel unified h) as [h1 |] eqn:E; cbn [bind] in H;
      [| discriminate H].
    eapply IH; [| exact H]. eapply simplify_pass_isolated; eassumption.
Qed.
End simplify_isolated.

Lemma apply_solution_isolated fuel self args h h' solution :
  apply_solution fuel self args h = Ok (h', solution) →
  extends h h'
  ∧ Forall (fun entry : nat * nat => List.length h <= snd entry) solution.
Proof.
  unfold apply_solution. intros H.
  destruct (deref h args) as [[s | types] |]; cbn [bind] in H;
    try discriminate H.
  destruct (dict_get fuel h (intermediate_types self) (my_type self))
    as [mine |]; cbn [bind] in H; [| discriminate H].
  destruct (deref h mine) as [cm |]; cbn [bind] in H; [| discriminate H].
  destruct (Nat.eqb (List.length types) (len_type cm)); [| discriminate H].
  destruct (deepcopy_dict fuel (intermediate_types self) h)
    as [[copy h1] |] eqn:Ecopy; cbn [bind] in H; [| discriminate H].
  destruct (unify_vars fuel (my_type self) (PyType args) (h1, copy))
    as [[h2 solution2] |] eqn:Eunify; cbn [bind] in H; [| discriminate H].
  destruct (simplify_unification fuel solution2 h2) as [h3 |] eqn:Esimplify;
    cbn [bind] in H; [| discriminate H].
  injection H as <- <-.
  apply deepcopy_dict_private in Ecopy as [Hext1 Hprivate1].
  pose proof (unify_vars_private _ _ _ _ _ _ Hprivate1 Eunify)
    as (_ & Hfresh2 & Hvalues2).
  apply unify_vars_advances_all in Eunify as [Hext2 _].
  cbn [fst snd] in *.
  split; [| exact Hvalues2].
  eapply simplify_unification_isolated; [exact Hvalues2 | | exact Hfresh2
                                        | exact Esimplify].
  eapply extends_trans; eassumption.
Qed.

(** X24. Instantiating a function works on a copy: no [Type] object that
    existed before the call is changed by it, neither the stub's own
    types nor the caller's argument types, and the type that is returned
    is an object created by the call. *)
Theorem apply_with_type_isolated (fuel : nat) (self : FunctionStub)
    (args : nat) (h : list TypeCell) (r : nat) (h' : list TypeCell) :
  apply_with_type fuel self args h = Ok (r, h') →
  extends h h' ∧ List.length h <= r.
Proof.
  unfold apply_with_type. intros H.
  destruct (apply_solution fuel self args h) as [[h1 solution] |] eqn:E;
    cbn [bind] in H; [| discriminate H].
  destruct (all_base fuel h1 solution) as [[] |]; cbn [bind] in H;
    try discriminate H.
  destruct (dict_get fuel h1 solution (my_type self)) as [v |] eqn:Ev;
    cbn [bind] in H; [| discriminate H].
  injection H as <- <-.
  apply apply_solution_isolated in E as [Hext Hvalues].
  split; [exact Hext | eapply dict_get_above; eassumption].
Qed.

Lemma apply_with_type_isolated_witness :
  ∃ r h',
    apply_with_type 10 identity_annotated 10 identity_store = Ok (r, h')
    ∧ extends identity_store h'
    ∧ List.length identity_store <= r.
Proof.
  eexists _, _. split; [vm_compute; reflexivity |].
  apply (apply_with_type_isolated 10 identity_annotated 10 identity_store).
  vm_compute. reflexivity.
Defined.

(** ** Specialisation, stage by stage *)



(** The sample store and stub are what [annotate_type] and the
    construction of the invocation type produce. *)
Example identity_annotated_correct :
  (let* '(stub, h, _) := annotate_type 10 identity_stub [] 0 in
   let '(args, h) := Type_params h [inl "int"; inl "int"] in
   let '(short, h) := Type_params h [inl "int"] in
   Ok (stub, args, short, h))
  = Ok (identity_annotated, 10, 12, identity_store).
Proof. reflexivity. Qed.


(** ** Separating the declarations *)

Lemma separate_defuns_cases i operands r :
  separate_defuns (Ast i operands) = Ok r →
  (i ≠ Defun ∧ separate_operands separate_defuns i operands = Ok r)
  ∨ (i = Defun
     ∧ ∃ name params fn_body,
         r = ([mkStubFields (Ast i operands) name params fn_body], None)).
Proof.
  intros H.
  destruct i; try (left; split; [discriminate |]); cbn [separate_defuns] in H;
    repeat match type of H with
           | match ?x with _ => _ end = Ok _ => destruct x
           end;
    try discriminate H; try exact H.
  right. split; [reflexivity |].
  match type of H with
  | bind ?c _ = _ => destruct c as [params' |]; cbn [bind] in H;
                     [| discriminate H]
  end.
  injection H as <-. eexists _, _, _. reflexivity.
Qed.

Lemma separate_operands_defun_free
    (separate : AstNode → result (list StubFields * option AstNode))
    (operands : list Operand) :
  Forall
    (on_nodes
       (fun n => ∀ functions script,
          separate n = Ok (functions, script) →
          Forall (fun s => instr_of (stub_node s) = Defun) functions
          ∧ match script with
            | Some n' => defun_free n' = true
            | None => True
            end))
    operands →
  ∀ functions0 operands0 functions new_operands,
    Forall (fun s => instr_of (stub_node s) = Defun) functions0 →
    forallb (fun o => match o with
                      | OStr _ => true
                      | ONode k => defun_free k
                      end) operands0 = true →
    iter_state (separate_operand separate) operands (functions0, operands0)
    = Ok (functions, new_operands) →
    Forall (fun s => instr_of (stub_node s) = Defun) functions
    ∧ forallb (fun o => match o with
                        | OStr _ => true
                        | ONode k => defun_free k
                        end) new_operands = true.
Proof.
  induction 1 as [| j operands Hj _ IH];
    intros functions0 operands0 functions new_operands Hf Ho H;
    cbn [iter_state] in H.
  - injection H as <- <-. split; assumption.
  - destruct (separate_operand separate j (functions0, operands0))
      as [[functions1 operands1] |] eqn:E; cbn [bind] in H;
      [| discriminate H].
    eapply IH; [| | exact H]; clear H IH.
    + destruct j as [s | n]; cbn [separate_operand] in E.
      * now injection E as <- _.
      * destruct (separate n) as [[functions_list new_node] |] eqn:En;
          cbn [bind] in E; [| discriminate E].
        injection E as <- _. apply Forall_app. split; [exact Hf |].
        exact (proj1 (Hj _ _ En)).
    + destruct j as [s | n]; cbn [separate_operand] in E.
      * injection E as _ <-. rewrite forallb_app, Ho. reflexivity.
      * destruct (separate n) as [[functions_list new_node] |] eqn:En;
          cbn [bind] in E; [| discriminate E].
        injection E as _ <-. pose proof (proj2 (Hj _ _ En)) as Hn.
        destruct new_node as [n' |]; [| exact Ho].
        rewrite forallb_app, Ho. cbn. now rewrite Hn.
Qed.

Lemma separate_defuns_removes_all (node : AstNode) :
  ∀ functions script,
    separate_defuns node = Ok (functions, script) →
    Forall (fun s => instr_of (stub_node s) = Defun) functions
    ∧ match script with
      | Some n' => defun_free n' = true
      | None => True
      end.
Proof.
  induction node as [i operands IH | i k IH] using AstNode_nested_ind;
    intros functions script H.
  - apply separate_defuns_cases in H
      as [[Hi H] | [-> (name & params & fn_body & [= -> ->])]].
    + unfold separate_operands in H.
      destruct (iter_state _ operands ([], []))
        as [[functions1 new_operands] |] eqn:E; cbn [bind] in H;
        [| discriminate H].
      injection H as <- <-.
      destruct (separate_operands_defun_free separate_defuns operands IH
                  [] [] _ _ (List.Forall_nil _) eq_refl E) as [Hf Ho].
      split; [exact Hf |]. cbn [defun_free]. rewrite Ho.
      destruct i; try reflexivity. now contradiction Hi.
    + split; [| exact I]. repeat constructor.
  - destruct i; discriminate H.
Qed.

(** X9. Separation takes every declaration out: a tree that is returned has
    no [Defun] node left anywhere in it, every stub holds a [Defun] node,
    and no tree is returned exactly when the node itself is a
    declaration, which then is the one stub. *)
Theorem separate_defuns_defun_free (node : AstNode)
    (functions : list StubFields) (script : option AstNode) :
  separate_defuns node = Ok (functions, script) →
  Forall (fun s => instr_of (stub_node s) = Defun) functions
  ∧ match script with
    | Some n' => defun_free n' = true ∧ instr_of n' = instr_of node
    | None => instr_of node = Defun ∧ map stub_node functions = [node]
    end.
Proof.
  intros H. pose proof (separate_defuns_removes_all _ _ _ H) as [Hf Hs].
  split; [exact Hf |].
  destruct node as [i operands | i k]; [| destruct i; discriminate H].
  apply separate_defuns_cases in H
    as [[Hi H] | [-> (name & params & fn_body & [= -> ->])]].
  - unfold separate_operands in H.
    destruct (iter_state _ operands ([], []))
      as [[functions1 new_operands] |]; cbn [bind] in H; [| discriminate H].
    injection H as <- <-. split; [exact Hs | reflexivity].
  - split; reflexivity.
Qed.

Lemma separate_defuns_defun_free_witness :
  Forall (fun s => instr_of (stub_node s) = Defun)
    [mkStubFields
       (Ast Defun [ONode (Ast String1 [OStr "f"]);
                   ONode (Ast LambdaParams [ONode (Ast String1 [OStr "x"])]);
                   ONode (Ast String1 [OStr "x"])])
       (OStr "f") ["x"] (ONode (Ast String1 [OStr "x"]))]
  ∧ defun_free (Ast Module [ONode (Ast String1 [OStr "y"])]) = true
  ∧ instr_of (Ast Module [ONode (Ast String1 [OStr "y"])])
    = instr_of
        (Ast Module
           [ONode (node identity_stub); ONode (Ast String1 [OStr "y"])]).
Proof.
  apply (separate_defuns_defun_free
           (Ast Module
              [ONode (node identity_stub); ONode (Ast String1 [OStr "y"])])
           _ (Some _)).
  reflexivity.
Defined.
